(** * shaft/core: the dependency-injection planner and runner

    A shallow embedding of [core/graph.go] (ports, graph, toposort
    planner), [core/types.go] (specs and error wrappers) and
    [core/run.go] (runner and option builders), followed by the
    properties the specification states about them. *)

From Stdlib Require Import FunctionalExtensionality.
From stdpp Require Import base option list strings pretty gmap sets sorting.

Open Scope string_scope.
Open Scope list_scope.

(** ** Values, errors and host actions *)

(** [reflect.Type] is identified by its printed name. *)
Definition rtype := string.

(** [reflect.Value]: the zero value is invalid; a slice value holds its
    elements; anything else is an opaque atom. *)
#[warnings="-register-all"]
Inductive Value :=
| VInvalid
| VAtom (a : string)
| VSlice (elems : list Value).

(** [reflect.MakeSlice(typ, 0, 0)]. *)
Definition MakeSlice (t : rtype) : Value := VSlice [].

(** [reflect.AppendSlice(s, t)] panics unless both are slices; [None] is
    the panic. *)
Definition AppendSlice (s t : Value) : option Value :=
  match s, t with
  | VSlice a, VSlice b => Some (VSlice (a ++ b))
  | _, _ => None
  end.

(** [reflect.Append(s, x)]. *)
Definition Append (s x : Value) : option Value :=
  match s with
  | VSlice a => Some (VSlice (a ++ [x]))
  | _ => None
  end.

(** Go's builtin [copy(dst, src)]: overwrites the first
    [min (len dst) (len src)] elements of [dst]. *)
Definition copy {A} (dst src : list A) : list A :=
  take (length dst) src ++ drop (length src) dst.

(** Errors: [fmt.Errorf] values carry their message, the two wrappers of
    [types.go] carry a node label and the wrapped error. *)
Inductive error :=
| errorString (msg : string)
| ErrDependency (Node : string) (Err : error)
| ErrExecute (Node : string) (Err : error).

Definition Unwrap (e : error) : option error :=
  match e with
  | errorString _ => None
  | ErrDependency _ e' => Some e'
  | ErrExecute _ e' => Some e'
  end.

(** A host function given to [Stack]: it may log events, invoke the
    continuation with result values and look at what the continuation
    returned, and finally returns its own error. *)
Inductive stackProg :=
| SReturn (err : option error)
| SEvent (ev : string) (k : stackProg)
| SCont (output : list Value) (k : option error -> stackProg).

(** The closures built by the option constructors of [run.go]. Host
    functions return the events they log together with their results. *)
Inductive execFn :=
| provideExec (f : list Value -> list string * (list Value * option error))
| supplyExec (values : list Value)
| stackExec (f : list Value -> stackProg)
| invokeExec (f : list Value -> list string * option error)
| populateExec (ptrs : list nat).

Record runAction := RunAction {
  ra_format : option string;
  exec : execFn;
}.

(** ** Ports and graph *)

Record Spec := MkSpec {
  Typ : rtype;
  Name : string;
  Group : bool;
  Decorate : bool;
}.

Record graphNodeKey := GraphNodeKey {
  typ : rtype;
  name : string;
  group : bool;
}.

#[global] Instance graphNodeKey_eq_dec : EqDecision graphNodeKey.
Proof. solve_decision. Defined.

#[global] Instance graphNodeKey_countable : Countable graphNodeKey.
Proof.
  refine (inj_countable'
            (fun k => (typ k, name k, group k))
            (fun t => GraphNodeKey t.1.1 t.1.2 t.2) _).
  by intros [].
Defined.

Definition graphNodeKey_String (k : graphNodeKey) : string :=
  let result := if decide (name k = "") then typ k else name k in
  if group k then "[" +:+ result +:+ "]" else result.

Definition extractGraphKey (spec : Spec) : graphNodeKey :=
  {| typ := Typ spec; name := Name spec; group := Group spec |}.

Record graphNodeOutputSlot := Slot {
  slot_id : nat;
  slot_index : nat;
}.

#[global] Instance graphNodeOutputSlot_eq_dec : EqDecision graphNodeOutputSlot.
Proof. solve_decision. Defined.

Record graphNode := GraphNode {
  input : list Spec;
  output : list Spec;
  value : runAction;
  format : option string;
}.

(** [graphNode.String(id)]: the formatter's text, or [#id]. *)
Definition graphNode_String (g : graphNode) (id : nat) : string :=
  match format g with
  | Some s => s
  | None => "#" +:+ pretty id
  end.

Record graph := Graph {
  nodes : list graphNode;
  provide : gmap graphNodeKey (list graphNodeOutputSlot);
  decorate : gmap graphNodeKey (list graphNodeOutputSlot);
}.

Definition newGraph : graph :=
  {| nodes := []; provide := ∅; decorate := ∅ |}.

(** Reading a Go map of slices at an absent key yields the nil slice. *)
Definition slotsOf (m : gmap graphNodeKey (list graphNodeOutputSlot))
    (key : graphNodeKey) : list graphNodeOutputSlot :=
  default [] (m !! key).

(** One iteration of the loop of [graph.insert] over [node.output]. *)
Definition insertOutput (id : nat) (g : graph) (io : nat * Spec) : graph :=
  let key := extractGraphKey io.2 in
  let slot := {| slot_id := id; slot_index := io.1 |} in
  if Decorate io.2
  then {| nodes := nodes g; provide := provide g;
          decorate := <[key := slotsOf (decorate g) key ++ [slot]]> (decorate g) |}
  else {| nodes := nodes g;
          provide := <[key := slotsOf (provide g) key ++ [slot]]> (provide g);
          decorate := decorate g |}.

Definition graph_insert (g : graph) (node : graphNode) : graph :=
  let id := length (nodes g) in
  foldl (insertOutput id)
        {| nodes := nodes g ++ [node]; provide := provide g; decorate := decorate g |}
        (imap pair (output node)).

(** ** Execution plan *)

(** An [*executionParam] is an index into the store of buffers. *)
Definition ptr := nat.

Record executionParam := ExecutionParam { params : list Value }.

Record executionCollect := Collect {
  ec_result : ptr;
  ec_index : nat;
}.

#[global] Instance executionCollect_eq_dec : EqDecision executionCollect.
Proof. solve_decision. Defined.

(** The zero value [executionCollect{}]: a nil buffer pointer, which no
    allocated buffer ever equals. Buffers are numbered from 1. *)
Definition nilCollect : executionCollect := {| ec_result := 0; ec_index := 0 |}.

Inductive executionNode :=
| graphUserNode (uparams : ptr) (uresult : ptr) (uvalue : runAction)
| collectParamNode (items : list executionCollect) (presult : ptr)
| collectGroupNode (items : list executionCollect) (gresult : ptr).

(** ** Planner state *)

Record graphToposort := Toposort {
  outputs : gmap nat ptr;
  grouped : gmap graphNodeKey ptr;
  decorated : gmap graphNodeKey executionCollect;
  decorating : gmap graphNodeKey executionCollect;
  pending : gset nat;
  result : list executionNode;
  (** the buffers allocated so far; buffer [p] is [store !! (p - 1)] *)
  store : list executionParam;
}.

Definition newGraphToposort : graphToposort :=
  {| outputs := ∅; grouped := ∅; decorated := ∅; decorating := ∅;
     pending := ∅; result := []; store := [] |}.

Definition set_outputs (f : gmap nat ptr -> gmap nat ptr) (tp : graphToposort) :=
  {| outputs := f (outputs tp); grouped := grouped tp; decorated := decorated tp;
     decorating := decorating tp; pending := pending tp; result := result tp;
     store := store tp |}.
Definition set_grouped (f : gmap graphNodeKey ptr -> gmap graphNodeKey ptr)
    (tp : graphToposort) :=
  {| outputs := outputs tp; grouped := f (grouped tp); decorated := decorated tp;
     decorating := decorating tp; pending := pending tp; result := result tp;
     store := store tp |}.
Definition set_decorated
    (f : gmap graphNodeKey executionCollect -> gmap graphNodeKey executionCollect)
    (tp : graphToposort) :=
  {| outputs := outputs tp; grouped := grouped tp; decorated := f (decorated tp);
     decorating := decorating tp; pending := pending tp; result := result tp;
     store := store tp |}.
Definition set_decorating
    (f : gmap graphNodeKey executionCollect -> gmap graphNodeKey executionCollect)
    (tp : graphToposort) :=
  {| outputs := outputs tp; grouped := grouped tp; decorated := decorated tp;
     decorating := f (decorating tp); pending := pending tp; result := result tp;
     store := store tp |}.
Definition set_pending (f : gset nat -> gset nat) (tp : graphToposort) :=
  {| outputs := outputs tp; grouped := grouped tp; decorated := decorated tp;
     decorating := decorating tp; pending := f (pending tp); result := result tp;
     store := store tp |}.
Definition push_result (n : executionNode) (tp : graphToposort) :=
  {| outputs := outputs tp; grouped := grouped tp; decorated := decorated tp;
     decorating := decorating tp; pending := pending tp; result := result tp ++ [n];
     store := store tp |}.
Definition push_store (p : executionParam) (tp : graphToposort) :=
  {| outputs := outputs tp; grouped := grouped tp; decorated := decorated tp;
     decorating := decorating tp; pending := pending tp; result := result tp;
     store := store tp ++ [p] |}.

(** ** The planner monad: state, Go errors, panics and fuel *)

Inductive outcome (A : Type) :=
| Ok (a : A)
| Fail (e : error)
| Panic (msg : string)
| OutOfFuel.
Arguments Ok {A} a.
Arguments Fail {A} e.
Arguments Panic {A} msg.
Arguments OutOfFuel {A}.

Definition planM (A : Type) := graphToposort -> outcome A * graphToposort.

Definition ret {A} (a : A) : planM A := fun tp => (Ok a, tp).

Definition bind {A B} (m : planM A) (k : A -> planM B) : planM B :=
  fun tp =>
    match m tp with
    | (Ok a, tp') => k a tp'
    | (Fail e, tp') => (Fail e, tp')
    | (Panic msg, tp') => (Panic msg, tp')
    | (OutOfFuel, tp') => (OutOfFuel, tp')
    end.

Notation "'let*' x := m 'in' k" := (bind m (fun x => k))
  (at level 10, x name, m at level 100, k at level 200).
Notation "'let*' '_' := m 'in' k" := (bind m (fun _ => k))
  (at level 10, m at level 100, k at level 200).

Definition fail {A} (e : error) : planM A := fun tp => (Fail e, tp).
Definition panic {A} (msg : string) : planM A := fun tp => (Panic msg, tp).
Definition modify (f : graphToposort -> graphToposort) : planM unit :=
  fun tp => (Ok (), f tp).
Definition get {A} (f : graphToposort -> A) : planM A :=
  fun tp => (Ok (f tp), tp).

(** [&executionParam{params: ps}] *)
Definition alloc (ps : list Value) : planM ptr :=
  fun tp => (Ok (S (length (store tp))), push_store (ExecutionParam ps) tp).

(** [tp.result = append(tp.result, n)] *)
Definition emit (n : executionNode) : planM unit := modify (push_result n).

(** [for _, x := range xs { ... }] with early return on failure. *)
Fixpoint forEach {A} (xs : list A) (body : A -> planM unit) : planM unit :=
  match xs with
  | [] => ret ()
  | x :: xs' => let* _ := body x in forEach xs' body
  end.

(** A range loop that appends one item per iteration. *)
Fixpoint collectEach {A B} (xs : list A) (body : A -> planM B) : planM (list B) :=
  match xs with
  | [] => ret []
  | x :: xs' =>
      let* b := body x in
      let* bs := collectEach xs' body in
      ret (b :: bs)
  end.

(** The error messages of [graph.go]. *)
Definition missingDependency (item : graphNodeKey) : error :=
  errorString ("type " +:+ graphNodeKey_String item +:+ " missing dependency").
Definition ambigiousDependency (item : graphNodeKey) : error :=
  errorString ("type " +:+ graphNodeKey_String item +:+ " ambigious dependency").
Definition cyclicDependency (label : string) (item : graphNodeKey) : error :=
  errorString ("type " +:+ label +:+ " cyclic dependency on node "
               +:+ graphNodeKey_String item).

(** ** The planner (graph.go) *)

Section planner.
(** The recursive entry [g.toposortGenerateGraphNodeID(tp, id)]. *)
Variable nodeID : nat -> planM ptr.
Variable g : graph.

Definition toposortGenerateSingle (item : graphNodeKey) : planM executionCollect :=
  match slotsOf (provide g) item with
  | [] => fail (missingDependency item)
  | [outputSlot] =>
      let id := slot_id outputSlot in
      let* pend := get pending in
      if decide (id ∈ pend) then
        match nodes g !! id with
        | Some n => fail (cyclicDependency (graphNode_String n id) item)
        | None => panic "index out of range"
        end
      else
        let* params := nodeID id in
        ret {| ec_result := params; ec_index := slot_index outputSlot |}
  | _ => fail (ambigiousDependency item)
  end.

(** The body of the loop of [toposortGenerateGrouped]. *)
Definition groupedItem (outputSlot : graphNodeOutputSlot) : planM executionCollect :=
  let* params := nodeID (slot_id outputSlot) in
  ret {| ec_result := params; ec_index := slot_index outputSlot |}.

Definition toposortGenerateGrouped (key : graphNodeKey) : planM executionCollect :=
  let* cached := get (fun tp => grouped tp !! key) in
  match cached with
  | Some result => ret {| ec_result := result; ec_index := 0 |}
  | None =>
      let* result := alloc [MakeSlice (typ key)] in
      let* items := collectEach (slotsOf (provide g) key) groupedItem in
      let* _ := emit (collectGroupNode items result) in
      let* _ := modify (set_grouped <[key := result]>) in
      ret {| ec_result := result; ec_index := 0 |}
  end.

Definition toposortGenerateBaseCollect (key : graphNodeKey) : planM executionCollect :=
  let* baseCollect := (if group key then toposortGenerateGrouped key
                       else toposortGenerateSingle key) in
  match slotsOf (decorate g) key with
  | [] => ret baseCollect
  | _ =>
      let* done := get (fun tp => decorated tp !! key) in
      match done with
      | Some _ => ret baseCollect
      | None =>
          let* cur := get (fun tp => decorating tp !! key) in
          match cur with
          | Some _ => ret baseCollect
          | None =>
              let* _ := modify (set_decorating <[key := baseCollect]>) in
              ret baseCollect
          end
      end
  end.

(** The body of the decorator loop of [toposortGenerateCollect]. *)
Definition decorateStep (key : graphNodeKey) (outputSlot : graphNodeOutputSlot)
    : planM unit :=
  let* params := nodeID (slot_id outputSlot) in
  modify (set_decorating
    <[key := {| ec_result := params; ec_index := slot_index outputSlot |}]>).

(** What [toposortGenerateCollect] does once the base collect is there. *)
Definition collectAfterBase (spec : Spec) (baseCollect : executionCollect)
    : planM executionCollect :=
  let key := extractGraphKey spec in
  if Decorate spec then
    let* cur := get (fun tp => decorating tp !! key) in
    match cur with
    | Some collect => ret collect
    | None => panic "invalid uninitialized decorate"
    end
  else
    match slotsOf (decorate g) key with
    | [] => ret baseCollect
    | outputSlots =>
        let* done := get (fun tp => decorated tp !! key) in
        match done with
        | Some dec => ret dec
        | None =>
            let* _ := forEach outputSlots (decorateStep key) in
            let* cur := get (fun tp => decorating tp !! key) in
            let result := default nilCollect cur in
            let* _ := modify (set_decorated <[key := result]>) in
            let* _ := modify (set_decorating (delete key)) in
            ret result
        end
    end.

(** A failure of the base collect is answered with
    [return executionCollect{}, nil]. *)
Definition toposortGenerateCollect (spec : Spec) : planM executionCollect :=
  fun tp =>
  match toposortGenerateBaseCollect (extractGraphKey spec) tp with
  | (Fail _, tp') => (Ok nilCollect, tp')
  | (Panic msg, tp') => (Panic msg, tp')
  | (OutOfFuel, tp') => (OutOfFuel, tp')
  | (Ok baseCollect, tp') => collectAfterBase spec baseCollect tp'
  end.

(** The first loop of [toposortGenerateGraphNode]. *)
Definition baseStep (input : Spec) : planM unit :=
  let* _ := toposortGenerateBaseCollect (extractGraphKey input) in ret ().

Definition toposortGenerateGraphNode (current : graphNode) : planM ptr :=
  let* collectResult := alloc (replicate (length (input current)) VInvalid) in
  let* _ := forEach (input current) baseStep in
  let* items := collectEach (input current) toposortGenerateCollect in
  let* _ := emit (collectParamNode items collectResult) in
  let* userResult := alloc (replicate (length (output current)) VInvalid) in
  let* _ := emit (graphUserNode collectResult userResult (value current)) in
  ret userResult.
End planner.

(** [toposortGenerateGraphNodeID]: each recursive entry consumes one unit
    of fuel; [defer delete(tp.pending, id)] runs on every exit. *)
Fixpoint toposortGenerateGraphNodeID (fuel : nat) (g : graph) (id : nat)
    : planM ptr :=
  match fuel with
  | 0 => fun tp => (OutOfFuel, tp)
  | S fuel' => fun tp =>
      match outputs tp !! id with
      | Some params => (Ok params, tp)
      | None =>
          let tp1 := set_pending (union {[id]}) tp in
          match nodes g !! id with
          | None => (Panic "index out of range", set_pending (fun p => p ∖ {[id]}) tp1)
          | Some current =>
              match toposortGenerateGraphNode
                      (toposortGenerateGraphNodeID fuel' g) g current tp1 with
              | (Ok params, tp2) =>
                  (Ok params,
                   set_pending (fun p => p ∖ {[id]})
                     (set_outputs <[id := params]> tp2))
              | (r, tp2) => (r, set_pending (fun p => p ∖ {[id]}) tp2)
              end
          end
      end
  end.

(** The loop of [graph.toposort] over the consumer roots. *)
Definition rootStep (fuel : nat) (g : graph) (invoke : graphNode) : planM unit :=
  let* _ := toposortGenerateGraphNode (toposortGenerateGraphNodeID fuel g) g invoke in
  ret ().

Definition toposortState (fuel : nat) (g : graph) (invokes : list graphNode)
    : outcome unit * graphToposort :=
  forEach invokes (rootStep fuel g) newGraphToposort.

(** [graph.toposort]: the plan, together with the buffers it refers to. *)
Definition toposort (fuel : nat) (g : graph) (invokes : list graphNode)
    : outcome (list executionNode * list executionParam) :=
  match toposortState fuel g invokes with
  | (Ok _, tp) => Ok (result tp, store tp)
  | (Fail e, _) => Fail e
  | (Panic msg, _) => Panic msg
  | (OutOfFuel, _) => OutOfFuel
  end.

(** ** The runner (run.go) *)

Record runState := RunState {
  rs_pending : list executionNode;
  (** the buffers the plan refers to *)
  rs_store : list executionParam;
  (** what the host functions logged, in order *)
  rs_events : list string;
  (** the locations [Populate] writes through *)
  rs_host : gmap nat Value;
  (** observation only: the actions the runner has invoked, in order *)
  rs_trace : list runAction;
}.

Definition set_rs_pending (p : list executionNode) (rs : runState) :=
  {| rs_pending := p; rs_store := rs_store rs; rs_events := rs_events rs;
     rs_host := rs_host rs; rs_trace := rs_trace rs |}.
Definition set_rs_store (st : list executionParam) (rs : runState) :=
  {| rs_pending := rs_pending rs; rs_store := st; rs_events := rs_events rs;
     rs_host := rs_host rs; rs_trace := rs_trace rs |}.
Definition log_events (evs : list string) (rs : runState) :=
  {| rs_pending := rs_pending rs; rs_store := rs_store rs;
     rs_events := rs_events rs ++ evs; rs_host := rs_host rs;
     rs_trace := rs_trace rs |}.
Definition set_rs_host (h : gmap nat Value) (rs : runState) :=
  {| rs_pending := rs_pending rs; rs_store := rs_store rs;
     rs_events := rs_events rs; rs_host := h; rs_trace := rs_trace rs |}.
Definition log_trace (a : runAction) (rs : runState) :=
  {| rs_pending := rs_pending rs; rs_store := rs_store rs;
     rs_events := rs_events rs; rs_host := rs_host rs;
     rs_trace := rs_trace rs ++ [a] |}.

(** Dereferencing a buffer pointer; the nil pointer has no buffer. *)
Definition loadBuf (st : list executionParam) (p : ptr) : option (list Value) :=
  match p with
  | 0 => None
  | S i => params <$> st !! i
  end.

Definition storeBuf (st : list executionParam) (p : ptr) (vs : list Value)
    : list executionParam :=
  match p with
  | 0 => st
  | S i => <[i := ExecutionParam vs]> st
  end.

(** [executionCollect.collect]: [c.result.params[c.index]]. *)
Definition collect (st : list executionParam) (c : executionCollect) : option Value :=
  buf ← loadBuf st (ec_result c); buf !! ec_index c.

(** [collectParamNode.execute], from position [i] on; [None] is a panic. *)
Fixpoint collectParamNode_execute (items : list executionCollect) (res : ptr)
    (i : nat) (st : list executionParam) : option (list executionParam) :=
  match items with
  | [] => Some st
  | item :: rest =>
      v ← collect st item;
      buf ← loadBuf st res;
      if decide (i < length buf)
      then collectParamNode_execute rest res (S i) (storeBuf st res (<[i := v]> buf))
      else None
  end.

(** [collectGroupNode.execute]:
    [c.result.params[0] = reflect.AppendSlice(c.result.params[0], item.collect())]. *)
Fixpoint collectGroupNode_execute (items : list executionCollect) (res : ptr)
    (st : list executionParam) : option (list executionParam) :=
  match items with
  | [] => Some st
  | item :: rest =>
      v ← collect st item;
      buf ← loadBuf st res;
      acc ← buf !! 0;
      new ← AppendSlice acc v;
      collectGroupNode_execute rest res (storeBuf st res (<[0 := new]> buf))
  end.

(** [node.execute()] for the two plumbing nodes. *)
Definition execute (node : executionNode) (st : list executionParam)
    : option (list executionParam) :=
  match node with
  | collectParamNode items res => collectParamNode_execute items res 0 st
  | collectGroupNode items res => collectGroupNode_execute items res st
  | graphUserNode _ _ _ => None
  end.

(** [copy(out, output)] into the buffer [out] points to. *)
Definition copyOut (out : ptr) (output : list Value) (rs : runState) : runState :=
  match loadBuf (rs_store rs) out with
  | Some buf => set_rs_store (storeBuf (rs_store rs) out (copy buf output)) rs
  | None => rs
  end.

Definition errOutcome (err : option error) : outcome unit :=
  match err with
  | None => Ok ()
  | Some e => Fail e
  end.

Section actions.
(** [rs.run], as the continuation closure of [Stack] calls it. *)
Variable rsrun : runState -> outcome unit * runState.

(** The closure [Stack] builds, run on the host function's behaviour:
    the continuation is [copy(out, output); return rs.run()]. *)
Fixpoint runStack (out : ptr) (prog : stackProg) (rs : runState)
    : outcome unit * runState :=
  match prog with
  | SReturn err => (errOutcome err, rs)
  | SEvent ev k => runStack out k (log_events [ev] rs)
  | SCont output k =>
      match rsrun (copyOut out output rs) with
      | (Ok _, rs') => runStack out (k None) rs'
      | (Fail e, rs') => runStack out (k (Some e)) rs'
      | (Panic msg, rs') => (Panic msg, rs')
      | (OutOfFuel, rs') => (OutOfFuel, rs')
      end
  end.

(** The loop of the closure [Populate] builds. *)
Fixpoint populate (ptrs : list nat) (i : nat) (inp : list Value)
    (h : gmap nat Value) : option (gmap nat Value) :=
  match inp with
  | [] => Some h
  | v :: rest =>
      p ← ptrs !! i;
      populate ptrs (S i) rest (<[p := v]> h)
  end.

(** [action.exec(rs, in, out)] for each of the five closures. *)
Definition runExec (e : execFn) (inp : list Value) (out : ptr) (rs : runState)
    : outcome unit * runState :=
  match e with
  | provideExec f =>
      let '(evs, (output, err)) := f inp in
      match err with
      | Some e => (Fail e, log_events evs rs)
      | None => (Ok (), copyOut out output (log_events evs rs))
      end
  | supplyExec values => (Ok (), copyOut out values rs)
  | stackExec f => runStack out (f inp) rs
  | invokeExec f =>
      let '(evs, err) := f inp in
      (errOutcome err, log_events evs rs)
  | populateExec ptrs =>
      match populate ptrs 0 inp (rs_host rs) with
      | Some h => (Ok (), set_rs_host h rs)
      | None => (Panic "index out of range", rs)
      end
  end.
End actions.

(** [runState.run]: one unit of fuel per step taken from the queue. *)
Fixpoint run (fuel : nat) (rs : runState) : outcome unit * runState :=
  match rs_pending rs with
  | [] => (Ok (), rs)
  | node :: rest =>
      match fuel with
      | 0 => (OutOfFuel, rs)
      | S fuel' =>
          let rs1 := set_rs_pending rest rs in
          match node with
          | graphUserNode uparams uresult action =>
              match loadBuf (rs_store rs1) uparams, loadBuf (rs_store rs1) uresult with
              | Some inp, Some _ =>
                  match runExec (run fuel') (exec action) inp uresult
                          (log_trace action rs1) with
                  | (Ok _, rs2) => run fuel' rs2
                  | (Fail err, rs2) =>
                      (Fail (ErrExecute (default "" (ra_format action)) err), rs2)
                  | other => other
                  end
              | _, _ => (Panic "nil pointer dereference", rs1)
              end
          | _ =>
              match execute node (rs_store rs1) with
              | Some st => run fuel' (set_rs_store st rs1)
              | None => (Panic "plumbing", rs1)
              end
          end
      end
  end.

(** ** Options and [Run] *)

(** The Go struct [option]. *)
Record options := Options {
  opt_g : graph;
  consumers : list graphNode;
}.

(** An [Option] is one of the closures the constructors return. *)
#[warnings="-register-all"]
Inductive Option :=
| ModuleOpt (opts : list Option)
| Provide (f : list Value -> list string * (list Value * option error))
    (inp out : list Spec) (fmt : option string)
| Supply (values : list Value) (out : list Spec) (fmt : option string)
| Stack (f : list Value -> stackProg) (inp out : list Spec) (fmt : option string)
| Invoke (f : list Value -> list string * option error)
    (inp : list Spec) (fmt : option string)
| Populate (ptrs : list nat) (inp : list Spec) (fmt : option string).

Definition insertOpt (node : graphNode) (o : options) : options :=
  {| opt_g := graph_insert (opt_g o) node; consumers := consumers o |}.
Definition consumeOpt (node : graphNode) (o : options) : options :=
  {| opt_g := opt_g o; consumers := consumers o ++ [node] |}.

Fixpoint applyOption (opt : Option) (o : options) : options :=
  match opt with
  | ModuleOpt opts =>
      (fix each (opts : list Option) (o : options) : options :=
         match opts with
         | [] => o
         | opt :: rest => each rest (applyOption opt o)
         end) opts o
  | Provide f inp out fmt =>
      insertOpt {| input := inp; output := out;
                   value := {| exec := provideExec f; ra_format := fmt |};
                   format := fmt |} o
  | Supply values out fmt =>
      insertOpt {| input := []; output := out;
                   value := {| exec := supplyExec values; ra_format := fmt |};
                   format := fmt |} o
  | Stack f inp out fmt =>
      insertOpt {| input := inp; output := out;
                   value := {| exec := stackExec f; ra_format := fmt |};
                   format := fmt |} o
  | Invoke f inp fmt =>
      consumeOpt {| input := inp; output := [];
                    value := {| exec := invokeExec f; ra_format := fmt |};
                    format := fmt |} o
  | Populate ptrs inp fmt =>
      consumeOpt {| input := inp; output := [];
                    value := {| exec := populateExec ptrs; ra_format := fmt |};
                    format := fmt |} o
  end.

Definition buildOptions (opts : list Option) : options :=
  applyOption (ModuleOpt opts) {| opt_g := newGraph; consumers := [] |}.

(** [Run]: plan, then drain the plan. The runner gets one unit of fuel
    per planned step. *)
Definition Run (fuel : nat) (opts : list Option) : outcome unit * runState :=
  let o := buildOptions opts in
  let idle st := {| rs_pending := []; rs_store := st; rs_events := [];
                    rs_host := ∅; rs_trace := [] |} in
  match toposort fuel (opt_g o) (consumers o) with
  | Ok (plan, st) => run (length plan) (set_rs_pending plan (idle st))
  | Fail e => (Fail e, idle [])
  | Panic msg => (Panic msg, idle [])
  | OutOfFuel => (OutOfFuel, idle [])
  end.

(** * Vocabulary of the properties *)

Definition isOk {A} (r : outcome A) : Prop :=
  match r with
  | Ok _ => True
  | _ => False
  end.

(** ** The planner only ever extends its state

    Whatever the outcome, a planner call keeps every recorded output
    buffer, group buffer and decorated collect, only appends to the plan
    and to the store, and leaves no additional node marked pending. *)

Record ext (tp tp' : graphToposort) : Prop := Ext {
  ext_outputs : outputs tp ⊆ outputs tp';
  ext_grouped : grouped tp ⊆ grouped tp';
  ext_decorated : decorated tp ⊆ decorated tp';
  ext_pending : pending tp' ⊆ pending tp;
  ext_result : result tp `prefix_of` result tp';
  ext_store : store tp `prefix_of` store tp';
  ext_fresh : ∀ id p, outputs tp' !! id = Some p ->
    outputs tp !! id = Some p
    ∨ (length (store tp) < p ∧ p ≤ length (store tp'))%nat;
}.

(** Every recorded output buffer has been allocated. *)
Definition bounded (tp : graphToposort) : Prop :=
  ∀ id p, outputs tp !! id = Some p -> (p ≤ length (store tp))%nat.

Definition frames {A} (m : planM A) : Prop := ∀ tp, ext tp (m tp).2.

(** ** What [graph.insert] records

    The slots a node adds to the bucket of [key]: one per output spec
    with that key and that decorate flag, in output order. *)

Fixpoint outputSlots (dec : bool) (key : graphNodeKey) (id i : nat)
    (out : list Spec) : list graphNodeOutputSlot :=
  match out with
  | [] => []
  | spec :: rest =>
      (if decide (extractGraphKey spec = key ∧ Decorate spec = dec)
       then [{| slot_id := id; slot_index := i |}] else [])
      ++ outputSlots dec key id (S i) rest
  end.

(** ** Group aggregation

    The collect-group step as the specification words it: every source
    slot is appended to the aggregation buffer as one element. *)
Fixpoint collectGroupNode_execute_elementwise (items : list executionCollect)
    (res : ptr) (st : list executionParam) : option (list executionParam) :=
  match items with
  | [] => Some st
  | item :: rest =>
      v ← collect st item;
      buf ← loadBuf st res;
      acc ← buf !! 0;
      new ← Append acc v;
      collectGroupNode_execute_elementwise rest res
        (storeBuf st res (<[0 := new]> buf))
  end.

(** The graph obtained by inserting [ns] in order into a new graph. *)
Definition buildGraph (ns : list graphNode) : graph := foldl graph_insert newGraph ns.

(** The provider slots of [key] in insertion order of their nodes. *)
Definition providersInOrder (key : graphNodeKey) (ns : list graphNode)
    : list graphNodeOutputSlot :=
  concat (imap (λ id n, outputSlots false key id 0 (output n)) ns).

(** Insertion order of output slots: by node, then by output position. *)
Definition insertedBefore (a b : graphNodeOutputSlot) : Prop :=
  (slot_id a < slot_id b
   ∨ (slot_id a = slot_id b ∧ slot_index a < slot_index b))%nat.

(** ** Error labels *)

(** An error built by [fmt.Errorf]: no wrapper, no node field. *)
Definition plain (e : error) : Prop := ∃ msg, e = errorString msg.

Definition failsPlain {A} (m : planM A) : Prop :=
  ∀ tp e tp', m tp = (Fail e, tp') -> plain e.

(** The consumer of a port nobody provides, and a provider that fails
    and has no formatter. *)
Definition orphanKey : graphNodeKey := GraphNodeKey "*T" "" false.
Definition orphanRun : list Option :=
  [Invoke (λ _, ([], None)) [MkSpec "*T" "" false false] (Some "Invoke(main)")].
Definition anonymousFailRun : list Option :=
  [Provide (λ _, ([], ([], Some (errorString "boom")))) []
     [MkSpec "*T" "" false false] None;
   Invoke (λ _, ([], None)) [MkSpec "*T" "" false false] (Some "Invoke(main)")].

(** ** A dependency cycle through group ports

    Node 0 turns the group [[]I] into a contribution to the group [[]J],
    node 1 turns [[]J] into a contribution to [[]I]; the root consumes
    [[]I]. *)
Definition groupI : Spec := MkSpec "[]I" "" true false.
Definition groupJ : Spec := MkSpec "[]J" "" true false.
Definition idle : runAction :=
  {| ra_format := None; exec := supplyExec [] |}.
Definition groupCycle : graph :=
  buildGraph [ {| input := [groupI]; output := [groupJ]; value := idle; format := None |};
               {| input := [groupJ]; output := [groupI]; value := idle; format := None |} ].
Definition groupCycleRoot : graphNode :=
  {| input := [groupI]; output := []; value := idle; format := None |}.

(** Neither group nor either node has been scheduled. *)
Definition groupCycleOpen (tp : graphToposort) : Prop :=
  grouped tp !! extractGraphKey groupI = None
  ∧ grouped tp !! extractGraphKey groupJ = None
  ∧ outputs tp !! 0 = None ∧ outputs tp !! 1 = None.

(** ** Scenario 2: two providers of one group, one consumer *)
Definition supplyI (x : string) : graphNode :=
  {| input := []; output := [groupI];
     value := {| ra_format := None; exec := supplyExec [VSlice [VAtom x]] |};
     format := None |}.
Definition twoProviders : list graphNode := [supplyI "I1"; supplyI "I2"].

(** A singleton port provided twice. *)
Definition supplyT (x : string) : graphNode :=
  {| input := []; output := [MkSpec "*T" "" false false];
     value := {| ra_format := None; exec := supplyExec [VAtom x] |};
     format := None |}.
Definition orphanRoot : graphNode :=
  {| input := [MkSpec "*T" "" false false]; output := []; value := idle;
     format := Some "Invoke(main)" |}.

(** ** The runner's observable behaviour *)

(** The actions of the user-action steps of a plan, in plan order. *)
Definition userActions (plan : list executionNode) : list runAction :=
  omap (λ n, match n with
             | graphUserNode _ _ a => Some a
             | _ => None
             end) plan.

(** A stack function that logs [enter], calls the continuation, logs
    [exit] (its teardown) and returns what the continuation returned. *)
Definition bracket (enter exit : string) (output : list Value) : stackProg :=
  SEvent enter (SCont output (λ r, SEvent exit (SReturn r))).

(** What a step logs, when that does not depend on its inputs. *)
Inductive shape :=
| Bracket (enter exit : string)
| Plain (evs : list string)
| Plumb.

Definition execShape (e : execFn) (s : shape) : Prop :=
  match e, s with
  | stackExec f, Bracket enter exit =>
      ∀ inp, ∃ output, f inp = bracket enter exit output
  | provideExec f, Plain evs => ∀ inp, (f inp).1 = evs
  | invokeExec f, Plain evs => ∀ inp, (f inp).1 = evs
  | supplyExec _, Plain evs => evs = []
  | populateExec _, Plain evs => evs = []
  | _, _ => False
  end.

Definition stepShape (n : executionNode) (s : shape) : Prop :=
  match n with
  | graphUserNode _ _ a => execShape (exec a) s
  | _ => s = Plumb
  end.

(** The log of a successful run: a bracket encloses everything planned
    after it. *)
Fixpoint expectedEvents (shapes : list shape) : list string :=
  match shapes with
  | [] => []
  | Bracket enter exit :: rest => enter :: expectedEvents rest ++ [exit]
  | Plain evs :: rest => evs ++ expectedEvents rest
  | Plumb :: rest => expectedEvents rest
  end.

(** Outcomes that return control to the caller (no panic, fuel left). *)
Definition returns {A} (r : outcome A) : Prop :=
  match r with
  | Ok _ | Fail _ => True
  | _ => False
  end.

(** ** Failure propagation

    The planner as the propagation policy words it: a failure of the
    base collect aborts the final collect, and with it the planning of
    the node, like every other failure. *)
Section strict.
Variable nodeID : nat -> planM ptr.
Variable g : graph.

Definition toposortGenerateCollect_strict (spec : Spec) : planM executionCollect :=
  let* baseCollect := toposortGenerateBaseCollect nodeID g (extractGraphKey spec) in
  collectAfterBase nodeID g spec baseCollect.

Definition toposortGenerateGraphNode_strict (current : graphNode) : planM ptr :=
  let* collectResult := alloc (replicate (length (input current)) VInvalid) in
  let* _ := forEach (input current) (baseStep nodeID g) in
  let* items := collectEach (input current) toposortGenerateCollect_strict in
  let* _ := emit (collectParamNode items collectResult) in
  let* userResult := alloc (replicate (length (output current)) VInvalid) in
  let* _ := emit (graphUserNode collectResult userResult (value current)) in
  ret userResult.
End strict.

Fixpoint toposortGenerateGraphNodeID_strict (fuel : nat) (g : graph) (id : nat)
    : planM ptr :=
  match fuel with
  | 0 => fun tp => (OutOfFuel, tp)
  | S fuel' => fun tp =>
      match outputs tp !! id with
      | Some params => (Ok params, tp)
      | None =>
          let tp1 := set_pending (union {[id]}) tp in
          match nodes g !! id with
          | None => (Panic "index out of range", set_pending (fun p => p ∖ {[id]}) tp1)
          | Some current =>
              match toposortGenerateGraphNode_strict
                      (toposortGenerateGraphNodeID_strict fuel' g) g current tp1 with
              | (Ok params, tp2) =>
                  (Ok params,
                   set_pending (fun p => p ∖ {[id]})
                     (set_outputs <[id := params]> tp2))
              | (r, tp2) => (r, set_pending (fun p => p ∖ {[id]}) tp2)
              end
          end
      end
  end.

Definition rootStep_strict (fuel : nat) (g : graph) (invoke : graphNode)
    : planM unit :=
  let* _ := toposortGenerateGraphNode_strict
              (toposortGenerateGraphNodeID_strict fuel g) g invoke in
  ret ().

Definition toposort_strict (fuel : nat) (g : graph) (invokes : list graphNode)
    : outcome (list executionNode * list executionParam) :=
  match forEach invokes (rootStep_strict fuel g) newGraphToposort with
  | (Ok _, tp) => Ok (result tp, store tp)
  | (Fail e, _) => Fail e
  | (Panic msg, _) => Panic msg
  | (OutOfFuel, _) => OutOfFuel
  end.

(** The base collect of [key] has succeeded before: its group buffer is
    recorded, or its one provider is scheduled and not pending. *)
Definition resolvedKey (g : graph) (tp : graphToposort) (key : graphNodeKey) : Prop :=
  if group key then is_Some (grouped tp !! key)
  else ∃ slot, slotsOf (provide g) key = [slot]
               ∧ (slot_id slot ∉ pending tp)
               ∧ is_Some (outputs tp !! slot_id slot).

(** The state of a runner that has not started. *)
Definition idleState : runState :=
  {| rs_pending := []; rs_store := []; rs_events := []; rs_host := ∅;
     rs_trace := [] |}.

(** ** Dependencies between nodes *)

Section dependencies.
Variable g : graph.

(** The nodes the planner schedules on behalf of [n]: the providers of
    each input key and, for an input that is not a decorator's own, the
    decorators of its key. *)
Definition dependsOn (n : graphNode) (id : nat) : Prop :=
  ∃ spec slot, spec ∈ input n ∧ slot_id slot = id
    ∧ (slot ∈ slotsOf (provide g) (extractGraphKey spec)
       ∨ (Decorate spec = false
          ∧ slot ∈ slotsOf (decorate g) (extractGraphKey spec))).

Inductive reaches : graphNode -> nat -> Prop :=
| reaches_dep n id : dependsOn n id -> reaches n id
| reaches_via n id1 n1 id :
    dependsOn n id1 -> nodes g !! id1 = Some n1 -> reaches n1 id -> reaches n id.

Definition reachFrom (id id' : nat) : Prop :=
  id' = id ∨ ∃ n, nodes g !! id = Some n ∧ reaches n id'.

(** A set of nodes each of which depends on a node of the set: a cycle,
    or anything that leads into one. *)
Definition closedSet (X : nat -> Prop) : Prop :=
  ∀ id, X id -> ∃ n id', nodes g !! id = Some n ∧ dependsOn n id' ∧ X id'.

Definition stuck (id : nat) : Prop := ∃ X, closedSet X ∧ X id.

(** Nothing that needs a stuck node has been recorded as done. *)
Record untouched (tp : graphToposort) : Prop := Untouched {
  unt_outputs : ∀ id, stuck id -> outputs tp !! id = None;
  unt_grouped : ∀ key slot,
    slot ∈ slotsOf (provide g) key -> stuck (slot_id slot) ->
    grouped tp !! key = None;
  unt_decorated : ∀ key slot,
    slot ∈ slotsOf (decorate g) key -> stuck (slot_id slot) ->
    decorated tp !! key = None;
}.

(** Whatever is recorded as done has all it depends on scheduled. *)
Record complete (tp : graphToposort) : Prop := Complete {
  cmp_grouped : ∀ key b slot,
    grouped tp !! key = Some b -> slot ∈ slotsOf (provide g) key ->
    is_Some (outputs tp !! slot_id slot);
  cmp_decorated : ∀ key c slot,
    decorated tp !! key = Some c -> slot ∈ slotsOf (decorate g) key ->
    is_Some (outputs tp !! slot_id slot);
  cmp_outputs : ∀ id n id',
    is_Some (outputs tp !! id) -> nodes g !! id = Some n -> dependsOn n id' ->
    is_Some (outputs tp !! id');
  cmp_valid : ∀ id, is_Some (outputs tp !! id) -> is_Some (nodes g !! id);
}.

Definition nodeValue (id : nat) : option runAction := value <$> nodes g !! id.

(** Between [tp] and [tp'] exactly the nodes [new] were scheduled, each
    once, in this order, and each added its user-action step. *)
Record scheduled (tp tp' : graphToposort) (new : list nat) : Prop := Scheduled {
  sch_actions : userActions (result tp')
                = userActions (result tp) ++ omap nodeValue new;
  sch_nodup : NoDup new;
  sch_fresh : ∀ id, id ∈ new -> outputs tp !! id = None;
  sch_outputs : ∀ id, is_Some (outputs tp' !! id)
                      ↔ is_Some (outputs tp !! id) ∨ id ∈ new;
}.

(** A planner step that started in [tp] and ended in [tp']: the
    invariants still hold and only nodes reachable from the targets [T]
    were scheduled. *)
Definition visits (tp tp' : graphToposort) (T : nat -> Prop) : Prop :=
  untouched tp' ∧ complete tp'
  ∧ ∃ new, scheduled tp tp' new
           ∧ ∀ id', id' ∈ new -> ∃ t, T t ∧ reachFrom t id'.

(** Every target is scheduled and none is stuck. *)
Definition settled (tp : graphToposort) (T : nat -> Prop) : Prop :=
  ∀ t, T t -> ¬ stuck t ∧ is_Some (outputs tp !! t).

Definition slotTargets (slots : list graphNodeOutputSlot) (t : nat) : Prop :=
  ∃ slot, slot ∈ slots ∧ slot_id slot = t.

(** The decorators the final collect of [spec] goes through. *)
Definition decoratorsOf (spec : Spec) : list graphNodeOutputSlot :=
  if Decorate spec then [] else slotsOf (decorate g) (extractGraphKey spec).
End dependencies.

(** The nodes the planner schedules for one input spec. *)
Definition specTargets (g : graph) (spec : Spec) (t : nat) : Prop :=
  slotTargets (slotsOf (provide g) (extractGraphKey spec)) t
  ∨ slotTargets (decoratorsOf g spec) t.

(** The user actions of a plan that schedules the nodes [scheds] for the
    consumer roots [roots]: for each root in turn, the actions of the
    nodes newly scheduled for it, then the root's own. *)
Definition planActions (g : graph) (scheds : list (list nat))
    (roots : list graphNode) : list runAction :=
  concat (zip_with (λ new root, omap (nodeValue g) new ++ [value root]) scheds roots).

(** A runner about to start on a plan. *)
Definition startState (plan : list executionNode) (st : list executionParam)
    : runState :=
  {| rs_pending := plan; rs_store := st; rs_events := []; rs_host := ∅;
     rs_trace := [] |}.

(** ** Cycles through singleton dependencies *)

(** Each node of [ids] has a singleton input whose one provider is the
    next node of [ids], cyclically. *)
Definition singletonCycle (g : graph) (ids : list nat) : Prop :=
  ids ≠ []
  ∧ ∀ i a, ids !! i = Some a ->
      ∃ n spec slot, nodes g !! a = Some n ∧ spec ∈ input n
        ∧ Group spec = false
        ∧ slotsOf (provide g) (extractGraphKey spec) = [slot]
        ∧ ids !! (S i mod length ids) = Some (slot_id slot).

(** From the first input of [n], through the first input of each node of
    [path] in turn, the one provider of the singleton key is the next
    node; the last provider is [target], asked for under the key [k]. *)
Fixpoint firstInputChain (g : graph) (n : graphNode) (path : list nat)
    (target : nat) (k : graphNodeKey) : Prop :=
  ∃ spec rest slot,
    input n = spec :: rest ∧ Group spec = false
    ∧ slotsOf (provide g) (extractGraphKey spec) = [slot]
    ∧ match path with
      | [] => slot_id slot = target ∧ extractGraphKey spec = k
      | a :: path' =>
          slot_id slot = a
          ∧ ∃ n', nodes g !! a = Some n' ∧ firstInputChain g n' path' target k
      end.

(** The message of a cyclic-dependency error. *)
Definition isCyclicError (e : error) : bool :=
  match e with
  | errorString msg =>
      match String.index 0 "cyclic dependency" msg with
      | Some _ => true
      | None => false
      end
  | _ => false
  end.

(** Scenario 4, [P1(B) -> A] and [P2(A) -> B], and a consumer that asks
    for a port nobody provides before it asks for [A]. *)
Definition portA : Spec := MkSpec "*A" "" false false.
Definition portB : Spec := MkSpec "*B" "" false false.
Definition portC : Spec := MkSpec "*C" "" false false.
Definition twoCycle : graph :=
  buildGraph [ {| input := [portB]; output := [portA]; value := idle; format := None |};
               {| input := [portA]; output := [portB]; value := idle; format := None |} ].
Definition cycleRoot : graphNode :=
  {| input := [portA]; output := []; value := idle; format := None |}.
Definition orphanThenCycleRoot : graphNode :=
  {| input := [portC; portA]; output := []; value := idle; format := None |}.

(** ** Scenario 3: the integration test of the repository

    Node 0 [provideObjectA], node 1 [stackObjectB], node 2
    [redundantObjectC], node 3 [decorateObjectD], node 4 the supplied
    events log and integer; one consumer of the group [[]I]. *)
Definition events : Spec := MkSpec "*[]string" "" false false.
Definition ptrB (dec : bool) : Spec := MkSpec "*B" "" false dec.
Definition ptrD : Spec := MkSpec "*D" "" false false.
Definition intT : Spec := MkSpec "int" "" false false.

Definition invokeEach (vs : list Value) : list string * option error :=
  (match vs with
   | VSlice l :: _ =>
       flat_map (λ v, match v with
                      | VAtom a => ["invoke " +:+ a]
                      | _ => []
                      end) l
   | _ => []
   end, None).

Definition scenario3 : list Option :=
  [ Provide (λ _, (["provide a"], ([VSlice [VAtom "a"]], None)))
      [events; ptrD] [groupI] (Some "Provide(provideObjectA)");
    Stack (λ _, bracket "stack b" "defer b" [VAtom "b"; VSlice [VAtom "b"]])
      [events] [ptrB false; groupI] (Some "Stack(stackObjectB)");
    Provide (λ _, (["provide c"], ([VAtom "c"], None)))
      [events] [portC] (Some "Provide(redundantObjectC)");
    Provide (λ vs, (["provide d"],
                    ([default VInvalid (vs !! 1); VAtom "d"; VSlice [VAtom "d"]],
                     None)))
      [events; ptrB true; intT] [ptrB true; ptrD; groupI]
      (Some "Provide(decorateObjectD)");
    ModuleOpt
      [ Supply [VAtom "events"; VAtom "123456"] [events; intT] (Some "Supply");
        Invoke invokeEach [groupI; events] (Some "Invoke") ] ].

(** Two nested stacks and a consumer. *)
Definition nestedStacks : list Option :=
  [ Stack (λ _, bracket "enter a" "exit a" [VAtom "a"]) [] [portA] (Some "Stack(a)");
    Stack (λ _, bracket "enter b" "exit b" [VAtom "b"]) [portA] [portB]
      (Some "Stack(b)");
    Invoke (λ _, (["main"], None)) [portB] (Some "Invoke(main)") ].

Definition nestedPlan : list executionNode * list executionParam :=
  match toposort 9 (opt_g (buildOptions nestedStacks))
          (consumers (buildOptions nestedStacks)) with
  | Ok ps => ps
  | _ => ([], [])
  end.

(** ** Decorator chains *)

(** The base collect of a key that has been resolved before: the group
    buffer, or the output slot of the one provider. *)
Definition baseOf (g : graph) (tp : graphToposort) (key : graphNodeKey)
    : option executionCollect :=
  if group key then
    b ← grouped tp !! key; Some {| ec_result := b; ec_index := 0 |}
  else
    match slotsOf (provide g) key with
    | [slot] =>
        if decide (slot_id slot ∈ pending tp) then None
        else b ← outputs tp !! slot_id slot;
             Some {| ec_result := b; ec_index := slot_index slot |}
    | _ => None
    end.

(** An input of a decorator of [K] that needs no scheduling: the
    decorated port itself, or an undecorated port resolved before. *)
Definition quietInput (g : graph) (tp : graphToposort) (K : graphNodeKey)
    (spec : Spec) : Prop :=
  if Decorate spec then extractGraphKey spec = K
  else slotsOf (decorate g) (extractGraphKey spec) = []
       ∧ is_Some (baseOf g tp (extractGraphKey spec)).

(** Where an input of a decorator is wired: the decorated port to the
    current end [cur] of the chain, any other port to its base collect. *)
Definition wire (g : graph) (tp : graphToposort) (cur : executionCollect)
    (spec : Spec) : executionCollect :=
  if Decorate spec then cur
  else default nilCollect (baseOf g tp (extractGraphKey spec)).

(** The steps planned for the decorators [slots] in turn, starting with
    buffer number [next + 1], and the end of the chain: every decorator
    reads the end of the chain so far and its output slot becomes the
    new end. *)
Fixpoint decoratorChain (g : graph) (tp : graphToposort) (cur : executionCollect)
    (next : nat) (slots : list graphNodeOutputSlot)
    : list executionNode * executionCollect :=
  match slots with
  | [] => ([], cur)
  | slot :: rest =>
      match nodes g !! slot_id slot with
      | None => ([], cur)
      | Some n =>
          let cp := S next in
          let ur := S (S next) in
          let '(steps, last) :=
            decoratorChain g tp {| ec_result := ur; ec_index := slot_index slot |}
              (S (S next)) rest in
          (collectParamNode (map (wire g tp cur) (input n)) cp
             :: graphUserNode cp ur (value n) :: steps, last)
      end
  end.

(** The state after a decorator [n] with id [id] was scheduled from [s]
    with its inputs wired to [items]. *)
Definition scheduledState (s : graphToposort) (id : nat) (n : graphNode)
    (items : list executionCollect) : graphToposort :=
  {| outputs := <[id := S (S (length (store s)))]> (outputs s);
     grouped := grouped s; decorated := decorated s; decorating := decorating s;
     pending := ({[id]} ∪ pending s) ∖ {[id]};
     result := result s
               ++ [collectParamNode items (S (length (store s)));
                   graphUserNode (S (length (store s))) (S (S (length (store s))))
                     (value n)];
     store := store s
              ++ [ExecutionParam (replicate (length (input n)) VInvalid);
                  ExecutionParam (replicate (length (output n)) VInvalid)] |}.

(** A provider of [*X], a decorator of [*X], and a second decorator of
    [*X] that also provides [*Y]; the consumer asks for [*Y], then
    [*X]. *)
Definition portX (dec : bool) : Spec := MkSpec "*X" "" false dec.
Definition portY : Spec := MkSpec "*Y" "" false false.
Definition wrapWith (tag : string) (vs : list Value) : Value :=
  match vs with
  | VAtom s :: _ => VAtom (tag +:+ "(" +:+ s +:+ ")")
  | _ => VInvalid
  end.
Definition showX (vs : list Value) : list string * option error :=
  (match vs with
   | [_; VAtom x] => ["x = " +:+ x]
   | _ => []
   end, None).
Definition earlyDecorator : list Option :=
  [ Supply [VAtom "p"] [portX false] (Some "P");
    Provide (λ vs, ([], ([wrapWith "d1" vs], None))) [portX true] [portX true]
      (Some "D1");
    Provide (λ vs, ([], ([wrapWith "d2" vs; VAtom "y"], None))) [portX true]
      [portX true; portY] (Some "D2");
    Invoke showX [portY; portX false] (Some "Invoke(main)") ].

(** The same with the consumer asking for [*X] only. *)
Definition plainDecorators : list Option :=
  [ Supply [VAtom "p"] [portX false] (Some "P");
    Provide (λ vs, ([], ([wrapWith "d1" vs], None))) [portX true] [portX true]
      (Some "D1");
    Provide (λ vs, ([], ([wrapWith "d2" vs; VAtom "y"], None))) [portX true]
      [portX true; portY] (Some "D2");
    Invoke (λ vs, (match vs with
                   | [VAtom x] => ["x = " +:+ x]
                   | _ => []
                   end, None)) [portX false] (Some "Invoke(main)") ].

(** The sources of the collect-param step that feeds the action named
    [label], if the plan has one. *)
Fixpoint sourcesOf (label : string) (plan : list executionNode)
    : option (list executionCollect) :=
  match plan with
  | collectParamNode items res :: (graphUserNode p _ a :: _) as rest =>
      if decide (ra_format a = Some label) then Some items
      else sourcesOf label rest
  | _ :: rest => sourcesOf label rest
  | [] => None
  end.

(** The output buffer of the action named [label]. *)
Fixpoint outputOf (label : string) (plan : list executionNode) : option ptr :=
  match plan with
  | graphUserNode _ r a :: rest =>
      if decide (ra_format a = Some label) then Some r else outputOf label rest
  | _ :: rest => outputOf label rest
  | [] => None
  end.

(** A decorator that was not scheduled yet and whose inputs are quiet. *)
Definition freshDecorator (g : graph) (tp : graphToposort) (K : graphNodeKey)
    (slot : graphNodeOutputSlot) : Prop :=
  outputs tp !! slot_id slot = None
  ∧ ∃ n, nodes g !! slot_id slot = Some n ∧ Forall (quietInput g tp K) (input n).

(** The end of the chain after the first [i] decorators of [slots]: the
    base collect, then the output slot of decorator [i - 1]. *)
Definition chainEnd (base : executionCollect) (next : nat)
    (slots : list graphNodeOutputSlot) (i : nat) : executionCollect :=
  match i with
  | 0 => base
  | S j =>
      match slots !! j with
      | Some slot => {| ec_result := S (S (next + 2 * j));
                        ec_index := slot_index slot |}
      | None => nilCollect
      end
  end.

(** The planner state of [plainDecorators] when the second loop over the
    inputs of the consumer starts. *)
Definition plainDecoratorsPass1 : graphToposort :=
  (forEach [portX false]
     (baseStep (toposortGenerateGraphNodeID 9 (opt_g (buildOptions plainDecorators)))
        (opt_g (buildOptions plainDecorators)))
     (push_store (ExecutionParam [VInvalid]) newGraphToposort)).2.

(** ** The buckets of a built graph *)

(** [slot] names an output of a node of [ns] whose port has the key
    [key] and the decorate flag [dec]. *)
Definition slotOf (ns : list graphNode) (dec : bool) (key : graphNodeKey)
    (slot : graphNodeOutputSlot) : Prop :=
  ∃ n spec,
    ns !! slot_id slot = Some n
    ∧ output n !! slot_index slot = Some spec
    ∧ extractGraphKey spec = key
    ∧ Decorate spec = dec.

(** The decorator slots of [key] in insertion order of their nodes. *)
Definition decoratorsInOrder (key : graphNodeKey) (ns : list graphNode)
    : list graphNodeOutputSlot :=
  concat (imap (λ id n, outputSlots true key id 0 (output n)) ns).

(** ** Options as two lists *)

(** The options of a module, modules within modules unfolded, in the
    order [Module] applies them. *)
Fixpoint flattenOption (opt : Option) : list Option :=
  match opt with
  | ModuleOpt opts =>
      (fix each (opts : list Option) : list Option :=
         match opts with
         | [] => []
         | opt :: rest => flattenOption opt ++ each rest
         end) opts
  | _ => [opt]
  end.

(** The graph node a providing option inserts. *)
Definition providerNode (opt : Option) : option graphNode :=
  match opt with
  | Provide f inp out fmt =>
      Some {| input := inp; output := out;
              value := {| exec := provideExec f; ra_format := fmt |};
              format := fmt |}
  | Supply values out fmt =>
      Some {| input := []; output := out;
              value := {| exec := supplyExec values; ra_format := fmt |};
              format := fmt |}
  | Stack f inp out fmt =>
      Some {| input := inp; output := out;
              value := {| exec := stackExec f; ra_format := fmt |};
              format := fmt |}
  | _ => None
  end.

(** The consumer root a consuming option appends. *)
Definition consumerNode (opt : Option) : option graphNode :=
  match opt with
  | Invoke f inp fmt =>
      Some {| input := inp; output := [];
              value := {| exec := invokeExec f; ra_format := fmt |};
              format := fmt |}
  | Populate ptrs inp fmt =>
      Some {| input := inp; output := [];
              value := {| exec := populateExec ptrs; ra_format := fmt |};
              format := fmt |}
  | _ => None
  end.

Definition providerNodes (opts : list Option) : list graphNode :=
  omap providerNode (flattenOption (ModuleOpt opts)).
Definition consumerNodes (opts : list Option) : list graphNode :=
  omap consumerNode (flattenOption (ModuleOpt opts)).

(** ** Planning that comes back *)

(** A planner call that, started with the pending marks [P], returns a
    result or an error (it neither panics nor goes on for ever) and
    leaves exactly the marks [P]. *)
Definition settles {A} (P : gset nat) (m : planM A) : Prop :=
  ∀ tp, pending tp = P ->
    match (m tp).1 with
    | Ok _ | Fail _ => True
    | _ => False
    end
    ∧ pending (m tp).2 = P.

(** An input that is resolved through [toposortGenerateSingle] alone:
    no group, no decoration. *)
Definition singletonInput (g : graph) (spec : Spec) : Prop :=
  Group spec = false ∧ Decorate spec = false
  ∧ slotsOf (decorate g) (extractGraphKey spec) = [].

(** A graph and consumer roots whose inputs are all of that kind, the
    provider slots naming existing nodes. *)
Definition singletonOnly (g : graph) (roots : list graphNode) : Prop :=
  (∀ key slot, slot ∈ slotsOf (provide g) key ->
     (slot_id slot < length (nodes g))%nat)
  ∧ (∀ n, n ∈ nodes g ++ roots -> Forall (singletonInput g) (input n)).

(** ** Ports that only decorators put out *)

(** No node of [ns] has a non-decorating output with the key [key]. *)
Definition onlyDecorated (ns : list graphNode) (key : graphNodeKey) : Prop :=
  ∀ n o, n ∈ ns -> o ∈ output n -> extractGraphKey o = key -> Decorate o = true.

(** A decorator of [*X] that also provides [*Y], and consumers of [*X]
    and of [*Y]. *)
Definition loneDecorator : graphNode :=
  {| input := [MkSpec "*X" "" false true];
     output := [MkSpec "*X" "" false true; MkSpec "*Y" "" false false];
     value := idle; format := Some "D" |}.
Definition consumerOf (spec : Spec) : graphNode :=
  {| input := [spec]; output := []; value := idle; format := Some "Invoke(main)" |}.

(** No node of [ns] has an output with the key [key]. *)
Definition nobodyPutsOut (ns : list graphNode) (key : graphNodeKey) : Prop :=
  ∀ n o, n ∈ ns -> o ∈ output n -> extractGraphKey o ≠ key.

(** ** One buffer slot per key *)

(** Two planner states that differ at most in [tp.decorating]. *)
Definition sameButDecorating (tp tp' : graphToposort) : Prop :=
  outputs tp' = outputs tp ∧ grouped tp' = grouped tp
  ∧ decorated tp' = decorated tp ∧ pending tp' = pending tp
  ∧ result tp' = result tp ∧ store tp' = store tp.

(** [tp'] is a later state of the planning run of [tp]: what [tp]
    records is still recorded, and no node scheduled in [tp] is marked
    pending. *)
Definition laterState (tp tp' : graphToposort) : Prop :=
  outputs tp ⊆ outputs tp' ∧ grouped tp ⊆ grouped tp'
  ∧ ∀ id, id ∈ pending tp' -> outputs tp !! id = None.

(** ** Converting function signatures (shaft/run.go) *)

#[global] Instance Spec_eq_dec : EqDecision Spec.
Proof. solve_decision. Defined.

#[global] Instance Spec_countable : Countable Spec.
Proof.
  refine (inj_countable'
            (fun s => (Typ s, Name s, Group s, Decorate s))
            (fun t => MkSpec t.1.1.1 t.1.1.2 t.1.2 t.2) _).
  by intros [].
Defined.

(** [spec.Decorate = true] on a copy of [spec]. *)
Definition setDecorate (spec : Spec) : Spec :=
  {| Typ := Typ spec; Name := Name spec; Group := Group spec; Decorate := true |}.

Section convert.
(** [item.Kind() == reflect.Slice] *)
Variable Kind_Slice : rtype -> bool.

Definition convertSingle (item : rtype) : Spec :=
  {| Typ := item; Name := ""; Group := Kind_Slice item; Decorate := false |}.

(** The body of the loop of [convertFunc] over [args]; the state is
    [in] and [inMap]. *)
Definition convertArg (st : list Spec * gmap Spec (list nat)) (ia : nat * rtype)
    : list Spec * gmap Spec (list nat) :=
  let spec := convertSingle ia.2 in
  (st.1 ++ [spec], <[spec := default [] (st.2 !! spec) ++ [ia.1]]> st.2).

(** The body of the loop over [rets]; the state is [in] and [out]. The
    indices assigned through are positions of [in] recorded in [inMap]
    and the position just appended to [out]. *)
Definition convertRet (inMap : gmap Spec (list nat))
    (st : list Spec * list Spec) (ir : nat * rtype) : list Spec * list Spec :=
  let spec := convertSingle ir.2 in
  let out := st.2 ++ [spec] in
  match default [] (inMap !! spec) with
  | [] => (st.1, out)
  | matches =>
      (foldl (λ inp j, alter setDecorate j inp) st.1 matches,
       alter setDecorate ir.1 out)
  end.

Definition convertFunc (args rets : list rtype) : list Spec * list Spec :=
  let '(inp, inMap) := foldl convertArg ([], ∅) (imap pair args) in
  foldl (convertRet inMap) (inp, []) (imap pair rets).

(** The ports of a signature in closed form: a port decorates when its
    type stands among the arguments and among the results. *)
Definition portsOf (args rets : list rtype) : list Spec * list Spec :=
  (map (λ a, {| Typ := a; Name := ""; Group := Kind_Slice a;
                Decorate := bool_decide (a ∈ rets) |}) args,
   map (λ r, {| Typ := r; Name := ""; Group := Kind_Slice r;
                Decorate := bool_decide (r ∈ args) |}) rets).
End convert.

(** ** Plans without stack nodes *)

Definition stackFree (plan : list executionNode) : Prop :=
  Forall (λ n, match n with
               | graphUserNode _ _ a =>
                   match exec a with
                   | stackExec _ => False
                   | _ => True
                   end
               | _ => True
               end) plan.

(** The runner state [Run] starts from for [anonymousFailRun], whose
    provider fails. *)
Definition anonymousFailStart : runState :=
  match toposort 1 (opt_g (buildOptions anonymousFailRun))
          (consumers (buildOptions anonymousFailRun)) with
  | Ok (plan, st) => startState plan st
  | _ => idleState
  end.

(** ** The panics of the planner *)

(** A planner call that panics only with a message satisfying [P]. *)
Definition panicsOnly {A} (P : string -> Prop) (m : planM A) : Prop :=
  ∀ tp msg tp', m tp = (Panic msg, tp') -> P msg.

(** Every slot of either bucket of [g] names an existing node. *)
Definition slotsValid (g : graph) : Prop :=
  ∀ key slot,
    slot ∈ slotsOf (provide g) key ∨ slot ∈ slotsOf (decorate g) key ->
    (slot_id slot < length (nodes g))%nat.

(** No node of [ns] has two outputs with the key [key] and the decorate
    flag [dec]. *)
Definition oneOutputEach (ns : list graphNode) (dec : bool) (key : graphNodeKey)
    : Prop :=
  ∀ n i j s1 s2,
    n ∈ ns -> output n !! i = Some s1 -> output n !! j = Some s2 ->
    extractGraphKey s1 = key -> extractGraphKey s2 = key ->
    Decorate s1 = dec -> Decorate s2 = dec -> i = j.

(** The bucket [dec] of [key] in [g]. *)
Definition bucket (g : graph) (dec : bool) (key : graphNodeKey)
    : list graphNodeOutputSlot :=
  slotsOf (if dec then decorate g else provide g) key.

(** ** A failure inside stacks *)

(** The log of a run that fails in a step logging [evs], after steps of
    the shapes [before]: every bracket entered before is closed. *)
Fixpoint failEvents (before : list shape) (evs : list string) : list string :=
  match before with
  | [] => evs
  | Bracket enter exit :: rest => enter :: failEvents rest evs ++ [exit]
  | Plain e :: rest => e ++ failEvents rest evs
  | Plumb :: rest => failEvents rest evs
  end.

(** The error [inner] as the stack nodes among [before] hand it on: each
    of them adds an [ErrExecute] under its own label, the first one
    outermost. *)
Fixpoint wrapError (before : list executionNode) (inner : error) : error :=
  match before with
  | [] => inner
  | graphUserNode _ _ a :: rest =>
      match exec a with
      | stackExec _ => ErrExecute (default "" (ra_format a)) (wrapError rest inner)
      | _ => wrapError rest inner
      end
  | _ :: rest => wrapError rest inner
  end.

(** Two nested stacks and a consumer that fails. *)
Definition nestedStacksFail : list Option :=
  [ Stack (λ _, bracket "enter a" "exit a" [VAtom "a"]) [] [portA] (Some "Stack(a)");
    Stack (λ _, bracket "enter b" "exit b" [VAtom "b"]) [portA] [portB]
      (Some "Stack(b)");
    Invoke (λ _, (["main"], Some (errorString "boom"))) [portB]
      (Some "Invoke(main)") ].

Definition nestedFailStart : runState :=
  match toposort 9 (opt_g (buildOptions nestedStacksFail))
          (consumers (buildOptions nestedStacksFail)) with
  | Ok (plan, st) => startState plan st
  | _ => idleState
  end.

(** ** Well-formed plans *)

(** A collect that names an allocated buffer and a position of it. *)
Definition validCollect (st : list executionParam) (c : executionCollect) : Prop :=
  ∃ buf, loadBuf st (ec_result c) = Some buf ∧ (ec_index c < length buf)%nat.

(** A step whose buffers are allocated: a user step has its parameter
    and result buffers, a collect step a result buffer with a position
    for every source (the first position for a group) and sources that
    are valid collects. *)
Definition wfNode (st : list executionParam) (node : executionNode) : Prop :=
  match node with
  | graphUserNode p r _ => is_Some (loadBuf st p) ∧ is_Some (loadBuf st r)
  | collectParamNode items res =>
      (∃ buf, loadBuf st res = Some buf ∧ length items = length buf)
      ∧ Forall (validCollect st) items
  | collectGroupNode items res =>
      (∃ buf, loadBuf st res = Some buf ∧ length buf = 1)
      ∧ Forall (validCollect st) items
  end.

Definition wfPlan (plan : list executionNode) (st : list executionParam) : Prop :=
  Forall (wfNode st) plan.

(** Every slot of either bucket of [g] names a node of [g] and one of
    its outputs. *)
Definition slotsInRange (g : graph) : Prop :=
  ∀ key slot,
    slot ∈ slotsOf (provide g) key ∨ slot ∈ slotsOf (decorate g) key ->
    ∃ n, nodes g !! slot_id slot = Some n
         ∧ (slot_index slot < length (output n))%nat.

(** What the planner keeps true of its state: the output buffer of a
    scheduled node has one position per output, a group buffer has one
    position, the collects recorded for decoration are valid, and the
    plan so far is well formed. *)
Definition wfState (g : graph) (tp : graphToposort) : Prop :=
  (∀ id p, outputs tp !! id = Some p ->
     ∃ n buf, nodes g !! id = Some n ∧ loadBuf (store tp) p = Some buf
              ∧ length buf = length (output n))
  ∧ (∀ key p, grouped tp !! key = Some p ->
       ∃ buf, loadBuf (store tp) p = Some buf ∧ length buf = 1)
  ∧ (∀ key c, decorated tp !! key = Some c -> validCollect (store tp) c)
  ∧ (∀ key c, decorating tp !! key = Some c -> validCollect (store tp) c)
  ∧ wfPlan (result tp) (store tp).

(** The lengths of the buffers of a store. *)
Definition shapeOf (st : list executionParam) : list nat :=
  map (λ b, length (params b)) st.

(** A planner call that, when it succeeds from a well-formed state,
    leaves a well-formed state with the old buffers a prefix of the new
    ones, and a result satisfying [post]. *)
Definition keepsWf {A} (g : graph) (m : planM A)
    (post : A -> graphToposort -> Prop) : Prop :=
  ∀ tp a tp', wfState g tp -> m tp = (Ok a, tp') ->
    wfState g tp' ∧ store tp `prefix_of` store tp' ∧ post a tp'.

(** ** Running a well-formed plan *)

Definition groupFree (plan : list executionNode) : Prop :=
  Forall (λ n, match n with
               | collectGroupNode _ _ => False
               | _ => True
               end) plan.

(** What running the queue of [rs] keeps, [r] and [rs'] being the
    outcome and the state it ends in: the buffers keep their lengths,
    the queue only shrinks, and a panic is never a nil buffer; without
    collect-group steps it is the index panic of [Populate]. *)
Definition runsSafely (rs : runState) (r : outcome unit) (rs' : runState) : Prop :=
  shapeOf (rs_store rs') = shapeOf (rs_store rs)
  ∧ rs_pending rs' `suffix_of` rs_pending rs
  ∧ ∀ msg, r = Panic msg ->
      msg ≠ "nil pointer dereference"
      ∧ (groupFree (rs_pending rs) -> msg = "index out of range").

(** ** Supplying and populating *)

(** Ports that are neither groups nor decorating, with distinct keys. *)
Definition plainPorts (specs : list Spec) : Prop :=
  Forall (λ spec, Group spec = false ∧ Decorate spec = false) specs
  ∧ NoDup (map extractGraphKey specs).

(** [Supply] of [values] as [specs], then [Populate] of the same ports
    through [ptrs]. *)
Definition supplyPopulate (values : list Value) (ptrs : list nat)
    (specs : list Spec) (f1 f2 : option string) : list Option :=
  [Supply values specs f1; Populate ptrs specs f2].

(** The node [Supply] inserts and the consumer root [Populate] appends. *)
Definition supplyNode (values : list Value) (specs : list Spec)
    (fmt : option string) : graphNode :=
  {| input := []; output := specs;
     value := {| exec := supplyExec values; ra_format := fmt |};
     format := fmt |}.
Definition populateRoot (ptrs : list nat) (specs : list Spec)
    (fmt : option string) : graphNode :=
  {| input := specs; output := [];
     value := {| exec := populateExec ptrs; ra_format := fmt |};
     format := fmt |}.

(** * Properties *)

(** ** Reasoning in the planner monad *)

Lemma bind_Ok {A B} (m : planM A) (k : A -> planM B) tp b tp' :
  bind m k tp = (Ok b, tp') ->
  ∃ a tp1, m tp = (Ok a, tp1) ∧ k a tp1 = (Ok b, tp').
Proof.
  unfold bind. destruct (m tp) as [[a| | |] tp1]; try discriminate. eauto.
Qed.

Lemma bind_step {A B} (m : planM A) (k : A -> planM B) tp a tp1 :
  m tp = (Ok a, tp1) -> bind m k tp = k a tp1.
Proof. unfold bind. by intros ->. Qed.

Lemma bind_stop {A B} (m : planM A) (k : A -> planM B) tp :
  ¬ isOk (m tp).1 -> ¬ isOk (bind m k tp).1.
Proof. unfold bind. by destruct (m tp) as [[a| | |] tp1]. Qed.

Lemma bind_Fail {A B} (m : planM A) (k : A -> planM B) tp e tp' :
  m tp = (Fail e, tp') -> bind m k tp = (Fail e, tp').
Proof. unfold bind. by intros ->. Qed.

Lemma bind_cong {A B} (m : planM A) (k k' : A -> planM B) tp :
  (∀ a tp1, m tp = (Ok a, tp1) -> k a tp1 = k' a tp1) ->
  bind m k tp = bind m k' tp.
Proof. unfold bind. destruct (m tp) as [[a| | |] tp1]; auto. Qed.

Lemma bind_cong_l {A B} (m m' : planM A) (k : A -> planM B) tp :
  m tp = m' tp -> bind m k tp = bind m' k tp.
Proof. unfold bind. by intros ->. Qed.

Lemma bind_get {A B} (f : graphToposort -> A) (k : A -> planM B) tp :
  bind (get f) k tp = k (f tp) tp.
Proof. done. Qed.

Lemma bind_modify {B} f (k : unit -> planM B) tp :
  bind (modify f) k tp = k () (f tp).
Proof. done. Qed.

Lemma bind_emit {B} n (k : unit -> planM B) tp :
  bind (emit n) k tp = k () (push_result n tp).
Proof. done. Qed.

Lemma bind_alloc {B} ps (k : ptr -> planM B) tp :
  bind (alloc ps) k tp = k (S (length (store tp))) (push_store (ExecutionParam ps) tp).
Proof. done. Qed.

Lemma bind_ret {A B} (a : A) (k : A -> planM B) tp : bind (ret a) k tp = k a tp.
Proof. done. Qed.

#[global] Instance ext_preorder : PreOrder ext.
Proof.
  split.
  - intros tp. split; try done. by left.
  - intros a b c [] []. split; try (by etrans).
    intros id p Hp. apply prefix_length in ext_store0, ext_store1.
    destruct (ext_fresh1 id p Hp) as [H|H];
      [destruct (ext_fresh0 id p H) as [H'|H']; [by left|right; lia]|right; lia].
Qed.

Lemma frames_ret {A} (a : A) : frames (ret a).
Proof. intros tp. reflexivity. Qed.

Lemma frames_fail {A} e : frames (@fail A e).
Proof. intros tp. reflexivity. Qed.

Lemma frames_panic {A} msg : frames (@panic A msg).
Proof. intros tp. reflexivity. Qed.

Lemma frames_get {A} (f : graphToposort -> A) : frames (get f).
Proof. intros tp. reflexivity. Qed.

Lemma frames_bind {A B} (m : planM A) (k : A -> planM B) :
  frames m -> (∀ a, frames (k a)) -> frames (bind m k).
Proof.
  intros Hm Hk tp. unfold bind. specialize (Hm tp).
  destruct (m tp) as [[a| | |] tp1]; simpl in *; try done.
  etrans; [exact Hm | apply Hk].
Qed.

Lemma frames_alloc ps : frames (alloc ps).
Proof. intros tp. split; simpl; try done; [by apply prefix_app_r|by left]. Qed.

Lemma frames_emit n : frames (emit n).
Proof. intros tp. split; simpl; try done; [by apply prefix_app_r|by left]. Qed.

Lemma frames_set_decorating f : frames (modify (set_decorating f)).
Proof. intros tp. split; try done. by left. Qed.

Lemma frames_forEach {A} (xs : list A) body :
  (∀ x, frames (body x)) -> frames (forEach xs body).
Proof.
  intros Hb. induction xs as [|x xs IH]; simpl.
  - apply frames_ret.
  - apply frames_bind; [apply Hb | intros _; apply IH].
Qed.

Lemma frames_collectEach {A B} (xs : list A) (body : A -> planM B) :
  (∀ x, frames (body x)) -> frames (collectEach xs body).
Proof.
  intros Hb. induction xs as [|x xs IH]; simpl.
  - apply frames_ret.
  - apply frames_bind; [apply Hb | intros b].
    apply frames_bind; [apply IH | intros bs; apply frames_ret].
Qed.

Lemma ext_set_grouped tp tp' key r :
  ext tp tp' -> grouped tp !! key = None -> ext tp (set_grouped <[key := r]> tp').
Proof.
  intros [] Hk. split; simpl; try done. by apply insert_subseteq_r.
Qed.

Lemma ext_set_decorated tp tp' key r :
  ext tp tp' -> decorated tp !! key = None ->
  ext tp (set_decorated <[key := r]> tp').
Proof.
  intros [] Hk. split; simpl; try done. by apply insert_subseteq_r.
Qed.

Lemma ext_decorated_None tp tp' (key : graphNodeKey) :
  ext tp tp' -> decorated tp' !! key = None -> decorated tp !! key = None.
Proof.
  intros [] Hk. destruct (decorated tp !! key) eqn:E; [|done].
  by rewrite (lookup_weaken _ _ _ _ E ext_decorated0) in Hk.
Qed.

Section planner_frames.
Variable nodeID : nat -> planM ptr.
Variable g : graph.
Hypothesis nodeID_frames : ∀ id, frames (nodeID id).

Lemma frames_Single item : frames (toposortGenerateSingle nodeID g item).
Proof.
  unfold toposortGenerateSingle.
  destruct (slotsOf (provide g) item) as [|slot [|??]];
    [apply frames_fail| |apply frames_fail].
  apply frames_bind; [apply frames_get|intros pend].
  case_decide.
  - destruct (nodes g !! _); [apply frames_fail|apply frames_panic].
  - apply frames_bind; [apply nodeID_frames|intros; apply frames_ret].
Qed.

Lemma frames_groupedItem slot : frames (groupedItem nodeID slot).
Proof.
  apply frames_bind; [apply nodeID_frames|intros; apply frames_ret].
Qed.

Lemma frames_Grouped key : frames (toposortGenerateGrouped nodeID g key).
Proof.
  intros tp. unfold toposortGenerateGrouped. rewrite bind_get.
  destruct (grouped tp !! key) eqn:Hk; [reflexivity|].
  rewrite bind_alloc.
  pose proof (frames_alloc [MakeSlice (typ key)] tp) as H1. simpl in H1.
  pose proof (frames_collectEach (slotsOf (provide g) key) _
                frames_groupedItem
                (push_store (ExecutionParam [MakeSlice (typ key)]) tp)) as H2.
  unfold bind at 1.
  destruct (collectEach _ _ _) as [[items| | |] tp2]; simpl in *;
    try (by etrans).
  apply ext_set_grouped; [|done].
  etrans; [exact H1|]. etrans; [exact H2|]. apply (frames_emit _ tp2).
Qed.

Lemma frames_BaseCollect key : frames (toposortGenerateBaseCollect nodeID g key).
Proof.
  unfold toposortGenerateBaseCollect. apply frames_bind.
  { destruct (group key); [apply frames_Grouped|apply frames_Single]. }
  intros base. destruct (slotsOf (decorate g) key); [apply frames_ret|].
  apply frames_bind; [apply frames_get|intros [?|]]; [apply frames_ret|].
  apply frames_bind; [apply frames_get|intros [?|]]; [apply frames_ret|].
  apply frames_bind; [apply frames_set_decorating|intros; apply frames_ret].
Qed.

Lemma frames_decorateStep key slot : frames (decorateStep nodeID key slot).
Proof.
  apply frames_bind; [apply nodeID_frames|intros; apply frames_set_decorating].
Qed.

Lemma frames_collectAfterBase spec base :
  frames (collectAfterBase nodeID g spec base).
Proof.
  intros tp. unfold collectAfterBase. destruct (Decorate spec).
  { rewrite bind_get. by destruct (decorating tp !! _). }
  destruct (slotsOf (decorate g) (extractGraphKey spec)) as [|s0 sl] eqn:Hs;
    [reflexivity|].
  rewrite bind_get.
  destruct (decorated tp !! extractGraphKey spec) eqn:Hd; [reflexivity|].
  pose proof (frames_forEach (s0 :: sl) _
                (frames_decorateStep (extractGraphKey spec)) tp) as H1.
  unfold bind at 1.
  destruct (forEach _ _ _) as [[[]| | |] tp1]; simpl in *; try done.
  pose proof (ext_set_decorated tp tp1 (extractGraphKey spec)
                (default nilCollect (decorating tp1 !! extractGraphKey spec))
                H1 Hd) as [].
  by split.
Qed.

Lemma frames_Collect spec : frames (toposortGenerateCollect nodeID g spec).
Proof.
  intros tp. unfold toposortGenerateCollect.
  pose proof (frames_BaseCollect (extractGraphKey spec) tp) as H1.
  destruct (toposortGenerateBaseCollect _ _ _ _) as [[base| | |] tp1];
    simpl in *; try done.
  etrans; [exact H1|apply frames_collectAfterBase].
Qed.

Lemma frames_baseStep spec : frames (baseStep nodeID g spec).
Proof.
  apply frames_bind; [apply frames_BaseCollect|intros; apply frames_ret].
Qed.

Lemma frames_GraphNode current : frames (toposortGenerateGraphNode nodeID g current).
Proof.
  unfold toposortGenerateGraphNode.
  apply frames_bind; [apply frames_alloc|intros p].
  apply frames_bind; [apply frames_forEach, frames_baseStep|intros _].
  apply frames_bind; [apply frames_collectEach, frames_Collect|intros items].
  apply frames_bind; [apply frames_emit|intros _].
  apply frames_bind; [apply frames_alloc|intros r].
  apply frames_bind; [apply frames_emit|intros _; apply frames_ret].
Qed.

Lemma GraphNode_Ok_fresh current tp p tp' :
  toposortGenerateGraphNode nodeID g current tp = (Ok p, tp') ->
  (length (store tp) < p ∧ p ≤ length (store tp'))%nat.
Proof.
  unfold toposortGenerateGraphNode. rewrite bind_alloc.
  intros ([] & tp1 & H1 & H)%bind_Ok.
  apply bind_Ok in H as (items & tp2 & H2 & H).
  rewrite bind_emit, bind_alloc, bind_emit in H.
  injection H as Hp Ht. subst p tp'.
  pose proof (frames_forEach (input current) _ frames_baseStep
                (push_store
                   (ExecutionParam (replicate (length (input current)) VInvalid))
                   tp)) as E1.
  rewrite H1 in E1.
  pose proof (frames_collectEach (input current) _ frames_Collect tp1) as E2.
  rewrite H2 in E2. simpl in *.
  apply ext_store, prefix_length in E1, E2. simpl in *.
  rewrite length_app in *. simpl in *. lia.
Qed.
End planner_frames.

Lemma pending_restore (P P2 : gset nat) (id : nat) :
  P2 ⊆ {[id]} ∪ P -> P2 ∖ {[id]} ⊆ P.
Proof.
  intros H x [Hx Hn]%elem_of_difference.
  apply H, elem_of_union in Hx as [Hx|Hx]; done.
Qed.

Lemma frames_NodeID fuel g id : frames (toposortGenerateGraphNodeID fuel g id).
Proof.
  revert id. induction fuel as [|fuel IH]; intros id tp; simpl; [reflexivity|].
  destruct (outputs tp !! id) eqn:Ho; [reflexivity|].
  destruct (nodes g !! id) as [current|]; simpl.
  { pose proof (frames_GraphNode _ g IH current (set_pending (union {[id]}) tp))
      as H1.
    pose proof (GraphNode_Ok_fresh _ g IH current (set_pending (union {[id]}) tp))
      as H2.
    destruct (toposortGenerateGraphNode _ _ _ _) as [[p| | |] tp2];
      destruct H1; simpl in *; split; simpl; try done;
      try (by apply pending_restore).
    - by apply insert_subseteq_r.
    - intros id' p' Hp. destruct (decide (id = id')) as [->|Hne].
      + rewrite lookup_insert_eq in Hp. injection Hp as <-. right. by eapply H2.
      + rewrite lookup_insert_ne in Hp by done. by apply ext_fresh0. }
  split; simpl; try done; [by apply pending_restore|by left].
Qed.

Lemma slotsOf_insert m key key' l :
  slotsOf (<[key := l]> m) key' = if decide (key = key') then l else slotsOf m key'.
Proof.
  unfold slotsOf. case_decide; simplify_map_eq; done.
Qed.

Lemma insertOutput_nodes id g io : nodes (insertOutput id g io) = nodes g.
Proof. unfold insertOutput. by destruct (Decorate io.2). Qed.

Lemma insertOutput_provide id g io key :
  slotsOf (provide (insertOutput id g io)) key =
  slotsOf (provide g) key ++ outputSlots false key id io.1 [io.2].
Proof.
  unfold insertOutput. simpl. destruct (Decorate io.2) eqn:Hd; simpl.
  - case_decide as H; [destruct H; congruence|]. by rewrite !app_nil_r.
  - rewrite slotsOf_insert. case_decide as H.
    + subst key. by rewrite decide_True.
    + rewrite decide_False; [by rewrite app_nil_r|]. by intros [? _].
Qed.

Lemma insertOutput_decorate id g io key :
  slotsOf (decorate (insertOutput id g io)) key =
  slotsOf (decorate g) key ++ outputSlots true key id io.1 [io.2].
Proof.
  unfold insertOutput. simpl. destruct (Decorate io.2) eqn:Hd; simpl.
  - rewrite slotsOf_insert. case_decide as H.
    + subst key. by rewrite decide_True.
    + rewrite decide_False; [by rewrite app_nil_r|]. by intros [? _].
  - case_decide as H; [destruct H; congruence|]. by rewrite !app_nil_r.
Qed.

Lemma insert_loop id out : ∀ g i key,
  let g' := foldl (insertOutput id) g (imap (λ j, pair (i + j)) out) in
  nodes g' = nodes g
  ∧ slotsOf (provide g') key = slotsOf (provide g) key ++ outputSlots false key id i out
  ∧ slotsOf (decorate g') key
    = slotsOf (decorate g) key ++ outputSlots true key id i out.
Proof.
  induction out as [|spec out IH]; intros g i key; simpl.
  { by rewrite !app_nil_r. }
  rewrite (imap_ext _ (λ j, pair (S i + j))); [|intros; simpl; f_equal; lia].
  destruct (IH (insertOutput id g (i + 0, spec)) (S i) key) as (Hn & Hp & Hd).
  rewrite Hn, Hp, Hd, insertOutput_nodes, insertOutput_provide,
    insertOutput_decorate.
  simpl. rewrite Nat.add_0_r, !app_nil_r, <- !app_assoc. done.
Qed.

Lemma graph_insert_nodes g node : nodes (graph_insert g node) = nodes g ++ [node].
Proof.
  unfold graph_insert.
  destruct (insert_loop (length (nodes g)) (output node)
    {| nodes := nodes g ++ [node]; provide := provide g; decorate := decorate g |}
    0 (GraphNodeKey "" "" false)) as (H & _). exact H.
Qed.

Lemma graph_insert_provide g node key :
  slotsOf (provide (graph_insert g node)) key =
  slotsOf (provide g) key
  ++ outputSlots false key (length (nodes g)) 0 (output node).
Proof.
  unfold graph_insert.
  destruct (insert_loop (length (nodes g)) (output node)
    {| nodes := nodes g ++ [node]; provide := provide g; decorate := decorate g |}
    0 key) as (_ & H & _). exact H.
Qed.

Lemma graph_insert_decorate g node key :
  slotsOf (decorate (graph_insert g node)) key =
  slotsOf (decorate g) key
  ++ outputSlots true key (length (nodes g)) 0 (output node).
Proof.
  unfold graph_insert.
  destruct (insert_loop (length (nodes g)) (output node)
    {| nodes := nodes g ++ [node]; provide := provide g; decorate := decorate g |}
    0 key) as (_ & _ & H). exact H.
Qed.

(** ** Missing and ambiguous singleton dependencies (C6) *)

Lemma Single_missing nodeID g item tp :
  slotsOf (provide g) item = [] ->
  toposortGenerateSingle nodeID g item tp = (Fail (missingDependency item), tp).
Proof. unfold toposortGenerateSingle. by intros ->. Qed.

Lemma Single_ambiguous nodeID g item tp :
  (2 ≤ length (slotsOf (provide g) item))%nat ->
  toposortGenerateSingle nodeID g item tp = (Fail (ambigiousDependency item), tp).
Proof.
  unfold toposortGenerateSingle.
  destruct (slotsOf (provide g) item) as [|? [|??]]; simpl; [lia..|done].
Qed.

Lemma BaseCollect_Single_Fail nodeID g key tp e tp' :
  group key = false ->
  toposortGenerateSingle nodeID g key tp = (Fail e, tp') ->
  toposortGenerateBaseCollect nodeID g key tp = (Fail e, tp').
Proof.
  intros Hg HS. unfold toposortGenerateBaseCollect, bind. by rewrite Hg, HS.
Qed.

(** A consumer root whose first input cannot be resolved makes
    [toposort] return that failure. *)
Lemma GraphNode_first_input_Fail nodeID g root spec rest e tp :
  input root = spec :: rest ->
  (∀ tp, ∃ tp', toposortGenerateBaseCollect nodeID g (extractGraphKey spec) tp
                = (Fail e, tp')) ->
  ∃ tp', toposortGenerateGraphNode nodeID g root tp = (Fail e, tp').
Proof.
  intros Hin HB. unfold toposortGenerateGraphNode. rewrite bind_alloc, Hin.
  edestruct HB as [tp' HB']. exists tp'.
  apply bind_Fail. simpl. apply bind_Fail. unfold baseStep. apply bind_Fail.
  exact HB'.
Qed.

Lemma toposort_first_input_Fail fuel g root spec rest e roots :
  input root = spec :: rest ->
  (∀ tp, ∃ tp', toposortGenerateBaseCollect (toposortGenerateGraphNodeID fuel g) g
            (extractGraphKey spec) tp = (Fail e, tp')) ->
  toposort fuel g (root :: roots) = Fail e.
Proof.
  intros Hin HB. unfold toposort, toposortState. simpl.
  destruct (GraphNode_first_input_Fail _ g root spec rest e newGraphToposort
              Hin HB) as [tp' HG].
  erewrite bind_Fail; [done|]. unfold rootStep. apply bind_Fail. exact HG.
Qed.

(** With every provider schedulable, a group resolves whatever the number
    of its providers, and every provider slot contributes one source. *)
Lemma collectEach_groupedItem_Ok nodeID slots :
  (∀ id tp, isOk (nodeID id tp).1) ->
  ∀ tp, ∃ items tp',
    collectEach slots (groupedItem nodeID) tp = (Ok items, tp')
    ∧ map ec_index items = map slot_index slots.
Proof.
  intros Hok. induction slots as [|slot slots IH]; intros tp; simpl.
  { by exists [], tp. }
  pose proof (Hok (slot_id slot) tp) as H.
  destruct (nodeID (slot_id slot) tp) as [[p| | |] tp1] eqn:Hn; try done.
  destruct (IH tp1) as (items & tp' & Hc & Hi).
  eexists _, _. split.
  - erewrite bind_step; [|unfold groupedItem; erewrite bind_step; [|exact Hn]; done].
    erewrite bind_step; [|exact Hc]. done.
  - simpl. by rewrite Hi.
Qed.


(** ** Buffers *)

Lemma loadBuf_storeBuf_eq st p vs buf :
  loadBuf st p = Some buf -> loadBuf (storeBuf st p vs) p = Some vs.
Proof.
  destruct p as [|i]; simpl; [done|].
  intros H. destruct (st !! i) eqn:Hi; [|done].
  by rewrite list_lookup_insert_eq by (by eapply lookup_lt_Some).
Qed.

Lemma loadBuf_storeBuf_ne st p q vs :
  p ≠ q -> loadBuf (storeBuf st p vs) q = loadBuf st q.
Proof.
  destruct p as [|i], q as [|j]; simpl; try done.
  intros H. rewrite list_lookup_insert_ne; [done|congruence].
Qed.

Lemma storeBuf_storeBuf st p vs ws :
  storeBuf (storeBuf st p vs) p ws = storeBuf st p ws.
Proof. destruct p; simpl; [done|]. apply list_insert_insert_eq. Qed.

Lemma collect_storeBuf_ne st p vs item :
  ec_result item ≠ p -> collect (storeBuf st p vs) item = collect st item.
Proof. intros H. unfold collect. by rewrite loadBuf_storeBuf_ne. Qed.

(** ** The collect-group step splices its sources (C2) *)

Lemma collectGroupNode_execute_splices items : ∀ res st acc rest xss,
  res ∉ map ec_result items ->
  loadBuf st res = Some (VSlice acc :: rest) ->
  Forall2 (λ item xs, collect st item = Some (VSlice xs)) items xss ->
  collectGroupNode_execute items res st
  = Some (storeBuf st res (VSlice (acc ++ concat xss) :: rest)).
Proof.
  induction items as [|item items IH]; intros res st acc rest xss Hres Hb HF.
  - apply Forall2_nil_inv_l in HF as ->. simpl. rewrite app_nil_r.
    destruct res as [|i]; simpl in *; [done|].
    destruct (st !! i) as [[b]|] eqn:Hi; simplify_eq/=.
    by rewrite list_insert_id.
  - apply Forall2_cons_inv_l in HF as (xs & xss' & Hc & HF & ->).
    apply not_elem_of_cons in Hres as [Hne Hres]. simpl.
    rewrite Hc, Hb. simpl.
    rewrite (IH res _ (acc ++ xs) rest xss'); first last.
    + clear -HF Hres. induction HF as [|i x l l' Hi HF IH']; constructor.
      * simpl in Hres. apply not_elem_of_cons in Hres as [Hne _].
        by rewrite collect_storeBuf_ne.
      * simpl in Hres. apply not_elem_of_cons in Hres as [_ Hres]. by apply IH'.
    + by eapply loadBuf_storeBuf_eq.
    + done.
    + by rewrite storeBuf_storeBuf, <- app_assoc.
Qed.

(** C2 (as the code has it). A collect-group step treats every source
    slot as a sequence and splices its elements onto the aggregation
    buffer: with sources holding the slices [xss], a buffer holding [acc]
    ends up holding [acc ++ concat xss]; a source that is not a slice
    makes the step panic. *)
Theorem C2_collect_group_splices :
  (∀ items res st acc rest xss,
     res ∉ map ec_result items ->
     loadBuf st res = Some (VSlice acc :: rest) ->
     Forall2 (λ item xs, collect st item = Some (VSlice xs)) items xss ->
     execute (collectGroupNode items res) st
     = Some (storeBuf st res (VSlice (acc ++ concat xss) :: rest)))
  ∧ (∀ item items res st v,
     collect st item = Some v -> (∀ xs, v ≠ VSlice xs) ->
     execute (collectGroupNode (item :: items) res) st = None).
Proof.
  split.
  - intros. by apply collectGroupNode_execute_splices.
  - intros item items res st v Hc Hv. simpl. rewrite Hc. simpl.
    destruct (loadBuf st res) as [[|acc buf]|]; simpl; try done.
    destruct acc, v; simpl; try done. by destruct (Hv elems0).
Qed.

Lemma C2_collect_group_splices_witness :
  execute (collectGroupNode [Collect 2 0; Collect 3 0] 1)
    [ExecutionParam [VSlice []];
     ExecutionParam [VSlice [VAtom "a"; VAtom "b"]];
     ExecutionParam [VSlice [VAtom "c"]]]
  = Some [ExecutionParam [VSlice [VAtom "a"; VAtom "b"; VAtom "c"]];
          ExecutionParam [VSlice [VAtom "a"; VAtom "b"]];
          ExecutionParam [VSlice [VAtom "c"]]]
  ∧ execute (collectGroupNode [Collect 2 0] 1)
      [ExecutionParam [VSlice []]; ExecutionParam [VAtom "a"]] = None.
Proof.
  split.
  - apply (proj1 C2_collect_group_splices
             [Collect 2 0; Collect 3 0] 1
             [ExecutionParam [VSlice []];
              ExecutionParam [VSlice [VAtom "a"; VAtom "b"]];
              ExecutionParam [VSlice [VAtom "c"]]] [] []
             [[VAtom "a"; VAtom "b"]; [VAtom "c"]]).
    + vm_compute. intros H. by repeat (apply elem_of_cons in H as [H|H];
        [discriminate|]); apply elem_of_nil in H.
    + reflexivity.
    + repeat constructor.
  - apply (proj2 C2_collect_group_splices (Collect 2 0) [] 1
             [ExecutionParam [VSlice []]; ExecutionParam [VAtom "a"]] (VAtom "a")).
    + reflexivity.
    + discriminate.
Defined.

(** C2 (counterexample). A source slot holding a two-element
    sequence contributes two elements, not one. *)
Lemma C2_counterexample :
  ¬ (∀ items res st,
       collectGroupNode_execute items res st
       = collectGroupNode_execute_elementwise items res st).
Proof.
  intros H.
  specialize (H [Collect 2 0] 1
    [ExecutionParam [VSlice []]; ExecutionParam [VSlice [VAtom "x"; VAtom "y"]]]).
  vm_compute in H. discriminate.
Qed.

(** ** Provider order (C3) *)

Lemma provide_foldl_insert key ns : ∀ g,
  slotsOf (provide (foldl graph_insert g ns)) key
  = slotsOf (provide g) key
    ++ concat (imap (λ i n, outputSlots false key (length (nodes g) + i) 0 (output n))
                 ns).
Proof.
  induction ns as [|n ns IH]; intros g; simpl.
  { by rewrite app_nil_r. }
  rewrite IH, graph_insert_provide, graph_insert_nodes, <- app_assoc, Nat.add_0_r.
  do 3 f_equal. apply imap_ext. intros i x _. simpl.
  rewrite length_app. simpl. f_equal. lia.
Qed.

Lemma provide_buildGraph key ns :
  slotsOf (provide (buildGraph ns)) key = providersInOrder key ns.
Proof. unfold buildGraph. by rewrite provide_foldl_insert. Qed.

Lemma NodeID_Ok_outputs fuel g id tp p tp' :
  toposortGenerateGraphNodeID fuel g id tp = (Ok p, tp') ->
  outputs tp' !! id = Some p.
Proof.
  destruct fuel as [|fuel]; simpl; [done|].
  destruct (outputs tp !! id) eqn:Ho; [by intros [= <- <-]|].
  destruct (nodes g !! id); [|done].
  destruct (toposortGenerateGraphNode _ _ _ _) as [[q| | |] tp2]; try done.
  intros [= <- <-]. simpl. by rewrite lookup_insert_eq.
Qed.

Lemma groupedItems_follow_slots fuel g slots : ∀ tp items tp',
  collectEach slots (groupedItem (toposortGenerateGraphNodeID fuel g)) tp
  = (Ok items, tp') ->
  Forall2 (λ item slot, ec_index item = slot_index slot
                        ∧ outputs tp' !! slot_id slot = Some (ec_result item))
          items slots.
Proof.
  induction slots as [|slot slots IH]; intros tp items tp'; simpl.
  { intros [= <- <-]. constructor. }
  intros (c & tp1 & Hc & H)%bind_Ok.
  apply bind_Ok in H as (cs & tp2 & Hcs & H). injection H as <- <-.
  unfold groupedItem in Hc. apply bind_Ok in Hc as (p & tp0 & Hp & Hc).
  injection Hc as <- <-.
  constructor; [|by eapply IH].
  split; [done|]. simpl.
  pose proof (frames_collectEach slots _
    (frames_groupedItem _ (frames_NodeID fuel g)) tp0) as E.
  rewrite Hcs in E. simpl in E.
  eapply lookup_weaken; [|apply E]. by eapply NodeID_Ok_outputs.
Qed.

Lemma outputSlots_elem dec key id out : ∀ i slot,
  slot ∈ outputSlots dec key id i out ->
  slot_id slot = id ∧ (i ≤ slot_index slot)%nat.
Proof.
  induction out as [|spec out IH]; intros i slot; simpl.
  { by intros ?%elem_of_nil. }
  intros [H|H]%elem_of_app.
  - case_decide; [|by apply elem_of_nil in H].
    apply list_elem_of_singleton in H as ->. simpl. split; [done|lia].
  - apply IH in H as [? ?]. split; [done|lia].
Qed.

Lemma outputSlots_sorted dec key id out : ∀ i,
  StronglySorted insertedBefore (outputSlots dec key id i out).
Proof.
  induction out as [|spec out IH]; intros i; simpl; [constructor|].
  apply StronglySorted_app_2; [|case_decide; repeat constructor|apply IH].
  intros a b Ha Hb. case_decide; [|by apply elem_of_nil in Ha].
  apply list_elem_of_singleton in Ha as ->.
  apply outputSlots_elem in Hb as [Hid ?]. right. simpl. split; [done|lia].
Qed.

Lemma providers_sorted_from key ns : ∀ k,
  StronglySorted insertedBefore
    (concat (imap (λ i n, outputSlots false key (k + i) 0 (output n)) ns))
  ∧ ∀ slot, slot ∈ concat (imap (λ i n, outputSlots false key (k + i) 0 (output n)) ns)
      -> (k ≤ slot_id slot)%nat.
Proof.
  induction ns as [|n ns IH]; intros k; simpl.
  { split; [constructor|]. by intros ? ?%elem_of_nil. }
  rewrite (imap_ext _ (λ i n, outputSlots false key (S k + i) 0 (output n)));
    [|intros; simpl; f_equal; lia].
  destruct (IH (S k)) as [IH1 IH2]. split.
  - apply StronglySorted_app_2; [|apply outputSlots_sorted|done].
    intros a b [Ha _]%outputSlots_elem Hb%IH2. left. lia.
  - intros slot [H|H]%elem_of_app.
    + apply outputSlots_elem in H as [Hs _]. lia.
    + apply IH2 in H. lia.
Qed.

Lemma providersInOrder_sorted key ns :
  StronglySorted insertedBefore (providersInOrder key ns).
Proof. apply (providers_sorted_from key ns 0). Qed.

Lemma Grouped_fresh_Ok fuel g key tp c tp' :
  grouped tp !! key = None ->
  toposortGenerateGrouped (toposortGenerateGraphNodeID fuel g) g key tp = (Ok c, tp') ->
  ∃ items tp1,
    collectEach (slotsOf (provide g) key)
      (groupedItem (toposortGenerateGraphNodeID fuel g))
      (push_store (ExecutionParam [MakeSlice (typ key)]) tp) = (Ok items, tp1)
    ∧ c = {| ec_result := S (length (store tp)); ec_index := 0 |}
    ∧ tp' = set_grouped <[key := S (length (store tp))]>
              (push_result (collectGroupNode items (S (length (store tp)))) tp1).
Proof.
  intros Hk. unfold toposortGenerateGrouped. rewrite bind_get, Hk, bind_alloc.
  intros (items & tp1 & Hc & H)%bind_Ok.
  rewrite bind_emit, bind_modify in H. injection H as <- <-. eauto.
Qed.


(** ** What the errors of [Run] carry (C8) *)

Lemma failsPlain_bind {A B} (m : planM A) (k : A -> planM B) :
  failsPlain m -> (∀ a, failsPlain (k a)) -> failsPlain (bind m k).
Proof.
  intros Hm Hk tp e tp'. unfold bind.
  destruct (m tp) as [[a| | |] tp1] eqn:E; try done.
  - apply Hk.
  - intros [= <- <-]. by eapply Hm.
Qed.

Lemma failsPlain_Ok {A} (m : planM A) :
  (∀ tp, isOk (m tp).1) -> failsPlain m.
Proof. intros H tp e tp' E. specialize (H tp). by rewrite E in H. Qed.

Lemma failsPlain_forEach {A} (xs : list A) body :
  (∀ x, failsPlain (body x)) -> failsPlain (forEach xs body).
Proof.
  intros Hb. induction xs as [|x xs IH]; simpl; [by apply failsPlain_Ok|].
  apply failsPlain_bind; [apply Hb|intros _; apply IH].
Qed.

Lemma failsPlain_collectEach {A B} (xs : list A) (body : A -> planM B) :
  (∀ x, failsPlain (body x)) -> failsPlain (collectEach xs body).
Proof.
  intros Hb. induction xs as [|x xs IH]; simpl; [by apply failsPlain_Ok|].
  apply failsPlain_bind; [apply Hb|intros b].
  apply failsPlain_bind; [apply IH|intros bs; by apply failsPlain_Ok].
Qed.

Section planner_failures.
Variable nodeID : nat -> planM ptr.
Variable g : graph.
Hypothesis nodeID_plain : ∀ id, failsPlain (nodeID id).

Lemma failsPlain_Single item : failsPlain (toposortGenerateSingle nodeID g item).
Proof.
  unfold toposortGenerateSingle.
  destruct (slotsOf (provide g) item) as [|slot [|??]].
  - intros tp e tp' [= <- <-]. by eexists.
  - apply failsPlain_bind; [by apply failsPlain_Ok|intros pend].
    case_decide.
    + destruct (nodes g !! _); [|by intros tp e tp'].
      intros tp e tp' [= <- <-]. by eexists.
    + apply failsPlain_bind; [apply nodeID_plain|intros; by apply failsPlain_Ok].
  - intros tp e tp' [= <- <-]. by eexists.
Qed.

Lemma failsPlain_Grouped key : failsPlain (toposortGenerateGrouped nodeID g key).
Proof.
  unfold toposortGenerateGrouped.
  apply failsPlain_bind; [by apply failsPlain_Ok|intros [?|]];
    [by apply failsPlain_Ok|].
  apply failsPlain_bind; [by apply failsPlain_Ok|intros r].
  apply failsPlain_bind.
  { apply failsPlain_collectEach. intros slot.
    apply failsPlain_bind; [apply nodeID_plain|intros; by apply failsPlain_Ok]. }
  intros items. by apply failsPlain_Ok.
Qed.

Lemma failsPlain_BaseCollect key :
  failsPlain (toposortGenerateBaseCollect nodeID g key).
Proof.
  unfold toposortGenerateBaseCollect. apply failsPlain_bind.
  { destruct (group key); [apply failsPlain_Grouped|apply failsPlain_Single]. }
  intros base. apply failsPlain_Ok. intros tp.
  destruct (slotsOf (decorate g) key); [done|]. rewrite bind_get.
  destruct (decorated tp !! key); [done|]. rewrite bind_get.
  by destruct (decorating tp !! key).
Qed.

Lemma failsPlain_collectAfterBase spec base :
  failsPlain (collectAfterBase nodeID g spec base).
Proof.
  unfold collectAfterBase. destruct (Decorate spec).
  { intros tp e tp'. rewrite bind_get. by destruct (decorating tp !! _). }
  destruct (slotsOf (decorate g) (extractGraphKey spec)) as [|s0 sl];
    [by apply failsPlain_Ok|].
  apply failsPlain_bind; [by apply failsPlain_Ok|intros [?|]];
    [by apply failsPlain_Ok|].
  apply failsPlain_bind.
  { apply failsPlain_forEach. intros slot.
    apply failsPlain_bind; [apply nodeID_plain|intros; by apply failsPlain_Ok]. }
  intros _. by apply failsPlain_Ok.
Qed.

Lemma failsPlain_Collect spec : failsPlain (toposortGenerateCollect nodeID g spec).
Proof.
  intros tp e tp'. unfold toposortGenerateCollect.
  destruct (toposortGenerateBaseCollect _ _ _ _) as [[base| | |] tp1]; try done.
  apply failsPlain_collectAfterBase.
Qed.

Lemma failsPlain_GraphNode current :
  failsPlain (toposortGenerateGraphNode nodeID g current).
Proof.
  unfold toposortGenerateGraphNode.
  apply failsPlain_bind; [by apply failsPlain_Ok|intros p].
  apply failsPlain_bind.
  { apply failsPlain_forEach. intros spec.
    apply failsPlain_bind; [apply failsPlain_BaseCollect|
                            intros; by apply failsPlain_Ok]. }
  intros _.
  apply failsPlain_bind; [apply failsPlain_collectEach, failsPlain_Collect|].
  intros items. by apply failsPlain_Ok.
Qed.
End planner_failures.

Lemma failsPlain_NodeID fuel g id : failsPlain (toposortGenerateGraphNodeID fuel g id).
Proof.
  revert id. induction fuel as [|fuel IH]; intros id tp e tp'; simpl; [done|].
  destruct (outputs tp !! id); [done|].
  destruct (nodes g !! id) as [current|]; [|done].
  pose proof (failsPlain_GraphNode _ g IH current (set_pending (union {[id]}) tp))
    as H.
  destruct (toposortGenerateGraphNode _ _ _ _) as [[p| | |] tp2]; try done.
  intros [= <- <-]. by eapply H.
Qed.

Lemma toposort_Fail_plain fuel g invokes e :
  toposort fuel g invokes = Fail e -> plain e.
Proof.
  unfold toposort, toposortState.
  destruct (forEach _ _ _) as [[[]| | |] tp] eqn:E; try done.
  intros [= <-]. revert E. apply failsPlain_forEach. intros root.
  apply failsPlain_bind; [|intros; by apply failsPlain_Ok].
  apply failsPlain_GraphNode. intros id. apply failsPlain_NodeID.
Qed.

Lemma Single_cyclic nodeID g item slot n tp :
  slotsOf (provide g) item = [slot] ->
  slot_id slot ∈ pending tp ->
  nodes g !! slot_id slot = Some n ->
  toposortGenerateSingle nodeID g item tp
  = (Fail (cyclicDependency (graphNode_String n (slot_id slot)) item), tp).
Proof.
  intros Hs Hp Hn. unfold toposortGenerateSingle. rewrite Hs, bind_get.
  rewrite decide_True by done. by rewrite Hn.
Qed.

Lemma run_user_Fail fuel rs uparams uresult action rest inp buf err rs2 :
  rs_pending rs = graphUserNode uparams uresult action :: rest ->
  loadBuf (rs_store rs) uparams = Some inp ->
  loadBuf (rs_store rs) uresult = Some buf ->
  runExec (run fuel) (exec action) inp uresult
    (log_trace action (set_rs_pending rest rs)) = (Fail err, rs2) ->
  run (S fuel) rs = (Fail (ErrExecute (default "" (ra_format action)) err), rs2).
Proof.
  intros Hp Hi Hb He. simpl. rewrite Hp. simpl. by rewrite Hi, Hb, He.
Qed.

Lemma run_Fail_ErrExecute fuel : ∀ rs e rs',
  run fuel rs = (Fail e, rs') -> ∃ label err, e = ErrExecute label err.
Proof.
  induction fuel as [|fuel IH]; intros rs e rs'; simpl.
  { by destruct (rs_pending rs). }
  destruct (rs_pending rs) as [|node rest]; [done|].
  destruct node as [uparams uresult action|items res|items res].
  - destruct (loadBuf _ uparams); [|done]. destruct (loadBuf _ uresult); [|done].
    destruct (runExec _ _ _ _ _) as [[[]| | |] rs2]; try done.
    + apply IH.
    + intros [= <- <-]. eauto.
  - destruct (execute _ _); [apply IH|done].
  - destruct (execute _ _); [apply IH|done].
Qed.



(** ** Planning does not terminate on a cycle through groups (C10) *)

Lemma bind_OutOfFuel {A B} (m : planM A) (k : A -> planM B) tp :
  (m tp).1 = OutOfFuel -> (bind m k tp).1 = OutOfFuel.
Proof. unfold bind. by destruct (m tp) as [[a| | |] tp1]. Qed.

Lemma Grouped_OutOfFuel nodeID g key slot rest tp :
  grouped tp !! key = None ->
  slotsOf (provide g) key = slot :: rest ->
  (nodeID (slot_id slot) (push_store (ExecutionParam [MakeSlice (typ key)]) tp)).1
  = OutOfFuel ->
  (toposortGenerateGrouped nodeID g key tp).1 = OutOfFuel.
Proof.
  intros Hk Hs Hn. unfold toposortGenerateGrouped.
  rewrite bind_get, Hk, bind_alloc, Hs. simpl.
  apply bind_OutOfFuel, bind_OutOfFuel. unfold groupedItem.
  by apply bind_OutOfFuel.
Qed.

Lemma GraphNode_group_OutOfFuel nodeID g current spec specs slot rest tp :
  input current = spec :: specs ->
  Group spec = true ->
  grouped tp !! extractGraphKey spec = None ->
  slotsOf (provide g) (extractGraphKey spec) = slot :: rest ->
  (∀ tp', grouped tp' = grouped tp -> outputs tp' = outputs tp ->
          (nodeID (slot_id slot) tp').1 = OutOfFuel) ->
  (toposortGenerateGraphNode nodeID g current tp).1 = OutOfFuel.
Proof.
  intros Hin Hg Hk Hs Hn. unfold toposortGenerateGraphNode.
  rewrite bind_alloc, Hin. simpl.
  apply bind_OutOfFuel, bind_OutOfFuel. unfold baseStep.
  apply bind_OutOfFuel. unfold toposortGenerateBaseCollect.
  apply bind_OutOfFuel. simpl. rewrite Hg.
  eapply Grouped_OutOfFuel; [done|done|]. by apply Hn.
Qed.

Lemma NodeID_step_OutOfFuel fuel g id tp current :
  outputs tp !! id = None ->
  nodes g !! id = Some current ->
  (toposortGenerateGraphNode (toposortGenerateGraphNodeID fuel g) g current
     (set_pending (union {[id]}) tp)).1 = OutOfFuel ->
  (toposortGenerateGraphNodeID (S fuel) g id tp).1 = OutOfFuel.
Proof.
  intros Ho Hn. simpl. rewrite Ho, Hn.
  by destruct (toposortGenerateGraphNode _ _ _ _) as [[p| | |] tp2].
Qed.

Lemma groupCycle_diverges fuel : ∀ tp,
  groupCycleOpen tp ->
  (toposortGenerateGraphNodeID fuel groupCycle 0 tp).1 = OutOfFuel
  ∧ (toposortGenerateGraphNodeID fuel groupCycle 1 tp).1 = OutOfFuel.
Proof.
  induction fuel as [|fuel IH]; intros tp (HI & HJ & H0 & H1); [done|].
  split.
  - eapply NodeID_step_OutOfFuel; [done|reflexivity|].
    eapply (GraphNode_group_OutOfFuel _ groupCycle _ groupI [] (Slot 1 0) []);
      try done.
    intros tp' Hg Ho. apply IH. unfold groupCycleOpen. by rewrite Hg, Ho.
  - eapply NodeID_step_OutOfFuel; [done|reflexivity|].
    eapply (GraphNode_group_OutOfFuel _ groupCycle _ groupJ [] (Slot 0 0) []);
      try done.
    intros tp' Hg Ho. apply IH. unfold groupCycleOpen. by rewrite Hg, Ho.
Qed.

(** C10 fails on the code. On the two-node cycle through the groups
    [[]I] and [[]J], [toposort] returns neither a plan nor an error: with
    any amount of fuel the recursion is still descending when the fuel
    runs out. *)
Theorem C10_group_cycle_never_returns :
  ∀ fuel, toposort fuel groupCycle [groupCycleRoot] = OutOfFuel.
Proof.
  intros fuel. unfold toposort, toposortState. simpl.
  assert ((rootStep fuel groupCycle groupCycleRoot newGraphToposort).1 = OutOfFuel)
    as H.
  { unfold rootStep. apply bind_OutOfFuel.
    eapply (GraphNode_group_OutOfFuel _ groupCycle groupCycleRoot groupI []
              (Slot 1 0) []); try done.
    intros tp' Hg Ho. apply groupCycle_diverges.
    unfold groupCycleOpen. rewrite Hg, Ho. done. }
  unfold bind. by destruct (rootStep _ _ _ _) as [[[]| | |] tp].
Qed.

(** ** Concrete instances *)




(** ** The stack continuation drains the queue (C5) *)

Lemma run_nil fuel rs : rs_pending rs = [] -> run fuel rs = (Ok (), rs).
Proof. intros H. destruct fuel; simpl; by rewrite H. Qed.

Lemma copyOut_pending out output rs :
  rs_pending (copyOut out output rs) = rs_pending rs.
Proof. unfold copyOut. by destruct (loadBuf _ _). Qed.

Lemma copyOut_events out output rs :
  rs_events (copyOut out output rs) = rs_events rs.
Proof. unfold copyOut. by destruct (loadBuf _ _). Qed.

Lemma copyOut_trace out output rs :
  rs_trace (copyOut out output rs) = rs_trace rs.
Proof. unfold copyOut. by destruct (loadBuf _ _). Qed.

Lemma copyOut_load out output rs buf :
  loadBuf (rs_store rs) out = Some buf ->
  loadBuf (rs_store (copyOut out output rs)) out = Some (copy buf output).
Proof.
  intros H. unfold copyOut. rewrite H. simpl. by eapply loadBuf_storeBuf_eq.
Qed.

Lemma run_Ok_drains fuel : ∀ rs rs',
  run fuel rs = (Ok (), rs') -> rs_pending rs' = [].
Proof.
  induction fuel as [|fuel IH]; intros rs rs'; simpl.
  { destruct (rs_pending rs) eqn:E; [|done]. by intros [= <-]. }
  destruct (rs_pending rs) as [|node rest] eqn:E; [by intros [= <-]|].
  destruct node as [uparams uresult action|items res|items res].
  - destruct (loadBuf _ uparams); [|done]. destruct (loadBuf _ uresult); [|done].
    destruct (runExec _ _ _ _ _) as [[[]| | |] rs2]; try done. apply IH.
  - destruct (execute _ _); [apply IH|done].
  - destruct (execute _ _); [apply IH|done].
Qed.

Section conservation.
Variable rsrun : runState -> outcome unit * runState.
Hypothesis rsrun_conserves : ∀ rs r rs',
  rsrun rs = (r, rs') -> returns r ->
  rs_trace rs' ++ userActions (rs_pending rs')
  = rs_trace rs ++ userActions (rs_pending rs).

Lemma runStack_conserves out prog : ∀ rs r rs',
  runStack rsrun out prog rs = (r, rs') -> returns r ->
  rs_trace rs' ++ userActions (rs_pending rs')
  = rs_trace rs ++ userActions (rs_pending rs).
Proof.
  induction prog as [err|ev k IH|output k IH]; intros rs r rs'; simpl.
  - by intros [= <- <-].
  - intros H Hr. by rewrite (IH _ _ _ H Hr).
  - destruct (rsrun (copyOut out output rs)) as [[[]| | |] rs1] eqn:E; try done.
    + intros H Hr. rewrite (IH _ _ _ _ H Hr), (rsrun_conserves _ _ _ E I).
      by rewrite copyOut_trace, copyOut_pending.
    + intros H Hr. rewrite (IH _ _ _ _ H Hr), (rsrun_conserves _ _ _ E I).
      by rewrite copyOut_trace, copyOut_pending.
    + by intros [= <- <-].
    + by intros [= <- <-].
Qed.

Lemma runExec_conserves e inp out rs r rs' :
  runExec rsrun e inp out rs = (r, rs') -> returns r ->
  rs_trace rs' ++ userActions (rs_pending rs')
  = rs_trace rs ++ userActions (rs_pending rs).
Proof.
  destruct e as [f|values|f|f|ptrs]; simpl.
  - destruct (f inp) as [evs [output [err|]]]; intros [= <- <-] _; simpl; [done|].
    by rewrite copyOut_trace, copyOut_pending.
  - intros [= <- <-] _. by rewrite copyOut_trace, copyOut_pending.
  - apply runStack_conserves.
  - destruct (f inp) as [evs err]. by intros [= <- <-] _.
  - destruct (populate _ _ _ _); by intros [= <- <-].
Qed.
End conservation.

Lemma run_conserves fuel : ∀ rs r rs',
  run fuel rs = (r, rs') -> returns r ->
  rs_trace rs' ++ userActions (rs_pending rs')
  = rs_trace rs ++ userActions (rs_pending rs).
Proof.
  induction fuel as [|fuel IH]; intros rs r rs'; simpl.
  { destruct (rs_pending rs) eqn:E; intros [= <- <-]; [by rewrite E|done]. }
  destruct (rs_pending rs) as [|node rest] eqn:E;
    [intros [= <- <-]; by rewrite E|].
  destruct node as [uparams uresult action|items res|items res].
  - destruct (loadBuf _ uparams); [|by intros [= <- <-]].
    destruct (loadBuf _ uresult); [|by intros [= <- <-]].
    destruct (runExec _ _ _ _ _) as [[[]| | |] rs2] eqn:Ex.
    + intros H Hr. rewrite (IH _ _ _ H Hr).
      rewrite (runExec_conserves _ IH _ _ _ _ _ _ Ex I). simpl.
      by rewrite <- app_assoc.
    + intros [= <- <-] _.
      rewrite (runExec_conserves _ IH _ _ _ _ _ _ Ex I). simpl.
      by rewrite <- app_assoc.
    + by intros [= <- <-].
    + by intros [= <- <-].
  - destruct (execute _ _); [|by intros [= <- <-]].
    intros H Hr. by rewrite (IH _ _ _ H Hr).
  - destruct (execute _ _); [|by intros [= <- <-]].
    intros H Hr. by rewrite (IH _ _ _ H Hr).
Qed.

Lemma run_Ok_trace fuel rs rs' :
  run fuel rs = (Ok (), rs') ->
  rs_pending rs' = [] ∧ rs_trace rs' = rs_trace rs ++ userActions (rs_pending rs).
Proof.
  intros H. pose proof (run_Ok_drains _ _ _ H) as Hd. split; [done|].
  pose proof (run_conserves _ _ _ _ H I) as Hc.
  by rewrite Hd, app_nil_r in Hc.
Qed.

Lemma run_events_shapes fuel : ∀ rs shapes rs',
  Forall2 stepShape (rs_pending rs) shapes ->
  run fuel rs = (Ok (), rs') ->
  rs_events rs' = rs_events rs ++ expectedEvents shapes.
Proof.
  induction fuel as [|fuel IH]; intros rs shapes rs' HF; simpl.
  { destruct (rs_pending rs) eqn:E; [|done]. intros [= <-].
    apply Forall2_nil_inv_l in HF as ->. simpl. by rewrite app_nil_r. }
  destruct (rs_pending rs) as [|node rest] eqn:E.
  { intros [= <-]. apply Forall2_nil_inv_l in HF as ->. simpl.
    by rewrite app_nil_r. }
  apply Forall2_cons_inv_l in HF as (s & shapes' & Hs & HF & ->).
  destruct node as [uparams uresult action|items res|items res]; simpl in Hs.
  - destruct (loadBuf _ uparams) as [inp|]; [|done].
    destruct (loadBuf _ uresult) as [buf|]; [|done].
    destruct (exec action) as [f|values|f|f|ptrs] eqn:Ea; simpl.
    + destruct s as [| evs |]; try done. specialize (Hs inp).
      destruct (f inp) as [evs' [output [err|]]]; [done|]. simpl in Hs. subst evs'.
      intros H. eapply IH in H; [|by rewrite copyOut_pending].
      rewrite H, copyOut_events. simpl. by rewrite <- app_assoc.
    + destruct s as [| evs |]; try done. simpl in Hs. subst evs.
      intros H. eapply IH in H; [|by rewrite copyOut_pending].
      by rewrite H, copyOut_events.
    + destruct s as [enter exit| |]; try done. destruct (Hs inp) as [output ->].
      simpl.
      destruct (run fuel _) as [[[]| | |] rs2] eqn:Er; simpl; try done.
      pose proof (run_Ok_drains _ _ _ Er) as Hd.
      rewrite run_nil by done. intros [= <-]. simpl.
      eapply IH in Er; [|by rewrite copyOut_pending].
      rewrite Er, copyOut_events. simpl. by rewrite <- !app_assoc.
    + destruct s as [| evs |]; try done. specialize (Hs inp).
      destruct (f inp) as [evs' [err|]]; [done|]. simpl in Hs. subst evs'.
      intros H. eapply IH in H; [|done]. rewrite H. simpl.
      by rewrite <- app_assoc.
    + destruct s as [| evs |]; try done. simpl in Hs. subst evs.
      destruct (populate _ _ _ _); [|done].
      intros H. eapply IH in H; [|done]. by rewrite H.
  - subst s. destruct (execute _ _); [|done]. intros H.
    eapply IH in H; [|done]. by rewrite H.
  - subst s. destruct (execute _ _); [|done]. intros H.
    eapply IH in H; [|done]. by rewrite H.
Qed.

(** ** The runner needs one unit of fuel per pending step *)

Section adequacy.
Variable rsrun : runState -> outcome unit * runState.
Variable n : nat.
Hypothesis rsrun_adequate : ∀ rs,
  (length (rs_pending rs) ≤ n)%nat ->
  (rsrun rs).1 ≠ OutOfFuel
  ∧ (length (rs_pending (rsrun rs).2) ≤ length (rs_pending rs))%nat.

Lemma runStack_adequate out prog : ∀ rs,
  (length (rs_pending rs) ≤ n)%nat ->
  (runStack rsrun out prog rs).1 ≠ OutOfFuel
  ∧ (length (rs_pending (runStack rsrun out prog rs).2)
     ≤ length (rs_pending rs))%nat.
Proof.
  induction prog as [err|ev k IH|output k IH]; intros rs Hn; simpl.
  - split; [by destruct err|done].
  - apply (IH (log_events [ev] rs)). exact Hn.
  - pose proof (rsrun_adequate (copyOut out output rs)) as Hr.
    rewrite copyOut_pending in Hr. specialize (Hr Hn).
    destruct (rsrun (copyOut out output rs)) as [[[]| e | msg |] rs1];
      simpl in Hr; destruct Hr as [Hr1 Hr2].
    + destruct (IH None rs1) as [H1 H2]; [lia|]. split; [done|lia].
    + destruct (IH (Some e) rs1) as [H1 H2]; [lia|]. split; [done|lia].
    + done.
    + done.
Qed.

Lemma runExec_adequate e inp out rs :
  (length (rs_pending rs) ≤ n)%nat ->
  (runExec rsrun e inp out rs).1 ≠ OutOfFuel
  ∧ (length (rs_pending (runExec rsrun e inp out rs).2)
     ≤ length (rs_pending rs))%nat.
Proof.
  intros Hn. destruct e as [f|values|f|f|ptrs]; simpl.
  - destruct (f inp) as [evs [output [err|]]]; simpl; [done|].
    by rewrite copyOut_pending.
  - by rewrite copyOut_pending.
  - by apply runStack_adequate.
  - destruct (f inp) as [evs [err|]]; done.
  - destruct (populate _ _ _ _); done.
Qed.
End adequacy.

Lemma run_adequate fuel : ∀ rs,
  (length (rs_pending rs) ≤ fuel)%nat ->
  (run fuel rs).1 ≠ OutOfFuel
  ∧ (length (rs_pending (run fuel rs).2) ≤ length (rs_pending rs))%nat.
Proof.
  induction fuel as [|fuel IH]; intros rs Hn; simpl.
  { destruct (rs_pending rs) eqn:E; simpl in Hn; [simpl; by rewrite E|lia]. }
  destruct (rs_pending rs) as [|node rest] eqn:E; [simpl; by rewrite E|].
  simpl in Hn.
  destruct node as [uparams uresult action|items res|items res].
  - destruct (loadBuf _ uparams); [|simpl; split; [done|simpl; lia]].
    destruct (loadBuf _ uresult); [|simpl; split; [done|simpl; lia]].
    pose proof (runExec_adequate (run fuel) fuel IH (exec action) l uresult
                  (log_trace action (set_rs_pending rest rs))) as Hx.
    simpl in Hx. specialize (Hx ltac:(lia)).
    destruct (runExec _ _ _ _ _) as [[[]| | |] rs2]; simpl in Hx;
      destruct Hx as [Hx1 Hx2]; try (simpl; split; [done|simpl; lia]).
    destruct (IH rs2) as [H1 H2]; [lia|]. split; [done|simpl; lia].
  - destruct (execute _ _); [|simpl; split; [done|simpl; lia]].
    destruct (IH (set_rs_store l (set_rs_pending rest rs))) as [H1 H2];
      [simpl; lia|]. simpl in H2. split; [done|simpl; lia].
  - destruct (execute _ _); [|simpl; split; [done|simpl; lia]].
    destruct (IH (set_rs_store l (set_rs_pending rest rs))) as [H1 H2];
      [simpl; lia|]. simpl in H2. split; [done|simpl; lia].
Qed.

Lemma expectedEvents_brackets (l : list (string * string)) :
  expectedEvents (map (λ ex, Bracket ex.1 ex.2) l)
  = map fst l ++ rev (map snd l).
Proof.
  induction l as [|[e x] l IH]; simpl; [done|].
  by rewrite IH, <- app_assoc.
Qed.


(** ** Planning failures abort planning (C9) *)

Section planner_strict.
Variable nodeID : nat -> planM ptr.
Variable g : graph.
Hypothesis nodeID_frames : ∀ id, frames (nodeID id).
Hypothesis nodeID_cached : ∀ id tp p e tp',
  outputs tp !! id = Some p -> nodeID id tp ≠ (Fail e, tp').
Hypothesis nodeID_records : ∀ id tp p tp',
  nodeID id tp = (Ok p, tp') -> outputs tp' !! id = Some p.

Lemma resolvedKey_ext tp tp' key :
  resolvedKey g tp key -> ext tp tp' -> resolvedKey g tp' key.
Proof.
  unfold resolvedKey. intros H E. destruct (group key).
  - destruct H as [b H]. exists b. eapply lookup_weaken; [done|apply E].
  - destruct H as (slot & Hs & Hp & [p Ho]). exists slot. split; [done|]. split.
    + intros Hin. apply Hp. by apply (ext_pending _ _ E).
    + exists p. eapply lookup_weaken; [done|apply E].
Qed.

Lemma Single_Ok_resolved key tp c tp' :
  group key = false ->
  toposortGenerateSingle nodeID g key tp = (Ok c, tp') -> resolvedKey g tp' key.
Proof.
  intros Hg. unfold toposortGenerateSingle, resolvedKey. rewrite Hg.
  destruct (slotsOf (provide g) key) as [|slot [|??]]; try done.
  rewrite bind_get. case_decide as Hp.
  { by destruct (nodes g !! _). }
  intros (p & tp1 & Hn & [= <- <-])%bind_Ok.
  exists slot. split; [done|]. split.
  - intros Hin. apply Hp. pose proof (nodeID_frames (slot_id slot) tp) as E.
    rewrite Hn in E. by apply (ext_pending _ _ E).
  - exists p. by eapply nodeID_records.
Qed.

Lemma Grouped_Ok_resolved key tp c tp' :
  group key = true ->
  toposortGenerateGrouped nodeID g key tp = (Ok c, tp') -> resolvedKey g tp' key.
Proof.
  intros Hg. unfold toposortGenerateGrouped, resolvedKey. rewrite Hg, bind_get.
  destruct (grouped tp !! key) eqn:Hk.
  { intros [= <- <-]. by rewrite Hk. }
  rewrite bind_alloc. intros (items & tp1 & _ & H)%bind_Ok.
  rewrite bind_emit, bind_modify in H. injection H as <- <-. simpl.
  by rewrite lookup_insert_eq.
Qed.

Lemma resolvedKey_decorating tp key f :
  resolvedKey g tp key -> resolvedKey g (set_decorating f tp) key.
Proof. done. Qed.

Lemma BaseCollect_Ok_resolved key tp c tp' :
  toposortGenerateBaseCollect nodeID g key tp = (Ok c, tp') -> resolvedKey g tp' key.
Proof.
  unfold toposortGenerateBaseCollect. intros (base & tp1 & Hb & H)%bind_Ok.
  assert (resolvedKey g tp1 key) as Hr.
  { destruct (group key) eqn:Hg;
      [by eapply Grouped_Ok_resolved|by eapply Single_Ok_resolved]. }
  destruct (slotsOf (decorate g) key); [by injection H as <- <-|].
  rewrite bind_get in H. destruct (decorated tp1 !! key); [by injection H as <- <-|].
  rewrite bind_get in H. destruct (decorating tp1 !! key); [by injection H as <- <-|].
  rewrite bind_modify in H. by injection H as <- <-.
Qed.

Lemma BaseCollect_resolved_not_Fail key tp e tp' :
  resolvedKey g tp key ->
  toposortGenerateBaseCollect nodeID g key tp ≠ (Fail e, tp').
Proof.
  unfold resolvedKey, toposortGenerateBaseCollect. intros Hr.
  assert (∀ e tp', (if group key then toposortGenerateGrouped nodeID g key
                    else toposortGenerateSingle nodeID g key) tp ≠ (Fail e, tp'))
    as Hbase.
  { clear e tp'. intros e tp'. destruct (group key).
    - destruct Hr as [b Hb]. unfold toposortGenerateGrouped.
      by rewrite bind_get, Hb.
    - destruct Hr as (slot & Hs & Hp & [p Ho]). unfold toposortGenerateSingle.
      rewrite Hs, bind_get, decide_False by done. unfold bind.
      pose proof (nodeID_cached (slot_id slot) tp p) as Hc.
      destruct (nodeID (slot_id slot) tp) as [[q| | |] tp1]; try done.
      intros [= -> ->]. by eapply Hc. }
  set (m := if group key then toposortGenerateGrouped nodeID g key
            else toposortGenerateSingle nodeID g key) in *.
  unfold bind at 1. destruct (m tp) as [[base| | |] tp1] eqn:E; try done.
  - destruct (slotsOf (decorate g) key); [done|]. rewrite bind_get.
    destruct (decorated tp1 !! key); [done|]. rewrite bind_get.
    by destruct (decorating tp1 !! key).
Qed.

Lemma Collect_strict_resolved spec tp :
  resolvedKey g tp (extractGraphKey spec) ->
  toposortGenerateCollect nodeID g spec tp
  = toposortGenerateCollect_strict nodeID g spec tp.
Proof.
  intros Hr. unfold toposortGenerateCollect, toposortGenerateCollect_strict, bind.
  pose proof (λ e tp', BaseCollect_resolved_not_Fail _ tp e tp' Hr) as Hn.
  destruct (toposortGenerateBaseCollect _ _ _ _) as [[base| | |] tp1]; try done.
  by edestruct Hn.
Qed.

Lemma pass1_resolves specs : ∀ tp tp',
  forEach specs (baseStep nodeID g) tp = (Ok (), tp') ->
  Forall (λ spec, resolvedKey g tp' (extractGraphKey spec)) specs.
Proof.
  induction specs as [|spec specs IH]; intros tp tp'; simpl; [constructor|].
  intros ([] & tp1 & H1 & H2)%bind_Ok. constructor; [|by eapply IH].
  unfold baseStep in H1. apply bind_Ok in H1 as (c & tp0 & Hb & [= <-]).
  apply BaseCollect_Ok_resolved in Hb.
  eapply resolvedKey_ext; [done|].
  pose proof (frames_forEach specs _ (frames_baseStep nodeID g nodeID_frames) tp0)
    as E. by rewrite H2 in E.
Qed.

Lemma pass2_strict specs : ∀ tp,
  Forall (λ spec, resolvedKey g tp (extractGraphKey spec)) specs ->
  collectEach specs (toposortGenerateCollect nodeID g) tp
  = collectEach specs (toposortGenerateCollect_strict nodeID g) tp.
Proof.
  induction specs as [|spec specs IH]; intros tp HF; simpl; [done|].
  apply Forall_cons in HF as [Hr HF].
  rewrite <- (bind_cong_l _ _ _ _ (Collect_strict_resolved _ _ Hr)).
  apply bind_cong. intros c tp1 Hc. apply bind_cong_l, IH.
  pose proof (frames_Collect nodeID g nodeID_frames spec tp) as E.
  rewrite Hc in E. simpl in E.
  eapply Forall_impl; [exact HF|]. intros s Hs. simpl in Hs.
  eapply resolvedKey_ext; [exact Hs|exact E].
Qed.

Lemma GraphNode_strict_eq current tp :
  toposortGenerateGraphNode nodeID g current tp
  = toposortGenerateGraphNode_strict nodeID g current tp.
Proof.
  unfold toposortGenerateGraphNode, toposortGenerateGraphNode_strict.
  rewrite !bind_alloc. apply bind_cong. intros [] tp1 H1.
  apply bind_cong_l, pass2_strict. by eapply pass1_resolves.
Qed.

(** Once the first pass over the inputs has succeeded, the base collect
    of none of them can fail any more. *)
Lemma pass2_base_never_fails specs tp tp1 spec tp2 e tp3 :
  forEach specs (baseStep nodeID g) tp = (Ok (), tp1) ->
  spec ∈ specs -> ext tp1 tp2 ->
  toposortGenerateBaseCollect nodeID g (extractGraphKey spec) tp2 ≠ (Fail e, tp3).
Proof.
  intros H1 Hin E. apply BaseCollect_resolved_not_Fail.
  eapply resolvedKey_ext; [|done].
  by apply (proj1 (Forall_forall _ _) (pass1_resolves _ _ _ H1)).
Qed.
End planner_strict.

Lemma NodeID_cached_not_Fail fuel g id tp p e tp' :
  outputs tp !! id = Some p ->
  toposortGenerateGraphNodeID fuel g id tp ≠ (Fail e, tp').
Proof. intros H. destruct fuel; simpl; [done|]. by rewrite H. Qed.

Lemma NodeID_strict_eq fuel g :
  toposortGenerateGraphNodeID fuel g = toposortGenerateGraphNodeID_strict fuel g.
Proof.
  induction fuel as [|fuel IH]; [done|].
  extensionality id. extensionality tp. simpl.
  destruct (outputs tp !! id); [done|]. destruct (nodes g !! id); [|done].
  rewrite <- IH.
  by rewrite (GraphNode_strict_eq _ g (frames_NodeID fuel g)
                (NodeID_cached_not_Fail fuel g) (NodeID_Ok_outputs fuel g)).
Qed.

Lemma rootStep_strict_eq fuel g : rootStep fuel g = rootStep_strict fuel g.
Proof.
  extensionality root. extensionality tp. unfold rootStep, rootStep_strict.
  rewrite <- NodeID_strict_eq. apply bind_cong_l.
  apply (GraphNode_strict_eq _ g (frames_NodeID fuel g)
           (NodeID_cached_not_Fail fuel g) (NodeID_Ok_outputs fuel g)).
Qed.

Lemma toposort_strict_eq fuel g invokes :
  toposort fuel g invokes = toposort_strict fuel g invokes.
Proof.
  unfold toposort, toposort_strict, toposortState. by rewrite rootStep_strict_eq.
Qed.

Lemma forEach_Fail_at {A} (xs ys : list A) x body tp tp1 e tp2 :
  forEach xs body tp = (Ok (), tp1) ->
  body x tp1 = (Fail e, tp2) ->
  forEach (xs ++ x :: ys) body tp = (Fail e, tp2).
Proof.
  revert tp. induction xs as [|x' xs IH]; intros tp; simpl.
  - intros [= <-] H. by apply bind_Fail.
  - intros ([] & tp0 & H0 & H)%bind_Ok Hx. rewrite (bind_step _ _ _ _ _ H0).
    by apply IH.
Qed.

Lemma Run_planning_Fail fuel opts e :
  toposort fuel (opt_g (buildOptions opts)) (consumers (buildOptions opts)) = Fail e ->
  Run fuel opts = (Fail e, idleState).
Proof. unfold Run. by intros ->. Qed.



(** ** Scheduling invariants *)

Section dependency_facts.
Variable g : graph.

Lemma stuck_closed : closedSet g (stuck g).
Proof.
  intros id (X & HX & Hid). destruct (HX id Hid) as (n & id' & Hn & Hd & Hx).
  exists n, id'. split; [done|]. split; [done|]. by exists X.
Qed.

Lemma reachFrom_dep n t id' :
  dependsOn g n t -> reachFrom g t id' -> reaches g n id'.
Proof.
  intros Hd [->|(n1 & Hn1 & Hr)]; [by apply reaches_dep|].
  by eapply reaches_via.
Qed.

(** A node that reaches itself is stuck, with everything that reaches it. *)
Lemma reaches_stuck id n : nodes g !! id = Some n -> reaches g n id -> stuck g id.
Proof.
  intros Hn Hr.
  exists (λ j, ∃ nj, nodes g !! j = Some nj ∧ reaches g nj id). split; [|eauto].
  intros j (nj & Hnj & Hj). exists nj.
  destruct Hj as [nj id Hd|nj id1 n1 id Hd Hn1 Hr1].
  - exists id. split; [done|]. split; [done|]. eauto.
  - exists id1. split; [done|]. split; [done|]. eauto.
Qed.

(** Whatever reaches a stuck node depends on a stuck node. *)
Lemma reaches_stuck_dep n id :
  reaches g n id -> stuck g id -> ∃ id', dependsOn g n id' ∧ stuck g id'.
Proof.
  intros Hr Hs. destruct Hr as [n id Hd|n id1 n1 id Hd Hn1 Hr1]; [eauto|].
  exists id1. split; [done|].
  exists (λ j, stuck g j ∨ ∃ nj, nodes g !! j = Some nj ∧ reaches g nj id).
  split; [|right; eauto].
  intros j [Hj|(nj & Hnj & Hj)].
  - destruct (stuck_closed j Hj) as (nj & j' & ? & ? & ?). exists nj, j'. eauto.
  - exists nj. destruct Hj as [nj id Hd'|nj id2 n2 id Hd' Hn2 Hr2].
    + exists id. eauto.
    + exists id2. split; [done|]. split; [done|]. right. eauto.
Qed.

Lemma untouched_local tp tp' :
  outputs tp' = outputs tp -> grouped tp' = grouped tp ->
  decorated tp' = decorated tp -> untouched g tp -> untouched g tp'.
Proof. intros Ho Hg Hd [U1 U2 U3]. split; rewrite ?Ho, ?Hg, ?Hd; done. Qed.

Lemma complete_local tp tp' :
  outputs tp' = outputs tp -> grouped tp' = grouped tp ->
  decorated tp' = decorated tp -> complete g tp -> complete g tp'.
Proof. intros Ho Hg Hd [C1 C2 C3 C4]. split; rewrite ?Ho, ?Hg, ?Hd; done. Qed.

Lemma scheduled_same tp tp' :
  outputs tp' = outputs tp ->
  userActions (result tp') = userActions (result tp) ->
  scheduled g tp tp' [].
Proof.
  intros Ho Hr. split; simpl.
  - by rewrite Hr, app_nil_r.
  - constructor.
  - by intros id ?%elem_of_nil.
  - intros id. rewrite Ho. split; [by left|]. by intros [?|?%elem_of_nil].
Qed.

Lemma scheduled_trans tp tp1 tp2 new1 new2 :
  scheduled g tp tp1 new1 -> scheduled g tp1 tp2 new2 ->
  scheduled g tp tp2 (new1 ++ new2).
Proof.
  intros [A1 N1 F1 O1] [A2 N2 F2 O2]. split.
  - by rewrite A2, A1, omap_app, app_assoc.
  - apply NoDup_app. split; [done|]. split; [|done].
    intros id H1 H2. apply F2 in H2.
    assert (is_Some (outputs tp1 !! id)) as [? Hs] by (apply O1; by right).
    congruence.
  - intros id [H|H]%elem_of_app; [by apply F1|].
    apply F2 in H. destruct (outputs tp !! id) eqn:E; [|done].
    assert (is_Some (outputs tp1 !! id)) as [? Hs] by (apply O1; left; eauto).
    congruence.
  - intros id. rewrite O2, O1, elem_of_app. tauto.
Qed.

Lemma visits_same tp tp' T :
  untouched g tp' -> complete g tp' ->
  outputs tp' = outputs tp ->
  userActions (result tp') = userActions (result tp) ->
  visits g tp tp' T.
Proof.
  intros U C Ho Hr. split; [done|]. split; [done|]. exists [].
  split; [by apply scheduled_same|]. by intros id ?%elem_of_nil.
Qed.

Lemma visits_trans tp tp1 tp2 T1 T2 :
  visits g tp tp1 T1 -> visits g tp1 tp2 T2 ->
  visits g tp tp2 (λ t, T1 t ∨ T2 t).
Proof.
  intros (_ & _ & new1 & S1 & R1) (U & C & new2 & S2 & R2).
  split; [done|]. split; [done|]. exists (new1 ++ new2).
  split; [by eapply scheduled_trans|].
  intros id [H|H]%elem_of_app.
  - destruct (R1 id H) as (t & ? & ?). eauto.
  - destruct (R2 id H) as (t & ? & ?). eauto.
Qed.

Lemma visits_weaken tp tp' (T T' : nat -> Prop) :
  (∀ t, T t -> T' t) -> visits g tp tp' T -> visits g tp tp' T'.
Proof.
  intros HT (U & C & new & S & R). split; [done|]. split; [done|].
  exists new. split; [done|]. intros id H. destruct (R id H) as (t & ? & ?). eauto.
Qed.

(** Bookkeeping after a step: outputs and user actions are as the step
    left them. *)
Lemma visits_then tp tp1 tp2 T :
  visits g tp tp1 T ->
  outputs tp2 = outputs tp1 ->
  userActions (result tp2) = userActions (result tp1) ->
  untouched g tp2 -> complete g tp2 ->
  visits g tp tp2 T.
Proof.
  intros V Ho Hr U C.
  eapply visits_weaken; [|eapply visits_trans; [exact V|by apply visits_same]].
  intros t [?|?]; done.
Qed.

Lemma settled_mono tp tp' T :
  settled g tp T -> outputs tp ⊆ outputs tp' -> settled g tp' T.
Proof.
  intros H Hsub t Ht. destruct (H t Ht) as [? [p Hp]]. split; [done|].
  exists p. by eapply lookup_weaken.
Qed.

Lemma userActions_snoc_plumbing plan n :
  (∀ p r a, n ≠ graphUserNode p r a) ->
  userActions (plan ++ [n]) = userActions plan.
Proof.
  intros Hn. unfold userActions. rewrite omap_app. simpl.
  destruct n; [by edestruct Hn|..]; simpl; by rewrite app_nil_r.
Qed.

Lemma userActions_snoc_user plan p r a :
  userActions (plan ++ [graphUserNode p r a]) = userActions plan ++ [a].
Proof. unfold userActions. by rewrite omap_app. Qed.
End dependency_facts.

Section planner_visits.
Variable nodeID : nat -> planM ptr.
Variable g : graph.
Hypothesis nodeID_frames : ∀ id, frames (nodeID id).
Hypothesis nodeID_records : ∀ id tp p tp',
  nodeID id tp = (Ok p, tp') -> outputs tp' !! id = Some p.
Hypothesis nodeID_visits : ∀ id tp p tp',
  untouched g tp -> complete g tp -> nodeID id tp = (Ok p, tp') ->
  visits g tp tp' (eq id) ∧ ¬ stuck g id.

Lemma groupedItem_loop_visits slots : ∀ tp items tp',
  untouched g tp -> complete g tp ->
  collectEach slots (groupedItem nodeID) tp = (Ok items, tp') ->
  visits g tp tp' (slotTargets slots) ∧ settled g tp' (slotTargets slots).
Proof.
  induction slots as [|slot slots IH]; intros tp items tp' U C; simpl.
  { intros [= <- <-]. split; [by apply visits_same|].
    by intros t (s & ?%elem_of_nil & _). }
  intros (c & tp1 & Hc & H)%bind_Ok.
  apply bind_Ok in H as (cs & tp2 & Hcs & [= <- <-]).
  unfold groupedItem in Hc. apply bind_Ok in Hc as (p & tp0 & Hp & [= <- <-]).
  destruct (nodeID_visits _ _ _ _ U C Hp) as [V1 Hns].
  destruct (IH _ _ _ (proj1 V1) (proj1 (proj2 V1)) Hcs) as [V2 S2].
  pose proof (frames_collectEach slots _ (frames_groupedItem _ nodeID_frames) tp0)
    as E. rewrite Hcs in E. simpl in E.
  split.
  - eapply visits_weaken; [|by eapply visits_trans].
    intros t [<-|(s & Hs & <-)]; [exists slot|exists s];
      (split; [|done]); [by left|by right].
  - intros t (s & [->|Hs]%elem_of_cons & <-).
    + split; [done|]. exists p. eapply lookup_weaken; [|apply E].
      by eapply nodeID_records.
    + apply S2. by exists s.
Qed.

Lemma decorateStep_loop_visits key slots : ∀ tp tp',
  untouched g tp -> complete g tp ->
  forEach slots (decorateStep nodeID key) tp = (Ok (), tp') ->
  visits g tp tp' (slotTargets slots) ∧ settled g tp' (slotTargets slots).
Proof.
  induction slots as [|slot slots IH]; intros tp tp' U C; simpl.
  { intros [= <-]. split; [by apply visits_same|].
    by intros t (s & ?%elem_of_nil & _). }
  intros ([] & tp1 & Hc & Hcs)%bind_Ok.
  unfold decorateStep in Hc. apply bind_Ok in Hc as (p & tp0 & Hp & [= <-]).
  destruct (nodeID_visits _ _ _ _ U C Hp) as [V1 Hns].
  assert (visits g tp (set_decorating
            <[key := {| ec_result := p; ec_index := slot_index slot |}]> tp0)
            (eq (slot_id slot))) as V1'.
  { apply (visits_then g tp tp0 _ _ V1); [done|done| |].
    - apply (untouched_local g tp0); try done. apply V1.
    - apply (complete_local g tp0); try done. apply V1. }
  destruct (IH _ _ (proj1 V1') (proj1 (proj2 V1')) Hcs) as [V2 S2].
  pose proof (frames_forEach slots _ (frames_decorateStep _ nodeID_frames key)
                (set_decorating
                   <[key := {| ec_result := p; ec_index := slot_index slot |}]> tp0))
    as E. rewrite Hcs in E. simpl in E.
  split.
  - eapply visits_weaken; [|by eapply visits_trans].
    intros t [<-|(s & Hs & <-)]; [exists slot|exists s];
      (split; [|done]); [by left|by right].
  - intros t (s & [->|Hs]%elem_of_cons & <-).
    + split; [done|]. exists p. eapply lookup_weaken; [|apply E].
      simpl. by eapply nodeID_records.
    + apply S2. by exists s.
Qed.

Lemma Single_visits key tp c tp' :
  untouched g tp -> complete g tp ->
  toposortGenerateSingle nodeID g key tp = (Ok c, tp') ->
  visits g tp tp' (slotTargets (slotsOf (provide g) key))
  ∧ settled g tp' (slotTargets (slotsOf (provide g) key)).
Proof.
  intros U C. unfold toposortGenerateSingle.
  destruct (slotsOf (provide g) key) as [|slot [|??]]; try done.
  rewrite bind_get. case_decide; [by destruct (nodes g !! _)|].
  intros (p & tp1 & Hp & [= <- <-])%bind_Ok.
  destruct (nodeID_visits _ _ _ _ U C Hp) as [V1 Hns]. split.
  - eapply visits_weaken; [|exact V1]. intros t <-. exists slot.
    split; [by left|done].
  - intros t (s & ->%list_elem_of_singleton & <-). split; [done|].
    exists p. by eapply nodeID_records.
Qed.

Lemma settled_of_grouped tp key b :
  untouched g tp -> complete g tp -> grouped tp !! key = Some b ->
  settled g tp (slotTargets (slotsOf (provide g) key)).
Proof.
  intros U C Hk t (s & Hs & <-). split.
  - intros Hst. by rewrite (unt_grouped _ _ U key s Hs Hst) in Hk.
  - by eapply cmp_grouped.
Qed.

Lemma settled_of_decorated tp key c :
  untouched g tp -> complete g tp -> decorated tp !! key = Some c ->
  settled g tp (slotTargets (slotsOf (decorate g) key)).
Proof.
  intros U C Hk t (s & Hs & <-). split.
  - intros Hst. by rewrite (unt_decorated _ _ U key s Hs Hst) in Hk.
  - by eapply cmp_decorated.
Qed.

Lemma untouched_set_grouped tp key r :
  untouched g tp -> settled g tp (slotTargets (slotsOf (provide g) key)) ->
  untouched g (set_grouped <[key := r]> tp).
Proof.
  intros [U1 U2 U3] S. split; simpl; [done| |done].
  intros key' slot Hs Hst. destruct (decide (key = key')) as [<-|Hne].
  - destruct (S (slot_id slot)) as [Hn _]; [by exists slot|done].
  - rewrite lookup_insert_ne by done. by eapply U2.
Qed.

Lemma complete_set_grouped tp key r :
  complete g tp -> settled g tp (slotTargets (slotsOf (provide g) key)) ->
  complete g (set_grouped <[key := r]> tp).
Proof.
  intros [C1 C2 C3 C4] S. split; simpl; [|done|done|done].
  intros key' b slot Hb Hs. destruct (decide (key = key')) as [<-|Hne].
  - apply S. by exists slot.
  - rewrite lookup_insert_ne in Hb by done. by eapply C1.
Qed.

Lemma untouched_set_decorated tp key r :
  untouched g tp -> settled g tp (slotTargets (slotsOf (decorate g) key)) ->
  untouched g (set_decorated <[key := r]> tp).
Proof.
  intros [U1 U2 U3] S. split; simpl; [done|done|].
  intros key' slot Hs Hst. destruct (decide (key = key')) as [<-|Hne].
  - destruct (S (slot_id slot)) as [Hn _]; [by exists slot|done].
  - rewrite lookup_insert_ne by done. by eapply U3.
Qed.

Lemma complete_set_decorated tp key r :
  complete g tp -> settled g tp (slotTargets (slotsOf (decorate g) key)) ->
  complete g (set_decorated <[key := r]> tp).
Proof.
  intros [C1 C2 C3 C4] S. split; simpl; [done| |done|done].
  intros key' b slot Hb Hs. destruct (decide (key = key')) as [<-|Hne].
  - apply S. by exists slot.
  - rewrite lookup_insert_ne in Hb by done. by eapply C2.
Qed.

Lemma Grouped_visits key tp c tp' :
  untouched g tp -> complete g tp ->
  toposortGenerateGrouped nodeID g key tp = (Ok c, tp') ->
  visits g tp tp' (slotTargets (slotsOf (provide g) key))
  ∧ settled g tp' (slotTargets (slotsOf (provide g) key)).
Proof.
  intros U C. unfold toposortGenerateGrouped. rewrite bind_get.
  destruct (grouped tp !! key) eqn:Hk.
  { intros [= <- <-]. split; [by apply visits_same|].
    by eapply settled_of_grouped. }
  rewrite bind_alloc. intros (items & tp1 & Hc & H)%bind_Ok.
  rewrite bind_emit, bind_modify in H. injection H as <- <-.
  apply groupedItem_loop_visits in Hc as [V St];
    [|by apply (untouched_local g tp)|by apply (complete_local g tp)].
  assert (settled g (set_grouped <[key := S (length (store tp))]>
            (push_result (collectGroupNode items (S (length (store tp)))) tp1))
            (slotTargets (slotsOf (provide g) key))) as St' by done.
  split; [|done].
  assert (visits g tp tp1 (λ t, False ∨ slotTargets (slotsOf (provide g) key) t))
    as V'.
  { eapply visits_trans; [|exact V].
    apply (visits_same g tp (push_store (ExecutionParam [MakeSlice (typ key)]) tp)
             (λ _, False)); try done.
    - by apply (untouched_local g tp).
    - by apply (complete_local g tp). }
  eapply visits_weaken; [|apply (visits_then g tp tp1 _ _ V')].
  - by intros t [[]|?].
  - done.
  - simpl. by apply userActions_snoc_plumbing.
  - apply untouched_set_grouped; [|done].
    apply (untouched_local g tp1); try done. apply V.
  - apply complete_set_grouped; [|done].
    apply (complete_local g tp1); try done. apply V.
Qed.

Lemma BaseCollect_visits key tp c tp' :
  untouched g tp -> complete g tp ->
  toposortGenerateBaseCollect nodeID g key tp = (Ok c, tp') ->
  visits g tp tp' (slotTargets (slotsOf (provide g) key))
  ∧ settled g tp' (slotTargets (slotsOf (provide g) key)).
Proof.
  intros U C. unfold toposortGenerateBaseCollect.
  intros (base & tp1 & Hb & H)%bind_Ok.
  assert (visits g tp tp1 (slotTargets (slotsOf (provide g) key))
          ∧ settled g tp1 (slotTargets (slotsOf (provide g) key))) as [V St].
  { destruct (group key); [by eapply Grouped_visits|by eapply Single_visits]. }
  destruct (slotsOf (decorate g) key); [by injection H as <- <-|].
  rewrite bind_get in H.
  destruct (decorated tp1 !! key); [by injection H as <- <-|].
  rewrite bind_get in H.
  destruct (decorating tp1 !! key); [by injection H as <- <-|].
  rewrite bind_modify in H. injection H as <- <-. split; [|done].
  apply (visits_then g tp tp1 _ _ V); [done|done| |].
  - apply (untouched_local g tp1); try done. apply V.
  - apply (complete_local g tp1); try done. apply V.
Qed.

Lemma collectAfterBase_visits spec base tp c tp' :
  untouched g tp -> complete g tp ->
  collectAfterBase nodeID g spec base tp = (Ok c, tp') ->
  visits g tp tp' (slotTargets (decoratorsOf g spec))
  ∧ settled g tp' (slotTargets (decoratorsOf g spec)).
Proof.
  intros U C. unfold collectAfterBase, decoratorsOf.
  destruct (Decorate spec).
  { rewrite bind_get. destruct (decorating tp !! _); [|done].
    intros [= <- <-]. split; [by apply visits_same|].
    by intros t (s & ?%elem_of_nil & _). }
  destruct (slotsOf (decorate g) (extractGraphKey spec)) as [|s0 sl] eqn:Hs.
  { intros [= <- <-]. split; [by apply visits_same|].
    by intros t (s & ?%elem_of_nil & _). }
  rewrite bind_get. destruct (decorated tp !! extractGraphKey spec) eqn:Hd.
  { intros [= <- <-]. split; [by apply visits_same|].
    rewrite <- Hs. by eapply settled_of_decorated. }
  intros ([] & tp1 & Hl & H)%bind_Ok.
  rewrite bind_get, bind_modify, bind_modify in H. injection H as <- <-.
  apply decorateStep_loop_visits in Hl as [V St]; [|done|done].
  rewrite <- Hs in *. split; [|done].
  apply (visits_then g tp tp1 _ _ V); [done|done| |].
  - apply (untouched_local g (set_decorated
             <[extractGraphKey spec :=
                 default nilCollect (decorating tp1 !! extractGraphKey spec)]> tp1));
      try done.
    apply untouched_set_decorated; [apply V|done].
  - apply (complete_local g (set_decorated
             <[extractGraphKey spec :=
                 default nilCollect (decorating tp1 !! extractGraphKey spec)]> tp1));
      try done.
    apply complete_set_decorated; [apply V|done].
Qed.

Lemma frames_Collect_strict spec :
  frames (toposortGenerateCollect_strict nodeID g spec).
Proof.
  apply frames_bind; [by apply frames_BaseCollect|].
  intros base. by apply frames_collectAfterBase.
Qed.

Lemma Collect_strict_visits spec tp c tp' :
  untouched g tp -> complete g tp ->
  toposortGenerateCollect_strict nodeID g spec tp = (Ok c, tp') ->
  visits g tp tp' (specTargets g spec) ∧ settled g tp' (specTargets g spec).
Proof.
  intros U C. unfold toposortGenerateCollect_strict.
  intros (base & tp1 & Hb & Ha)%bind_Ok.
  apply BaseCollect_visits in Hb as [V1 S1]; [|done|done].
  pose proof (frames_collectAfterBase nodeID g nodeID_frames spec base tp1) as E.
  rewrite Ha in E. simpl in E.
  apply collectAfterBase_visits in Ha as [V2 S2]; [|apply V1|apply V1].
  split; [by eapply visits_trans|].
  intros t [Ht|Ht]; [|by apply S2].
  eapply settled_mono; [exact S1|apply E|done].
Qed.

Lemma pass2_visits specs : ∀ tp items tp',
  untouched g tp -> complete g tp ->
  collectEach specs (toposortGenerateCollect_strict nodeID g) tp = (Ok items, tp') ->
  visits g tp tp' (λ t, ∃ spec, spec ∈ specs ∧ specTargets g spec t)
  ∧ settled g tp' (λ t, ∃ spec, spec ∈ specs ∧ specTargets g spec t).
Proof.
  induction specs as [|spec specs IH]; intros tp items tp' U C; simpl.
  { intros [= <- <-]. split; [by apply visits_same|].
    by intros t (s & ?%elem_of_nil & _). }
  intros (c & tp1 & Hc & H)%bind_Ok.
  apply bind_Ok in H as (cs & tp2 & Hcs & [= <- <-]).
  pose proof (frames_collectEach specs _ frames_Collect_strict tp1) as E.
  rewrite Hcs in E. simpl in E.
  apply Collect_strict_visits in Hc as [V1 S1]; [|done|done].
  apply IH in Hcs as [V2 S2]; [|apply V1|apply V1].
  split.
  - eapply visits_weaken; [|by eapply visits_trans].
    intros t [Ht|(s & Hs & Ht)]; [exists spec|exists s];
      (split; [|done]); [by left|by right].
  - intros t (s & [->|Hs]%elem_of_cons & Ht).
    + eapply settled_mono; [exact S1|apply E|done].
    + apply S2. by exists s.
Qed.

Lemma pass1_visits specs : ∀ tp tp',
  untouched g tp -> complete g tp ->
  forEach specs (baseStep nodeID g) tp = (Ok (), tp') ->
  visits g tp tp' (λ t, ∃ spec, spec ∈ specs ∧ specTargets g spec t).
Proof.
  induction specs as [|spec specs IH]; intros tp tp' U C; simpl.
  { intros [= <-]. by apply visits_same. }
  intros ([] & tp1 & Hc & Hcs)%bind_Ok.
  unfold baseStep in Hc. apply bind_Ok in Hc as (c & tp0 & Hb & [= <-]).
  apply BaseCollect_visits in Hb as [V1 _]; [|done|done].
  apply IH in Hcs as V2; [|apply V1|apply V1].
  eapply visits_weaken; [|by eapply visits_trans].
  intros t [Ht|(s & Hs & Ht)].
  - exists spec. split; [by left|by left].
  - exists s. split; [by right|done].
Qed.

Lemma dependsOn_specTargets n t :
  dependsOn g n t ↔ ∃ spec, spec ∈ input n ∧ specTargets g spec t.
Proof.
  unfold dependsOn, specTargets, slotTargets, decoratorsOf. split.
  - intros (spec & slot & Hin & <- & [H|[Hd H]]); exists spec; (split; [done|]).
    + left. eauto.
    + right. rewrite Hd. eauto.
  - intros (spec & Hin & [(slot & Hs & <-)|(slot & Hs & <-)]);
      exists spec, slot; (split; [done|]); (split; [done|]); [by left|].
    right. destruct (Decorate spec); [by apply elem_of_nil in Hs|done].
Qed.

Lemma GraphNode_strict_visits current tp p tp' :
  untouched g tp -> complete g tp ->
  toposortGenerateGraphNode_strict nodeID g current tp = (Ok p, tp') ->
  untouched g tp' ∧ complete g tp' ∧ settled g tp' (dependsOn g current)
  ∧ ∃ tp2, visits g tp tp2 (dependsOn g current)
           ∧ outputs tp' = outputs tp2
           ∧ userActions (result tp')
             = userActions (result tp2) ++ [value current].
Proof.
  intros U C. unfold toposortGenerateGraphNode_strict. rewrite bind_alloc.
  intros ([] & tp1 & H1 & H)%bind_Ok.
  apply bind_Ok in H as (items & tp2 & H2 & H).
  rewrite bind_emit, bind_alloc, bind_emit in H. injection H as <- <-.
  apply pass1_visits in H1 as V1;
    [|by apply (untouched_local g tp)|by apply (complete_local g tp)].
  apply pass2_visits in H2 as [V2 S2]; [|apply V1|apply V1].
  assert (settled g tp2 (dependsOn g current)) as St.
  { intros t Ht%dependsOn_specTargets. by apply S2. }
  destruct V2 as (U2 & C2 & V2').
  split; [by apply (untouched_local g tp2)|].
  split; [by apply (complete_local g tp2)|].
  split; [done|]. exists tp2. split; [|split].
  - assert (visits g tp
              (push_store
                 (ExecutionParam (replicate (length (input current)) VInvalid)) tp)
              (λ _, False)) as V0.
    { apply visits_same; try done.
      - by apply (untouched_local g tp).
      - by apply (complete_local g tp). }
    assert (visits g tp1 tp2
              (λ t, ∃ spec, spec ∈ input current ∧ specTargets g spec t)) as V2
      by (by split).
    pose proof (visits_trans g _ _ _ _ _ V0 (visits_trans g _ _ _ _ _ V1 V2)) as V.
    eapply visits_weaken; [|exact V].
    intros t [[]|[Ht|Ht]]; by apply dependsOn_specTargets.
  - done.
  - simpl. rewrite userActions_snoc_user. f_equal.
    by apply userActions_snoc_plumbing.
Qed.
End planner_visits.

Lemma is_Some_insert_mono (m : gmap nat ptr) id q id0 :
  is_Some (m !! id0) -> is_Some (<[id := q]> m !! id0).
Proof.
  intros H. destruct (decide (id = id0)) as [->|Hne].
  - rewrite lookup_insert_eq. eauto.
  - by rewrite lookup_insert_ne.
Qed.

Lemma NodeID_visits fuel g : ∀ id tp p tp',
  untouched g tp -> complete g tp ->
  toposortGenerateGraphNodeID fuel g id tp = (Ok p, tp') ->
  visits g tp tp' (eq id) ∧ ¬ stuck g id.
Proof.
  induction fuel as [|fuel IH]; intros id tp p tp' U C; simpl; [done|].
  destruct (outputs tp !! id) eqn:Ho.
  { intros [= <- <-]. split; [by apply visits_same|].
    intros Hs. by rewrite (unt_outputs _ _ U id Hs) in Ho. }
  destruct (nodes g !! id) as [current|] eqn:Hn; [|done].
  rewrite (GraphNode_strict_eq _ g (frames_NodeID fuel g)
             (NodeID_cached_not_Fail fuel g) (NodeID_Ok_outputs fuel g)).
  destruct (toposortGenerateGraphNode_strict _ _ _ _) as [[q| | |] tp2] eqn:HG;
    try done.
  intros [= <- <-].
  apply (GraphNode_strict_visits _ g (frames_NodeID fuel g)
           (NodeID_Ok_outputs fuel g) IH) in HG
    as (U2 & C2 & St & tpm & (Um & Cm & new & Sch & R) & Ho2 & Ha);
    [|by apply (untouched_local g tp)|by apply (complete_local g tp)].
  assert (¬ stuck g id) as Hns.
  { intros Hs. destruct (stuck_closed g id Hs) as (n & id' & Hn' & Hd & Hs').
    rewrite Hn in Hn'. injection Hn' as <-. by destruct (St id' Hd). }
  assert (∀ id', id' ∈ new -> reaches g current id') as Hreach.
  { intros id' Hin. destruct (R id' Hin) as (t & Ht & Hr).
    by eapply reachFrom_dep. }
  assert (id ∉ new) as Hfresh.
  { intros Hin. apply Hns. eapply reaches_stuck; [done|]. by apply Hreach. }
  destruct Sch as [SA SN SF SO]. simpl in *.
  split; [|done]. split; [|split].
  - destruct U2 as [U21 U22 U23]. split; simpl; [|done|done].
    intros id0 Hs. rewrite lookup_insert_ne; [by apply U21|]. by intros ->.
  - destruct C2 as [C21 C22 C23 C24]. split; simpl.
    + intros key b slot Hb Hs. apply is_Some_insert_mono. by eapply C21.
    + intros key c slot Hc Hs. apply is_Some_insert_mono. by eapply C22.
    + intros id0 n id' Hs Hn0 Hd. apply is_Some_insert_mono.
      destruct (decide (id = id0)) as [<-|Hne].
      * rewrite Hn in Hn0. injection Hn0 as <-. by apply St.
      * rewrite lookup_insert_ne in Hs by done. by eapply C23.
    + intros id0 Hs. destruct (decide (id = id0)) as [<-|Hne]; [by rewrite Hn|].
      rewrite lookup_insert_ne in Hs by done. by apply C24.
  - exists (new ++ [id]). split; [split|]; simpl.
    + rewrite Ha, SA, omap_app, <- app_assoc. simpl.
      replace (nodeValue g id) with (Some (value current)); [done|].
      unfold nodeValue. by rewrite Hn.
    + apply NoDup_app. split; [done|]. split; [|apply NoDup_singleton].
      intros x Hx ->%list_elem_of_singleton. done.
    + intros id0 [Hin| ->%list_elem_of_singleton]%elem_of_app; [|done].
      by apply SF.
    + intros id0. rewrite elem_of_app, list_elem_of_singleton.
      destruct (decide (id = id0)) as [<-|Hne].
      * rewrite lookup_insert_eq. split; [by right; right|eauto].
      * rewrite lookup_insert_ne by done. rewrite Ho2, SO. split.
        -- intros [?|?]; [by left|by right; left].
        -- intros [?|[?|?]]; [by left|by right|congruence].
    + intros id' [Hin| ->%list_elem_of_singleton]%elem_of_app.
      * exists id. split; [done|]. right. exists current. split; [done|].
        by apply Hreach.
      * exists id. split; [done|]. by left.
Qed.

(** ** What a successful plan contains *)

Lemma untouched_new g : untouched g newGraphToposort.
Proof. by split. Qed.

Lemma complete_new g : complete g newGraphToposort.
Proof.
  split; simpl; intros; try done;
    match goal with H : is_Some (∅ !! _) |- _ =>
      rewrite lookup_empty in H; by destruct H end.
Qed.

Lemma GraphNode_visits fuel g current tp p tp' :
  untouched g tp -> complete g tp ->
  toposortGenerateGraphNode (toposortGenerateGraphNodeID fuel g) g current tp
  = (Ok p, tp') ->
  untouched g tp' ∧ complete g tp' ∧ settled g tp' (dependsOn g current)
  ∧ ∃ tp2, visits g tp tp2 (dependsOn g current)
           ∧ outputs tp' = outputs tp2
           ∧ userActions (result tp')
             = userActions (result tp2) ++ [value current].
Proof.
  intros U C.
  rewrite (GraphNode_strict_eq _ g (frames_NodeID fuel g)
             (NodeID_cached_not_Fail fuel g) (NodeID_Ok_outputs fuel g)).
  apply (GraphNode_strict_visits _ g (frames_NodeID fuel g)
           (NodeID_Ok_outputs fuel g) (NodeID_visits fuel g)); done.
Qed.

Lemma complete_reaches g tp id n id' :
  complete g tp -> is_Some (outputs tp !! id) -> nodes g !! id = Some n ->
  reaches g n id' -> is_Some (outputs tp !! id').
Proof.
  intros C Hs Hn Hr. revert id Hs Hn.
  induction Hr as [n id' Hd|n id1 n1 id' Hd Hn1 Hr IH]; intros id Hs Hn.
  - by eapply cmp_outputs.
  - eapply IH; [|done]. by eapply cmp_outputs.
Qed.

Lemma settled_reaches g tp root id :
  complete g tp -> settled g tp (dependsOn g root) ->
  reaches g root id -> is_Some (outputs tp !! id).
Proof.
  intros C St Hr. destruct Hr as [n id Hd|n id1 n1 id Hd Hn1 Hr].
  - by apply St.
  - eapply complete_reaches; [done| |done|done]. by apply St.
Qed.

Lemma roots_visits fuel g roots : ∀ tp tp',
  untouched g tp -> complete g tp ->
  forEach roots (rootStep fuel g) tp = (Ok (), tp') ->
  untouched g tp' ∧ complete g tp'
  ∧ (∀ root, root ∈ roots -> settled g tp' (dependsOn g root))
  ∧ ∃ scheds,
      Forall2 (λ new root, ∀ id, id ∈ new -> reaches g root id) scheds roots
      ∧ userActions (result tp')
        = userActions (result tp) ++ planActions g scheds roots
      ∧ NoDup (concat scheds)
      ∧ (∀ id, id ∈ concat scheds -> outputs tp !! id = None)
      ∧ (∀ id, is_Some (outputs tp' !! id)
               ↔ is_Some (outputs tp !! id) ∨ id ∈ concat scheds).
Proof.
  induction roots as [|root roots IH]; intros tp tp' U C; simpl.
  { intros [= <-]. split; [done|]. split; [done|]. split.
    { by intros r ?%elem_of_nil. }
    exists []. split; [constructor|]. split; [by rewrite app_nil_r|].
    split; [constructor|]. split; [by intros id ?%elem_of_nil|].
    intros id. split; [by left|]. by intros [?|?%elem_of_nil]. }
  intros ([] & tp1 & H1 & Hrest)%bind_Ok.
  unfold rootStep in H1. apply bind_Ok in H1 as (p & tp0 & HG & [= <-]).
  apply GraphNode_visits in HG
    as (U1 & C1 & St & tpm & (_ & _ & new & [SA SN SF SO] & R) & Ho & Ha);
    [|done|done].
  pose proof (frames_forEach roots (rootStep fuel g)
                (λ r, frames_bind _ _ (frames_GraphNode _ g (frames_NodeID fuel g) r)
                        (λ _, frames_ret ())) tp0) as E.
  rewrite Hrest in E. simpl in E.
  apply IH in Hrest as (U' & C' & St' & scheds & HF & HA & HN & HFr & HO);
    [|done|done].
  split; [done|]. split; [done|]. split.
  { intros r [->|Hr]%elem_of_cons; [|by apply St'].
    eapply settled_mono; [exact St|apply E]. }
  exists (new :: scheds). split; [|split; [|split; [|split]]].
  - constructor; [|done]. intros id Hin. destruct (R id Hin) as (t & Ht & Hr).
    by eapply reachFrom_dep.
  - rewrite HA, Ha, SA. unfold planActions. simpl. by rewrite <- !app_assoc.
  - simpl. apply NoDup_app. split; [done|]. split; [|done].
    intros id Hin Hin'. apply HFr in Hin'.
    assert (is_Some (outputs tp0 !! id)) as [? Hs].
    { rewrite Ho. apply SO. by right. }
    congruence.
  - simpl. intros id [Hin|Hin]%elem_of_app; [by apply SF|].
    apply HFr in Hin. destruct (outputs tp !! id) eqn:Eo; [|done].
    assert (is_Some (outputs tp0 !! id)) as [? Hs].
    { rewrite Ho. apply SO. left. eauto. }
    congruence.
  - simpl. intros id. rewrite HO, Ho, SO, elem_of_app. tauto.
Qed.


(** ** Cycles (C7) *)

Lemma toposort_stuck fuel g roots root id plan :
  root ∈ roots -> reaches g root id -> stuck g id ->
  toposort fuel g roots ≠ Ok plan.
Proof.
  intros Hroot Hr Hs. unfold toposort, toposortState.
  destruct (forEach roots _ _) as [[[]| | |] tp'] eqn:H; try done.
  apply roots_visits in H as (_ & _ & St & _);
    [|apply untouched_new|apply complete_new].
  destruct (reaches_stuck_dep g root id Hr Hs) as (id' & Hd & Hs').
  by destruct (St root Hroot id' Hd).
Qed.

Lemma singletonCycle_stuck g ids a :
  singletonCycle g ids -> a ∈ ids -> stuck g a.
Proof.
  intros [Hne Hc] Ha. exists (λ a, a ∈ ids). split; [|done].
  intros b [i Hi]%list_elem_of_lookup.
  destruct (Hc i b Hi) as (n & spec & slot & Hn & Hin & Hg & Hs & Hnext).
  exists n, (slot_id slot). split; [done|]. split.
  - exists spec, slot. split; [done|]. split; [done|]. left. rewrite Hs. by left.
  - by eapply list_elem_of_lookup_2.
Qed.

Lemma GraphNode_first_input_Fail_at nodeID g n spec rest e tp tp' :
  input n = spec :: rest ->
  toposortGenerateBaseCollect nodeID g (extractGraphKey spec)
    (push_store (ExecutionParam (replicate (length (input n)) VInvalid)) tp)
  = (Fail e, tp') ->
  toposortGenerateGraphNode nodeID g n tp = (Fail e, tp').
Proof.
  intros Hin HB. unfold toposortGenerateGraphNode. rewrite bind_alloc.
  apply bind_Fail.
  replace (forEach (input n)) with (forEach (spec :: rest)) by (by rewrite Hin).
  simpl. apply bind_Fail. unfold baseStep. by apply bind_Fail.
Qed.

Lemma firstInputChain_fails g path : ∀ fuel n tp target k nt,
  firstInputChain g n path target k ->
  NoDup path ->
  (∀ a, a ∈ path -> (a ∉ pending tp) ∧ outputs tp !! a = None) ->
  target ∈ pending tp ∨ target ∈ path ->
  nodes g !! target = Some nt ->
  (length path ≤ fuel)%nat ->
  ∃ tp', toposortGenerateGraphNode (toposortGenerateGraphNodeID fuel g) g n tp
         = (Fail (cyclicDependency (graphNode_String nt target) k), tp').
Proof.
  induction path as [|a path IH]; intros fuel n tp target k nt Hch Hnd Hfr Ht Hnt Hf;
    destruct Hch as (spec & rest & slot & Hin & Hg & Hs & Hch).
  - destruct Hch as [<- <-]. destruct Ht as [Ht|Ht%elem_of_nil]; [|done].
    eexists. eapply GraphNode_first_input_Fail_at; [done|].
    apply BaseCollect_Single_Fail; [done|]. by apply Single_cyclic.
  - destruct Hch as (<- & n' & Hn' & Hch).
    destruct fuel as [|fuel]; [simpl in Hf; lia|].
    apply NoDup_cons in Hnd as [Ha Hnd].
    destruct (Hfr (slot_id slot)) as [Hp Ho]; [by left|].
    set (tp1 := set_pending (union {[slot_id slot]})
                  (push_store (ExecutionParam (replicate (length (input n)) VInvalid))
                     tp)).
    destruct (IH fuel n' tp1 target k nt Hch Hnd) as [tp2 HG].
    + intros b Hb. destruct (Hfr b) as [Hbp Hbo]; [by right|]. split; [|done].
      simpl. intros [->%elem_of_singleton|?]%elem_of_union; done.
    + destruct Ht as [Ht|[->|Ht]%elem_of_cons].
      * left. simpl. apply elem_of_union. by right.
      * left. simpl. apply elem_of_union. left. by apply elem_of_singleton.
      * by right.
    + done.
    + simpl in Hf. lia.
    + eexists. eapply GraphNode_first_input_Fail_at; [done|].
      apply BaseCollect_Single_Fail; [done|].
      unfold toposortGenerateSingle. rewrite Hs, bind_get.
      rewrite decide_False by done. apply bind_Fail. simpl.
      rewrite Ho, Hn'. fold tp1. by rewrite HG.
Qed.


Lemma twoCycle_singletonCycle : singletonCycle twoCycle [0; 1].
Proof.
  split; [done|]. intros i a Hi.
  destruct i as [|[|i]]; simpl in Hi; [| |done]; injection Hi as <-.
  - exists {| input := [portB]; output := [portA]; value := idle; format := None |},
      portB, (Slot 1 0).
    split; [done|]. split; [by left|]. done.
  - exists {| input := [portA]; output := [portB]; value := idle; format := None |},
      portA, (Slot 0 0).
    split; [done|]. split; [by left|]. done.
Qed.

Lemma cycleRoot_reaches n :
  portA ∈ input n -> reaches twoCycle n 0.
Proof.
  intros Hin. apply reaches_dep. exists portA, (Slot 0 0).
  split; [done|]. split; [done|]. left. by left.
Qed.





(** ** Decorator chains *)

Lemma baseOf_mono g s s' key b :
  baseOf g s key = Some b ->
  outputs s ⊆ outputs s' -> grouped s ⊆ grouped s' ->
  (∀ x, x ∈ pending s' -> x ∈ pending s ∨ outputs s !! x = None) ->
  baseOf g s' key = Some b.
Proof.
  unfold baseOf. intros Hb Ho Hg Hp. destruct (group key).
  - destruct (grouped s !! key) as [p|] eqn:E; [|done].
    by rewrite (lookup_weaken _ _ _ _ E Hg).
  - destruct (slotsOf (provide g) key) as [|slot [|]]; try done.
    destruct (decide (slot_id slot ∈ pending s)) as [|Hn]; [done|].
    destruct (outputs s !! slot_id slot) as [p|] eqn:E; [|done].
    rewrite (lookup_weaken _ _ _ _ E Ho).
    destruct (decide (slot_id slot ∈ pending s')) as [Hin|]; [|done].
    destruct (Hp _ Hin) as [|Hx]; [done|congruence].
Qed.

Lemma wire_mono g s s' K cur inputs :
  Forall (quietInput g s K) inputs ->
  outputs s ⊆ outputs s' -> grouped s ⊆ grouped s' ->
  (∀ x, x ∈ pending s' -> x ∈ pending s ∨ outputs s !! x = None) ->
  map (wire g s' cur) inputs = map (wire g s cur) inputs.
Proof.
  intros Hq Ho Hg Hp. induction Hq as [|spec inputs Hs _ IH]; [done|].
  simpl. f_equal; [|done]. unfold wire, quietInput in *.
  destruct (Decorate spec); [done|]. destruct Hs as (_ & b & Hb).
  by rewrite Hb, (baseOf_mono g s s' _ b Hb Ho Hg Hp).
Qed.

Lemma quietInput_mono g s s' K inputs :
  Forall (quietInput g s K) inputs ->
  outputs s ⊆ outputs s' -> grouped s ⊆ grouped s' ->
  (∀ x, x ∈ pending s' -> x ∈ pending s ∨ outputs s !! x = None) ->
  Forall (quietInput g s' K) inputs.
Proof.
  intros Hq Ho Hg Hp. eapply Forall_impl; [exact Hq|].
  intros spec. unfold quietInput. destruct (Decorate spec); [done|].
  intros (Hd & b & Hb). split; [done|]. exists b. by eapply baseOf_mono.
Qed.

Section decorator_chain.
Variable nodeID : nat -> planM ptr.
Variable g : graph.
Hypothesis nodeID_cached :
  ∀ id s p, outputs s !! id = Some p -> nodeID id s = (Ok p, s).

Lemma BaseCollect_quiet key s b :
  baseOf g s key = Some b ->
  slotsOf (decorate g) key = [] ∨ is_Some (decorated s !! key)
    ∨ is_Some (decorating s !! key) ->
  toposortGenerateBaseCollect nodeID g key s = (Ok b, s).
Proof.
  unfold baseOf, toposortGenerateBaseCollect. intros Hb Hd.
  assert ((if group key then toposortGenerateGrouped nodeID g key
           else toposortGenerateSingle nodeID g key) s = (Ok b, s)) as Hbase.
  { destruct (group key).
    - destruct (grouped s !! key) as [p|] eqn:E; [|done]. simpl in Hb.
      unfold toposortGenerateGrouped. rewrite bind_get, E. by simplify_eq.
    - unfold toposortGenerateSingle.
      destruct (slotsOf (provide g) key) as [|slot [|]]; try done.
      rewrite bind_get.
      destruct (decide (slot_id slot ∈ pending s)); [done|].
      destruct (outputs s !! slot_id slot) as [p|] eqn:E; [|done]. simpl in Hb.
      rewrite (bind_step _ _ _ _ _ (nodeID_cached _ _ _ E)). by simplify_eq. }
  rewrite (bind_step _ _ _ _ _ Hbase).
  destruct (slotsOf (decorate g) key) as [|d ds]; [done|].
  rewrite bind_get. destruct (decorated s !! key) as [?|] eqn:E1; [done|].
  rewrite bind_get. destruct (decorating s !! key) as [?|] eqn:E2; [done|].
  destruct Hd as [|[[? ?]|[? ?]]]; done.
Qed.

Lemma Collect_quiet K spec s cur :
  is_Some (baseOf g s K) -> decorating s !! K = Some cur ->
  quietInput g s K spec ->
  toposortGenerateCollect nodeID g spec s = (Ok (wire g s cur spec), s).
Proof.
  intros [bK HK] Hcur Hq. unfold quietInput, wire in *.
  unfold toposortGenerateCollect, collectAfterBase.
  destruct (Decorate spec).
  - subst K. rewrite (BaseCollect_quiet _ _ _ HK) by eauto.
    by rewrite bind_get, Hcur.
  - destruct Hq as (Hd & b & Hb).
    rewrite (BaseCollect_quiet _ _ _ Hb) by eauto. by rewrite Hd, Hb.
Qed.

Lemma Collect_decorated spec s b d :
  baseOf g s (extractGraphKey spec) = Some b -> Decorate spec = false ->
  slotsOf (decorate g) (extractGraphKey spec) ≠ [] ->
  decorated s !! extractGraphKey spec = Some d ->
  toposortGenerateCollect nodeID g spec s = (Ok d, s).
Proof.
  intros Hb Hn Hs Hd. unfold toposortGenerateCollect, collectAfterBase.
  rewrite (BaseCollect_quiet _ _ _ Hb) by eauto. rewrite Hn.
  destruct (slotsOf (decorate g) (extractGraphKey spec)); [done|].
  by rewrite bind_get, Hd.
Qed.

Lemma quiet_pass1 K s cur inputs :
  is_Some (baseOf g s K) -> decorating s !! K = Some cur ->
  Forall (quietInput g s K) inputs ->
  forEach inputs (baseStep nodeID g) s = (Ok (), s).
Proof.
  intros [bK HK] Hcur Hq. induction Hq as [|spec inputs Hs _ IH]; [done|].
  simpl. unfold baseStep at 1.
  assert (∃ b, toposortGenerateBaseCollect nodeID g (extractGraphKey spec) s
               = (Ok b, s)) as [b Hb].
  { unfold quietInput in Hs. destruct (Decorate spec).
    - subst K. exists bK. apply BaseCollect_quiet; eauto.
    - destruct Hs as (Hd & b & Hb). exists b. apply BaseCollect_quiet; eauto. }
  rewrite (bind_step _ _ _ () s); [done|]. by rewrite (bind_step _ _ _ _ _ Hb).
Qed.

Lemma quiet_pass2 K s cur inputs :
  is_Some (baseOf g s K) -> decorating s !! K = Some cur ->
  Forall (quietInput g s K) inputs ->
  collectEach inputs (toposortGenerateCollect nodeID g) s
  = (Ok (map (wire g s cur) inputs), s).
Proof.
  intros HK Hcur Hq. induction Hq as [|spec inputs Hs _ IH]; [done|].
  simpl. rewrite (bind_step _ _ _ _ _ (Collect_quiet K spec s cur HK Hcur Hs)).
  by rewrite (bind_step _ _ _ _ _ IH).
Qed.

Lemma GraphNode_quiet K s cur n :
  is_Some (baseOf g s K) -> decorating s !! K = Some cur ->
  Forall (quietInput g s K) (input n) ->
  toposortGenerateGraphNode nodeID g n s
  = (Ok (S (S (length (store s)))),
     {| outputs := outputs s; grouped := grouped s; decorated := decorated s;
        decorating := decorating s; pending := pending s;
        result := result s
                  ++ [collectParamNode (map (wire g s cur) (input n))
                        (S (length (store s)));
                      graphUserNode (S (length (store s)))
                        (S (S (length (store s)))) (value n)];
        store := store s
                 ++ [ExecutionParam (replicate (length (input n)) VInvalid);
                     ExecutionParam (replicate (length (output n)) VInvalid)] |}).
Proof.
  intros HK Hcur Hq. unfold toposortGenerateGraphNode. rewrite bind_alloc.
  set (s1 := push_store _ s).
  assert (∀ key, baseOf g s1 key = baseOf g s key) as Hsame by done.
  assert (is_Some (baseOf g s1 K)) as HK1 by by rewrite Hsame.
  assert (Forall (quietInput g s1 K) (input n)) as Hq1.
  { eapply Forall_impl; [exact Hq|]. intros spec. unfold quietInput.
    by rewrite Hsame. }
  rewrite (bind_step _ _ _ _ _ (quiet_pass1 K s1 cur _ HK1 Hcur Hq1)).
  rewrite (bind_step _ _ _ _ _ (quiet_pass2 K s1 cur _ HK1 Hcur Hq1)).
  rewrite bind_emit, bind_alloc, bind_emit. unfold ret, push_result, push_store.
  subst s1. simpl. rewrite length_app. simpl. rewrite Nat.add_1_r.
  rewrite <- !(assoc_L (++)). simpl.
  do 2 f_equal.
Qed.
End decorator_chain.

Lemma NodeID_cached fuel g id s p :
  outputs s !! id = Some p ->
  toposortGenerateGraphNodeID (S fuel) g id s = (Ok p, s).
Proof. simpl. by intros ->. Qed.

Lemma NodeID_quiet fuel g K id n s cur :
  outputs s !! id = None -> nodes g !! id = Some n ->
  is_Some (baseOf g s K) -> decorating s !! K = Some cur ->
  Forall (quietInput g s K) (input n) ->
  toposortGenerateGraphNodeID (S (S fuel)) g id s
  = (Ok (S (S (length (store s)))),
     scheduledState s id n (map (wire g s cur) (input n))).
Proof.
  intros Ho Hn [bK HK] Hcur Hq.
  change (toposortGenerateGraphNodeID (S (S fuel)) g id s)
    with (match outputs s !! id with
          | Some params => (Ok params, s)
          | None =>
              let tp1 := set_pending (union {[id]}) s in
              match nodes g !! id with
              | None => (Panic "index out of range",
                         set_pending (fun p => p ∖ {[id]}) tp1)
              | Some current =>
                  match toposortGenerateGraphNode
                          (toposortGenerateGraphNodeID (S fuel) g) g current tp1 with
                  | (Ok params, tp2) =>
                      (Ok params,
                       set_pending (fun p => p ∖ {[id]})
                         (set_outputs <[id := params]> tp2))
                  | (r, tp2) => (r, set_pending (fun p => p ∖ {[id]}) tp2)
                  end
              end
          end).
  rewrite Ho, Hn. cbv zeta.
  set (s1 := set_pending (union {[id]}) s).
  assert (outputs s ⊆ outputs s1) as H1 by done.
  assert (grouped s ⊆ grouped s1) as H2 by done.
  assert (∀ x, x ∈ pending s1 -> x ∈ pending s ∨ outputs s !! x = None) as H3.
  { intros x. simpl. rewrite elem_of_union, elem_of_singleton.
    intros [->|]; auto. }
  rewrite (GraphNode_quiet _ g (NodeID_cached fuel g) K s1 cur n).
  - rewrite (wire_mono g s s1 K cur _ Hq H1 H2 H3). done.
  - exists bK. by eapply baseOf_mono.
  - done.
  - by eapply quietInput_mono.
Qed.

Lemma decorators_loop fuel g tp K slots : ∀ s cur,
  outputs tp ⊆ outputs s -> grouped tp ⊆ grouped s ->
  (∀ x, x ∈ pending s -> x ∈ pending tp ∨ outputs tp !! x = None) ->
  is_Some (baseOf g tp K) -> decorating s !! K = Some cur ->
  NoDup (map slot_id slots) ->
  Forall (λ slot, outputs s !! slot_id slot = None
                  ∧ ∃ n, nodes g !! slot_id slot = Some n
                         ∧ Forall (quietInput g tp K) (input n)) slots ->
  ∃ s',
    forEach slots (decorateStep (toposortGenerateGraphNodeID (S (S fuel)) g) K) s
    = (Ok (), s')
    ∧ result s' = result s ++ (decoratorChain g tp cur (length (store s)) slots).1
    ∧ decorating s' !! K = Some (decoratorChain g tp cur (length (store s)) slots).2
    ∧ decorated s' = decorated s
    ∧ outputs tp ⊆ outputs s' ∧ grouped tp ⊆ grouped s'
    ∧ (∀ x, x ∈ pending s' -> x ∈ pending tp ∨ outputs tp !! x = None).
Proof.
  induction slots as [|slot rest IH]; intros s cur Ho Hg Hp HK Hcur Hnd Hall.
  { exists s. simpl. rewrite (right_id_L [] (++)). done. }
  apply NoDup_cons in Hnd as [Hhd Hnd].
  apply Forall_cons in Hall as [(Hfresh & n & Hn & Hq) Hall].
  destruct HK as [bK HK].
  assert (is_Some (baseOf g s K)) as HKs by (exists bK; by eapply baseOf_mono).
  pose proof (quietInput_mono g tp s K _ Hq Ho Hg Hp) as Hqs.
  pose proof (NodeID_quiet fuel g K _ n s cur Hfresh Hn HKs Hcur Hqs) as Hid.
  rewrite (wire_mono g tp s K cur _ Hq Ho Hg Hp) in Hid.
  set (items := map (wire g tp cur) (input n)) in *.
  set (next := {| ec_result := S (S (length (store s)));
                  ec_index := slot_index slot |}).
  set (s2 := set_decorating <[K := next]> (scheduledState s (slot_id slot) n items)).
  assert (outputs tp !! slot_id slot = None) as Hfresh0.
  { destruct (outputs tp !! slot_id slot) as [p|] eqn:E; [|done].
    by rewrite (lookup_weaken _ _ _ _ E Ho) in Hfresh. }
  destruct (IH s2 next) as (s' & Hloop & Hres & Hdec & Hdd & Ho' & Hg' & Hp').
  - simpl. by apply insert_subseteq_r.
  - done.
  - intros x. simpl. rewrite elem_of_difference. intros [Hx _].
    apply elem_of_union in Hx as [Hx%elem_of_singleton|Hx]; [subst; auto|auto].
  - eauto.
  - simpl. by rewrite lookup_insert_eq.
  - done.
  - eapply Forall_impl; [apply Forall_and; split; [exact Hall|]|].
    + apply Forall_forall. intros slot' Hin. instantiate (1 := λ slot', slot_id slot' ≠ slot_id slot).
      simpl. intros Heq. apply Hhd. rewrite <- Heq.
      apply list_elem_of_In, in_map, list_elem_of_In, Hin.
    + simpl. intros slot' [(Hf & Hrest) Hne]. split; [|done].
      by rewrite lookup_insert_ne.
  - exists s'. split.
    { simpl. unfold decorateStep at 1.
      rewrite (bind_step _ _ _ () s2); [exact Hloop|].
      by rewrite (bind_step _ _ _ _ _ Hid). }
    simpl decoratorChain. rewrite Hn. fold next.
    assert (length (store s2) = S (S (length (store s)))) as Hlen.
    { simpl. rewrite length_app. simpl. lia. }
    rewrite Hlen in Hres, Hdec.
    destruct (decoratorChain g tp next (S (S (length (store s)))) rest)
      as [steps last].
    simpl in *. rewrite Hres, <- (assoc_L (++)). done.
Qed.

Lemma chainEnd_cons base next slot rest i :
  chainEnd base next (slot :: rest) (S i)
  = chainEnd {| ec_result := S (S next); ec_index := slot_index slot |}
      (S (S next)) rest i.
Proof.
  destruct i as [|j]; simpl.
  - by rewrite Nat.add_0_r.
  - destruct (rest !! j); [|done]. do 2 f_equal. lia.
Qed.

Lemma decoratorChain_shape g tp slots : ∀ cur next,
  Forall (λ slot, is_Some (nodes g !! slot_id slot)) slots ->
  (decoratorChain g tp cur next slots).2 = chainEnd cur next slots (length slots)
  ∧ ∀ i slot n,
      slots !! i = Some slot -> nodes g !! slot_id slot = Some n ->
      (decoratorChain g tp cur next slots).1 !! (2 * i)
      = Some (collectParamNode
                (map (wire g tp (chainEnd cur next slots i)) (input n))
                (S (next + 2 * i)))
      ∧ (decoratorChain g tp cur next slots).1 !! S (2 * i)
        = Some (graphUserNode (S (next + 2 * i)) (S (S (next + 2 * i)))
                  (value n)).
Proof.
  induction slots as [|slot rest IH]; intros cur next Hall.
  { split; [done|]. by intros i slot n. }
  apply Forall_cons in Hall as [[n0 Hn0] Hall].
  specialize (IH {| ec_result := S (S next); ec_index := slot_index slot |}
                (S (S next)) Hall).
  simpl decoratorChain. rewrite Hn0.
  destruct (decoratorChain g tp _ (S (S next)) rest) as [steps last].
  destruct IH as [IH1 IH2]. simpl in IH1, IH2. split.
  - simpl length. rewrite chainEnd_cons. exact IH1.
  - intros [|i] slot' n Hi Hn.
    + simpl in Hi. simplify_eq. simpl. by rewrite Nat.add_0_r.
    + simpl in Hi. destruct (IH2 i slot' n Hi Hn) as [Ha Hb].
      rewrite chainEnd_cons.
      replace (2 * S i) with (S (S (2 * i))) by lia.
      replace (next + S (S (2 * i))) with (S (S next) + 2 * i) by lia.
      simpl fst. split; [exact Ha|exact Hb].
Qed.




(** * Further properties of the code *)

(** ** What a built graph records *)

Lemma outputSlots_spec dec key id out : ∀ i slot,
  slot ∈ outputSlots dec key id i out
  ↔ slot_id slot = id
    ∧ ∃ j spec, slot_index slot = (i + j)%nat ∧ out !! j = Some spec
                ∧ extractGraphKey spec = key ∧ Decorate spec = dec.
Proof.
  induction out as [|spec out IH]; intros i slot; simpl.
  { split; [by intros ?%elem_of_nil|]. by intros (_ & j & s & _ & ? & _). }
  rewrite elem_of_app, IH. split.
  - intros [H|(Hid & j & s & Hj & Hs & Hk)].
    + case_decide as Hd; [|by apply elem_of_nil in H].
      apply list_elem_of_singleton in H as ->. destruct Hd as [Hk Hd].
      split; [done|]. exists 0, spec. simpl. by rewrite Nat.add_0_r.
    + split; [done|]. exists (S j), s. split; [lia|done].
  - intros (Hid & [|j] & s & Hj & Hs & Hk & Hd).
    + left. simpl in Hs. injection Hs as ->.
      rewrite decide_True by done. apply list_elem_of_singleton.
      destruct slot as [a b]. simpl in *. f_equal; [done|lia].
    + right. split; [done|]. exists j, s. split; [lia|done].
Qed.

Lemma slots_in_order dec key ns : ∀ base slot,
  slot ∈ concat (imap (λ i n, outputSlots dec key (base + i) 0 (output n)) ns)
  ↔ ∃ i n spec, slot_id slot = (base + i)%nat ∧ ns !! i = Some n
                ∧ output n !! slot_index slot = Some spec
                ∧ extractGraphKey spec = key ∧ Decorate spec = dec.
Proof.
  induction ns as [|n ns IH]; intros base slot; simpl.
  { split; [by intros ?%elem_of_nil|]. by intros (i & ? & ? & _ & ? & _). }
  rewrite elem_of_app, outputSlots_spec.
  rewrite (imap_ext _ (λ i n, outputSlots dec key (S base + i) 0 (output n)));
    [|intros; simpl; f_equal; lia].
  rewrite IH. split.
  - intros [(Hid & j & spec & Hj & Ho & Hk)|(i & m & spec & Hid & Hi & Ho & Hk)].
    + exists 0, n, spec. simpl in Hj. subst j. by rewrite Hid.
    + exists (S i), m, spec. split; [lia|done].
  - intros ([|i] & m & spec & Hid & Hi & Ho & Hk).
    + left. simpl in Hi. injection Hi as ->. split; [lia|].
      by exists (slot_index slot), spec.
    + right. exists i, m, spec. split; [lia|done].
Qed.

Lemma decorate_foldl_insert key ns : ∀ g,
  slotsOf (decorate (foldl graph_insert g ns)) key
  = slotsOf (decorate g) key
    ++ concat (imap (λ i n, outputSlots true key (length (nodes g) + i) 0 (output n))
                 ns).
Proof.
  induction ns as [|n ns IH]; intros g; simpl.
  { by rewrite app_nil_r. }
  rewrite IH, graph_insert_decorate, graph_insert_nodes, <- app_assoc, Nat.add_0_r.
  do 3 f_equal. apply imap_ext. intros i x _. simpl.
  rewrite length_app. simpl. f_equal. lia.
Qed.

Lemma decorate_buildGraph key ns :
  slotsOf (decorate (buildGraph ns)) key = decoratorsInOrder key ns.
Proof. unfold buildGraph. by rewrite decorate_foldl_insert. Qed.

Lemma nodes_foldl_insert ns : ∀ g,
  nodes (foldl graph_insert g ns) = nodes g ++ ns.
Proof.
  induction ns as [|n ns IH]; intros g; simpl.
  { by rewrite app_nil_r. }
  by rewrite IH, graph_insert_nodes, <- app_assoc.
Qed.

Lemma nodes_buildGraph ns : nodes (buildGraph ns) = ns.
Proof. unfold buildGraph. by rewrite nodes_foldl_insert. Qed.

Lemma provide_buildGraph_slotOf ns key slot :
  slot ∈ slotsOf (provide (buildGraph ns)) key ↔ slotOf ns false key slot.
Proof.
  rewrite provide_buildGraph. unfold providersInOrder.
  rewrite (slots_in_order false key ns 0). unfold slotOf. split.
  - intros (i & n & spec & Hid & Hi & H). exists n, spec. by rewrite Hid.
  - intros (n & spec & Hi & H). by exists (slot_id slot), n, spec.
Qed.

Lemma decorate_buildGraph_slotOf ns key slot :
  slot ∈ slotsOf (decorate (buildGraph ns)) key ↔ slotOf ns true key slot.
Proof.
  rewrite decorate_buildGraph. unfold decoratorsInOrder.
  rewrite (slots_in_order true key ns 0). unfold slotOf. split.
  - intros (i & n & spec & Hid & Hi & H). exists n, spec. by rewrite Hid.
  - intros (n & spec & Hi & H). by exists (slot_id slot), n, spec.
Qed.

(** X1. In the graph obtained by inserting the nodes [ns] one after the
    other into a new graph, the node list is [ns]; the provide bucket of
    a key holds exactly the slots (node id, output index) of the
    non-decorating outputs with that key, the decorate bucket exactly
    those of the decorating outputs with that key; so a decorating
    output never counts as a provider, and every slot of either bucket
    names an existing node. *)
Theorem X1_buckets_of_built_graph (ns : list graphNode) :
  nodes (buildGraph ns) = ns
  ∧ (∀ key slot,
       slot ∈ slotsOf (provide (buildGraph ns)) key ↔ slotOf ns false key slot)
  ∧ (∀ key slot,
       slot ∈ slotsOf (decorate (buildGraph ns)) key ↔ slotOf ns true key slot)
  ∧ (∀ key slot,
       slot ∈ slotsOf (provide (buildGraph ns)) key
       ∨ slot ∈ slotsOf (decorate (buildGraph ns)) key ->
       is_Some (nodes (buildGraph ns) !! slot_id slot)).
Proof.
  split; [apply nodes_buildGraph|]. split; [apply provide_buildGraph_slotOf|].
  split; [apply decorate_buildGraph_slotOf|].
  intros key slot. rewrite nodes_buildGraph.
  rewrite provide_buildGraph_slotOf, decorate_buildGraph_slotOf.
  intros [(n & _ & -> & _)|(n & _ & -> & _)]; eauto.
Qed.

(** ** Options: providers and consumers are collected separately *)

Lemma applyOption_flatten : ∀ opt o,
  applyOption opt o
  = {| opt_g := foldl graph_insert (opt_g o) (omap providerNode (flattenOption opt));
       consumers := consumers o ++ omap consumerNode (flattenOption opt) |}.
Proof.
  fix IH 1. intros [opts|f inp out fmt|values out fmt|f inp out fmt|f inp fmt
                   |ptrs inp fmt] o; simpl;
    try (unfold insertOpt, consumeOpt; simpl; by rewrite ?app_nil_r).
  revert o. induction opts as [|x rest IHr]; intros o.
  - destruct o. simpl. by rewrite app_nil_r.
  - rewrite (IH x o), IHr. simpl.
    rewrite !omap_app, foldl_app, <- app_assoc. done.
Qed.

Lemma buildOptions_lists opts :
  buildOptions opts
  = {| opt_g := buildGraph (providerNodes opts); consumers := consumerNodes opts |}.
Proof. unfold buildOptions. by rewrite applyOption_flatten. Qed.

Lemma flattenOption_cons x rest :
  flattenOption (ModuleOpt (x :: rest))
  = flattenOption x ++ flattenOption (ModuleOpt rest).
Proof. done. Qed.

Lemma flattenOption_app xs ys :
  flattenOption (ModuleOpt (xs ++ ys))
  = flattenOption (ModuleOpt xs) ++ flattenOption (ModuleOpt ys).
Proof.
  induction xs as [|x xs IH]; [done|].
  change ((x :: xs) ++ ys) with (x :: (xs ++ ys)).
  by rewrite !flattenOption_cons, IH, <- app_assoc.
Qed.

(** X2. [Run] sees its options as two lists: the nodes of the
    providing options ([Provide], [Supply], [Stack]) inserted into the
    graph in option order, and the consumer roots of the consuming
    options ([Invoke], [Populate]) in option order, modules unfolded.
    So a module behaves as its options written in its place, and two
    option lists with the same providers in the same order and the same
    consumers in the same order run alike: where a consumer stands
    among the providers makes no difference. *)
Theorem X2_options_are_two_lists :
  (∀ opts,
     opt_g (buildOptions opts) = buildGraph (providerNodes opts)
     ∧ consumers (buildOptions opts) = consumerNodes opts)
  ∧ (∀ fuel xs ys zs,
       Run fuel (xs ++ ModuleOpt ys :: zs) = Run fuel (xs ++ ys ++ zs))
  ∧ (∀ fuel opts opts',
       providerNodes opts = providerNodes opts' ->
       consumerNodes opts = consumerNodes opts' ->
       Run fuel opts = Run fuel opts').
Proof.
  split; [|split].
  - intros opts. by rewrite buildOptions_lists.
  - intros fuel xs ys zs. unfold Run. rewrite !buildOptions_lists.
    unfold providerNodes, consumerNodes.
    rewrite !flattenOption_app, !flattenOption_cons. done.
  - intros fuel opts opts' Hp Hc. unfold Run.
    by rewrite !buildOptions_lists, Hp, Hc.
Qed.

Lemma X2_options_are_two_lists_witness :
  Run 9 [Invoke (λ _, (["main"], None)) [portA] None;
         Supply [VAtom "a"] [portA] None]
  = Run 9 [Supply [VAtom "a"] [portA] None;
           ModuleOpt [Invoke (λ _, (["main"], None)) [portA] None]].
Proof.
  apply (proj2 (proj2 X2_options_are_two_lists) 9
           [Invoke (λ _, (["main"], None)) [portA] None;
            Supply [VAtom "a"] [portA] None]
           [Supply [VAtom "a"] [portA] None;
            ModuleOpt [Invoke (λ _, (["main"], None)) [portA] None]]).
  - reflexivity.
  - reflexivity.
Defined.

(** ** The planner only extends its state *)

(** X3. Whatever the outcome, also on failure, scheduling a node keeps
    every output buffer, group buffer and decorated collect recorded
    before, only appends to the plan and to the buffers, and leaves no
    node marked pending that was not marked before; when [toposort] is
    done with the consumer roots, no node is marked pending. *)
Theorem X3_planning_only_extends (fuel : nat) (g : graph) :
  (∀ id tp, ext tp (toposortGenerateGraphNodeID fuel g id tp).2)
  ∧ (∀ current tp,
       ext tp (toposortGenerateGraphNode (toposortGenerateGraphNodeID fuel g) g
                 current tp).2)
  ∧ (∀ roots, pending (toposortState fuel g roots).2 = ∅).
Proof.
  split; [intros id; apply frames_NodeID|]. split.
  - intros current. apply frames_GraphNode. intros id. apply frames_NodeID.
  - intros roots. unfold toposortState.
    assert (frames (forEach roots (rootStep fuel g))) as H.
    { apply frames_forEach. intros root. unfold rootStep.
      apply frames_bind; [|intros; apply frames_ret].
      apply frames_GraphNode. intros id. apply frames_NodeID. }
    destruct (H newGraphToposort) as [_ _ _ Hp _ _ _]. simpl in Hp.
    apply leibniz_equiv. apply elem_of_equiv_empty. intros x Hx.
    apply Hp in Hx. by apply elem_of_empty in Hx.
Qed.

(** ** Planning terminates when every input is a plain singleton *)

Lemma settles_ret {A} P (a : A) : settles P (ret a).
Proof. by intros tp Hp. Qed.

Lemma settles_fail {A} P e : settles P (@fail A e).
Proof. by intros tp Hp. Qed.

Lemma settles_bind {A B} P (m : planM A) (k : A -> planM B) :
  settles P m -> (∀ a, settles P (k a)) -> settles P (bind m k).
Proof.
  intros Hm Hk tp Hp. unfold bind. destruct (Hm tp Hp) as [H1 H2].
  destruct (m tp) as [[a| | |] tp1]; simpl in *; try done.
  by apply Hk.
Qed.

Lemma settles_forEach {A} P (xs : list A) body :
  Forall (λ x, settles P (body x)) xs -> settles P (forEach xs body).
Proof.
  induction 1 as [|x xs Hx _ IH]; simpl; [apply settles_ret|].
  apply settles_bind; [done|by intros _].
Qed.

Lemma settles_collectEach {A B} P (xs : list A) (body : A -> planM B) :
  Forall (λ x, settles P (body x)) xs -> settles P (collectEach xs body).
Proof.
  induction 1 as [|x xs Hx _ IH]; simpl; [apply settles_ret|].
  apply settles_bind; [done|intros b].
  apply settles_bind; [done|intros bs; apply settles_ret].
Qed.

Section planner_settles.
Variable nodeID : nat -> planM ptr.
Variable g : graph.
Variable P : gset nat.
Hypothesis slots_valid : ∀ key slot,
  slot ∈ slotsOf (provide g) key -> (slot_id slot < length (nodes g))%nat.
Hypothesis nodeID_settles : ∀ id,
  id ∉ P -> (id < length (nodes g))%nat -> settles P (nodeID id).

Lemma settles_Single item : settles P (toposortGenerateSingle nodeID g item).
Proof.
  unfold toposortGenerateSingle.
  destruct (slotsOf (provide g) item) as [|slot [|]] eqn:Hs;
    [apply settles_fail| |apply settles_fail].
  assert (slot_id slot < length (nodes g))%nat as Hv.
  { apply (slots_valid item). rewrite Hs. by left. }
  intros tp Hp. rewrite bind_get, Hp.
  destruct (decide (slot_id slot ∈ P)) as [Hin|Hin].
  - destruct (lookup_lt_is_Some_2 (nodes g) _ Hv) as [n ->]. by rewrite <- Hp.
  - revert tp Hp. apply settles_bind; [by apply nodeID_settles|].
    intros p. apply settles_ret.
Qed.

Lemma settles_BaseCollect spec :
  singletonInput g spec ->
  settles P (toposortGenerateBaseCollect nodeID g (extractGraphKey spec)).
Proof.
  intros (Hg & _ & Hd). unfold toposortGenerateBaseCollect.
  change (group (extractGraphKey spec)) with (Group spec). rewrite Hg, Hd.
  apply settles_bind; [apply settles_Single|intros b; apply settles_ret].
Qed.

Lemma settles_Collect spec :
  singletonInput g spec -> settles P (toposortGenerateCollect nodeID g spec).
Proof.
  intros Hs tp Hp. pose proof (settles_BaseCollect spec Hs tp Hp) as [H1 H2].
  unfold toposortGenerateCollect.
  destruct (toposortGenerateBaseCollect _ _ _ _) as [[b| | |] tp1]; try done.
  destruct Hs as (_ & Hn & Hd). unfold collectAfterBase. by rewrite Hn, Hd.
Qed.

Lemma settles_GraphNode current :
  Forall (singletonInput g) (input current) ->
  settles P (toposortGenerateGraphNode nodeID g current).
Proof.
  intros Hin. unfold toposortGenerateGraphNode.
  apply settles_bind; [by intros tp Hp|intros p].
  apply settles_bind.
  { apply settles_forEach. eapply Forall_impl; [exact Hin|].
    intros spec Hs. unfold baseStep.
    apply settles_bind; [by apply settles_BaseCollect|intros; apply settles_ret]. }
  intros _. apply settles_bind.
  { apply settles_collectEach. eapply Forall_impl; [exact Hin|].
    intros spec Hs. by apply settles_Collect. }
  intros items. apply settles_bind; [by intros tp Hp|intros _].
  apply settles_bind; [by intros tp Hp|intros r].
  apply settles_bind; [by intros tp Hp|intros _]. apply settles_ret.
Qed.
End planner_settles.

Lemma pending_unmark (P : gset nat) (id : nat) :
  id ∉ P -> ({[id]} ∪ P) ∖ {[id]} = P.
Proof.
  intros Hn. apply leibniz_equiv. intros x.
  rewrite elem_of_difference, elem_of_union, elem_of_singleton. split.
  - intros [[->|Hx] Hne]; done.
  - intros Hx. split; [by right|]. intros ->. done.
Qed.

Lemma settles_NodeID g roots :
  singletonOnly g roots ->
  ∀ fuel P id,
    id ∉ P -> (id < length (nodes g))%nat ->
    (size ((set_seq 0 (length (nodes g)) : gset nat) ∖ P) ≤ fuel)%nat ->
    settles P (toposortGenerateGraphNodeID fuel g id).
Proof.
  intros [Hv Hin]. induction fuel as [|fuel IH]; intros P id HP Hid Hf.
  { exfalso. assert (id ∈ (set_seq 0 (length (nodes g)) : gset nat) ∖ P) as Hx.
    { apply elem_of_difference. split; [|done]. apply elem_of_set_seq. lia. }
    assert (size ((set_seq 0 (length (nodes g)) : gset nat) ∖ P) = 0) as H0
      by lia.
    apply size_empty_inv in H0. apply H0 in Hx. by apply elem_of_empty in Hx. }
  intros tp Hp. simpl. destruct (outputs tp !! id) eqn:Ho; [done|].
  destruct (lookup_lt_is_Some_2 (nodes g) _ Hid) as [n Hn]. rewrite Hn.
  set (tp1 := set_pending (union {[id]}) tp).
  assert (settles ({[id]} ∪ P)
            (toposortGenerateGraphNode (toposortGenerateGraphNodeID fuel g) g n))
    as Hs.
  { apply settles_GraphNode; [done| |].
    - intros id' Hid' Hlt. apply IH; [done|done|].
      assert ((set_seq 0 (length (nodes g)) : gset nat) ∖ ({[id]} ∪ P)
              ⊂ (set_seq 0 (length (nodes g)) : gset nat) ∖ P) as Hsub.
      { split.
        - intros x. rewrite !elem_of_difference, elem_of_union.
          intros [Hx Hn']. split; [done|]. intros Hp'. apply Hn'. by right.
        - intros Hc. specialize (Hc id).
          rewrite !elem_of_difference, elem_of_union, elem_of_singleton,
            elem_of_set_seq in Hc.
          destruct Hc as [_ Hc]; [split; [lia|done]|]. apply Hc. by left. }
      apply subset_size in Hsub. lia.
    - apply Hin, elem_of_app. left. by eapply list_elem_of_lookup_2. }
  destruct (Hs tp1) as [H1 H2]; [simpl; by rewrite Hp|].
  destruct (toposortGenerateGraphNode _ _ _ _) as [[p| | |] tp2]; simpl in *;
    try done; (split; [done|]); rewrite H2; by apply pending_unmark.
Qed.

Lemma singletonOnly_buildGraph ns roots :
  (∀ n, n ∈ ns ++ roots -> Forall (singletonInput (buildGraph ns)) (input n)) ->
  singletonOnly (buildGraph ns) roots.
Proof.
  intros H. split.
  - intros key slot (n & _ & Hn & _)%provide_buildGraph_slotOf.
    rewrite nodes_buildGraph. by eapply lookup_lt_Some.
  - by rewrite nodes_buildGraph.
Qed.

(** X4. When no input of any node or consumer root is a group port, a
    decorating port or a port that has decorators, and the provider
    slots name existing nodes, planning terminates: the recursion is
    never deeper than the number of nodes, and [toposort] returns a
    plan or a plain error value; it neither panics nor runs on. *)
Theorem X4_singleton_planning_terminates
    (fuel : nat) (g : graph) (roots : list graphNode) :
  singletonOnly g roots ->
  (length (nodes g) ≤ fuel)%nat ->
  (∃ plan, toposort fuel g roots = Ok plan)
  ∨ (∃ e, toposort fuel g roots = Fail e ∧ plain e).
Proof.
  intros Hs Hf.
  assert (settles ∅ (forEach roots (rootStep fuel g))) as H.
  { apply settles_forEach. apply Forall_forall. intros root Hroot.
    unfold rootStep. apply settles_bind; [|intros; apply settles_ret].
    destruct Hs as [Hv Hin]. apply settles_GraphNode; [done| |].
    - intros id _ Hid. apply (settles_NodeID g roots); [done|by intros ?%elem_of_empty|done|].
      rewrite difference_empty_L, size_set_seq. done.
    - apply Hin, elem_of_app. by right. }
  destruct (H newGraphToposort) as [H1 _]; [done|].
  pose proof (toposort_Fail_plain fuel g roots) as Hplain.
  unfold toposort, toposortState in *.
  destruct (forEach roots (rootStep fuel g) newGraphToposort) as [[[]|e| |] tp];
    simpl in H1; try done.
  - left. eauto.
  - right. exists e. split; [done|]. by apply Hplain.
Qed.

Lemma X4_singleton_planning_terminates_witness :
  (∃ plan, toposort 2 twoCycle [cycleRoot] = Ok plan)
  ∨ (∃ e, toposort 2 twoCycle [cycleRoot] = Fail e ∧ plain e).
Proof.
  apply (X4_singleton_planning_terminates 2 twoCycle [cycleRoot]).
  - apply singletonOnly_buildGraph. intros n Hn.
    simpl in Hn. repeat (apply elem_of_cons in Hn as [->|Hn]);
      try (by apply elem_of_nil in Hn); repeat constructor.
  - vm_compute. lia.
Defined.

(** ** A decorator is no provider *)

Lemma onlyDecorated_no_provider ns key :
  onlyDecorated ns key -> slotsOf (provide (buildGraph ns)) key = [].
Proof.
  intros H. destruct (slotsOf (provide (buildGraph ns)) key) as [|slot l] eqn:E;
    [done|exfalso].
  assert (slot ∈ slotsOf (provide (buildGraph ns)) key) as Hin
    by (rewrite E; by left).
  apply provide_buildGraph_slotOf in Hin as (n & spec & Hn & Ho & Hk & Hd).
  rewrite (H n spec) in Hd; [done| | |done].
  - by eapply list_elem_of_lookup_2.
  - by eapply list_elem_of_lookup_2.
Qed.

Lemma toposort_first_root_Fail fuel g root roots e tp' :
  toposortGenerateGraphNode (toposortGenerateGraphNodeID fuel g) g root
    newGraphToposort = (Fail e, tp') ->
  toposort fuel g (root :: roots) = Fail e.
Proof.
  intros HG. unfold toposort, toposortState. simpl.
  erewrite bind_Fail; [done|]. unfold rootStep. by apply bind_Fail.
Qed.

(** X5. A port that nodes put out only as decorators has no provider:
    its provide bucket is empty, a consumer root that asks for it first
    gets the missing-dependency error of that port, and so does a
    consumer root whose first input is provided by a node that itself
    asks first for such a port, as a decorator that also provides
    another type does. *)
Theorem X5_decorator_is_no_provider :
  (∀ ns key,
     onlyDecorated ns key -> slotsOf (provide (buildGraph ns)) key = [])
  ∧ (∀ fuel ns root spec rest roots,
       input root = spec :: rest -> Group spec = false ->
       onlyDecorated ns (extractGraphKey spec) ->
       toposort fuel (buildGraph ns) (root :: roots)
       = Fail (missingDependency (extractGraphKey spec)))
  ∧ (∀ fuel ns root spec rest roots slot d dspec drest,
       input root = spec :: rest -> Group spec = false ->
       slotsOf (provide (buildGraph ns)) (extractGraphKey spec) = [slot] ->
       ns !! slot_id slot = Some d ->
       input d = dspec :: drest -> Group dspec = false ->
       onlyDecorated ns (extractGraphKey dspec) ->
       toposort (S fuel) (buildGraph ns) (root :: roots)
       = Fail (missingDependency (extractGraphKey dspec))).
Proof.
  split; [exact onlyDecorated_no_provider|]. split.
  - intros fuel ns root spec rest roots Hin Hg Hd.
    eapply toposort_first_input_Fail; [done|]. intros tp. exists tp.
    apply BaseCollect_Single_Fail; [done|].
    by apply Single_missing, onlyDecorated_no_provider.
  - intros fuel ns root spec rest roots slot d dspec drest Hin Hg Hs Hd Hdin Hdg Hod.
    eapply toposort_first_root_Fail.
    eapply GraphNode_first_input_Fail_at; [done|].
    apply BaseCollect_Single_Fail; [done|].
    unfold toposortGenerateSingle. rewrite Hs, bind_get. simpl pending.
    rewrite decide_False by (by intros ?%elem_of_empty).
    apply bind_Fail. simpl. rewrite nodes_buildGraph, Hd.
    erewrite GraphNode_first_input_Fail_at; [done|done|].
    apply BaseCollect_Single_Fail; [done|].
    by apply Single_missing, onlyDecorated_no_provider.
Qed.

Lemma X5_decorator_is_no_provider_witness :
  slotsOf (provide (buildGraph [loneDecorator])) (GraphNodeKey "*X" "" false) = []
  ∧ toposort 1 (buildGraph [loneDecorator]) [consumerOf (MkSpec "*X" "" false false)]
    = Fail (missingDependency (GraphNodeKey "*X" "" false))
  ∧ toposort 1 (buildGraph [loneDecorator]) [consumerOf (MkSpec "*Y" "" false false)]
    = Fail (missingDependency (GraphNodeKey "*X" "" false)).
Proof.
  assert (onlyDecorated [loneDecorator] (GraphNodeKey "*X" "" false)) as Hod.
  { intros n o ->%list_elem_of_singleton Ho Hk. simpl in Ho.
    repeat (apply elem_of_cons in Ho as [->|Ho]); try done.
    by apply elem_of_nil in Ho. }
  destruct X5_decorator_is_no_provider as (H1 & H2 & H3). split; [|split].
  - by apply H1.
  - by apply (H2 1 [loneDecorator] (consumerOf (MkSpec "*X" "" false false))
                (MkSpec "*X" "" false false) [] []).
  - by apply (H3 0 [loneDecorator] (consumerOf (MkSpec "*Y" "" false false))
                (MkSpec "*Y" "" false false) [] [] (Slot 0 1) loneDecorator
                (MkSpec "*X" "" false true) []).
Defined.

(** ** A group nobody provides *)

Lemma emptyGroup_plan fuel g root spec :
  input root = [spec] -> Group spec = true -> Decorate spec = false ->
  slotsOf (provide g) (extractGraphKey spec) = [] ->
  slotsOf (decorate g) (extractGraphKey spec) = [] ->
  toposort fuel g [root]
  = Ok ([collectGroupNode [] 2;
         collectParamNode [{| ec_result := 2; ec_index := 0 |}] 1;
         graphUserNode 1 3 (value root)],
        [ExecutionParam [VInvalid];
         ExecutionParam [MakeSlice (Typ spec)];
         ExecutionParam (replicate (length (output root)) VInvalid)]).
Proof.
  intros Hin Hg Hn Hp Hd.
  unfold toposort, toposortState. cbn [forEach].
  unfold rootStep, toposortGenerateGraphNode, bind, alloc, ret. rewrite Hin.
  cbn [forEach collectEach].
  unfold baseStep, toposortGenerateCollect, collectAfterBase,
    toposortGenerateBaseCollect, toposortGenerateGrouped,
    bind, get, alloc, emit, modify, ret.
  simpl. rewrite Hg, Hd, Hp. simpl. rewrite lookup_empty. simpl.
  rewrite lookup_insert_eq. simpl. rewrite Hn. done.
Qed.

Lemma nobodyPutsOut_buckets ns key :
  nobodyPutsOut ns key ->
  slotsOf (provide (buildGraph ns)) key = []
  ∧ slotsOf (decorate (buildGraph ns)) key = [].
Proof.
  intros H. split.
  - destruct (slotsOf (provide (buildGraph ns)) key) as [|slot l] eqn:E;
      [done|exfalso].
    assert (slot ∈ slotsOf (provide (buildGraph ns)) key) as Hin
      by (rewrite E; by left).
    apply provide_buildGraph_slotOf in Hin as (n & spec & Hn & Ho & Hk & Hd).
    apply (H n spec); [by eapply list_elem_of_lookup_2..|done].
  - destruct (slotsOf (decorate (buildGraph ns)) key) as [|slot l] eqn:E;
      [done|exfalso].
    assert (slot ∈ slotsOf (decorate (buildGraph ns)) key) as Hin
      by (rewrite E; by left).
    apply decorate_buildGraph_slotOf in Hin as (n & spec & Hn & Ho & Hk & Hd).
    apply (H n spec); [by eapply list_elem_of_lookup_2..|done].
Qed.



(** ** [Populate] writes through its pointers *)

Lemma populate_spec ptrs : ∀ inp i h,
  (i + length inp ≤ length ptrs)%nat ->
  ∃ h', populate ptrs i inp h = Some h'
    ∧ (∀ p, p ∉ take (length inp) (drop i ptrs) -> h' !! p = h !! p)
    ∧ (NoDup (take (length inp) (drop i ptrs)) ->
       ∀ j p v, ptrs !! (i + j)%nat = Some p -> inp !! j = Some v ->
                h' !! p = Some v).
Proof.
  induction inp as [|v rest IH]; intros i h Hlen; simpl in *.
  { exists h. split; [done|]. split; [done|]. by intros _ j p v _ ?. }
  destruct (lookup_lt_is_Some_2 ptrs i) as [p0 Hp0]; [lia|].
  rewrite Hp0. simpl.
  destruct (IH (S i) (<[p0 := v]> h)) as (h' & Hrun & Hframe & Hset); [lia|].
  rewrite (drop_S _ _ _ Hp0). simpl.
  exists h'. split; [done|]. split.
  - intros p Hp. rewrite Hframe.
    + apply lookup_insert_ne. intros ->. apply Hp. by left.
    + intros Hin. apply Hp. by right.
  - intros [Hfresh Hnd]%NoDup_cons [|j] p w Hp Hw.
    + rewrite Nat.add_0_r, Hp0 in Hp. simpl in Hw. simplify_eq.
      rewrite Hframe by done. apply lookup_insert_eq.
    + simpl in Hw. apply (Hset Hnd j); [|done].
      by replace (S i + j)%nat with (i + S j)%nat by lia.
Qed.

Lemma populate_short ptrs : ∀ inp i h,
  (i ≤ length ptrs)%nat -> (length ptrs < i + length inp)%nat ->
  populate ptrs i inp h = None.
Proof.
  induction inp as [|v rest IH]; intros i h Hi Hlen; simpl in *.
  { lia. }
  destruct (ptrs !! i) as [p|] eqn:Hp; [|done]. simpl.
  apply lookup_lt_Some in Hp. apply IH; lia.
Qed.



(** ** The collect-param step fills the parameter buffer *)

Lemma storeBuf_id st p buf : loadBuf st p = Some buf -> storeBuf st p buf = st.
Proof.
  destruct p as [|i]; simpl; [done|].
  destruct (st !! i) as [[b]|] eqn:Hi; [|done]. simpl.
  intros [= <-]. by apply list_insert_id.
Qed.

Lemma collects_storeBuf_ne st res vs items vals :
  res ∉ map ec_result items ->
  Forall2 (λ item v, collect st item = Some v) items vals ->
  Forall2 (λ item v, collect (storeBuf st res vs) item = Some v) items vals.
Proof.
  intros Hres HF. induction HF as [|item v items vals Hc HF IH]; constructor.
  - simpl in Hres. apply not_elem_of_cons in Hres as [Hne _].
    by rewrite collect_storeBuf_ne.
  - simpl in Hres. apply not_elem_of_cons in Hres as [_ Hres]. by apply IH.
Qed.

Lemma collectParamNode_execute_from items : ∀ res i st buf vals,
  res ∉ map ec_result items ->
  loadBuf st res = Some buf ->
  (i + length items ≤ length buf)%nat ->
  Forall2 (λ item v, collect st item = Some v) items vals ->
  collectParamNode_execute items res i st
  = Some (storeBuf st res (take i buf ++ vals ++ drop (i + length items) buf)).
Proof.
  induction items as [|item items IH]; intros res i st buf vals Hres Hb Hlen HF.
  - apply Forall2_nil_inv_l in HF as ->. simpl.
    rewrite Nat.add_0_r, take_drop. by rewrite storeBuf_id.
  - apply Forall2_cons_inv_l in HF as (v & vals' & Hc & HF & ->).
    apply not_elem_of_cons in Hres as [Hne Hres].
    simpl in *. rewrite Hc, Hb. simpl.
    rewrite decide_True by lia.
    rewrite (IH res (S i) _ (<[i := v]> buf) vals').
    + rewrite storeBuf_storeBuf. do 2 f_equal.
      rewrite (take_S_r _ _ v) by (apply list_lookup_insert_eq; lia).
      rewrite take_insert_ge by lia. rewrite drop_insert_lt by lia.
      rewrite <- app_assoc. simpl.
      by rewrite Nat.add_succ_r.
    + done.
    + by eapply loadBuf_storeBuf_eq.
    + rewrite length_insert. lia.
    + by apply collects_storeBuf_ne.
Qed.

Lemma collectParamNode_execute_short items : ∀ res i st buf vals,
  res ∉ map ec_result items ->
  loadBuf st res = Some buf ->
  (i ≤ length buf)%nat -> (length buf < i + length items)%nat ->
  Forall2 (λ item v, collect st item = Some v) items vals ->
  collectParamNode_execute items res i st = None.
Proof.
  induction items as [|item items IH]; intros res i st buf vals Hres Hb Hi Hlen HF.
  - simpl in Hlen. lia.
  - apply Forall2_cons_inv_l in HF as (v & vals' & Hc & HF & ->).
    apply not_elem_of_cons in Hres as [Hne Hres].
    simpl in *. rewrite Hc, Hb. simpl.
    destruct (decide (i < length buf)%nat) as [Hlt|]; [|done].
    apply (IH res (S i) _ (<[i := v]> buf) vals'); try done.
    + by eapply loadBuf_storeBuf_eq.
    + rewrite length_insert. lia.
    + rewrite length_insert. lia.
    + by apply collects_storeBuf_ne.
Qed.

Lemma collectParamNode_execute_nil_source items : ∀ res i st item,
  res ∉ map ec_result items ->
  item ∈ items -> collect st item = None ->
  collectParamNode_execute items res i st = None.
Proof.
  induction items as [|x items IH]; intros res i st item Hres Hin Hc.
  - by apply elem_of_nil in Hin.
  - apply not_elem_of_cons in Hres as [Hne Hres]. simpl.
    destruct (collect st x) as [v|] eqn:Hx; [|done]. simpl.
    destruct (loadBuf st res) as [buf|]; [|done]. simpl.
    destruct (decide (i < length buf)%nat); [|done].
    apply elem_of_cons in Hin as [->|Hin]; [congruence|].
    apply (IH _ _ _ item); [done|done|].
    rewrite collect_storeBuf_ne; [done|].
    intros Heq. apply Hres. rewrite <- Heq.
    apply list_elem_of_In, in_map, list_elem_of_In, Hin.
Qed.

(** X8. Executing a collect-param step whose sources all hold a value
    and none of which is the parameter buffer itself stores the value of
    source [i] at position [i] of the parameter buffer, keeps the rest
    of that buffer and every other buffer; the step panics when it has
    more sources than the buffer has positions, and when one of its
    sources is a nil buffer or an index out of range. *)
Theorem X8_collect_param_fills_buffer :
  (∀ items res st buf vals,
     res ∉ map ec_result items ->
     loadBuf st res = Some buf ->
     (length items ≤ length buf)%nat ->
     Forall2 (λ item v, collect st item = Some v) items vals ->
     ∃ st',
       execute (collectParamNode items res) st = Some st'
       ∧ loadBuf st' res = Some (vals ++ drop (length items) buf)
       ∧ ∀ p, p ≠ res -> loadBuf st' p = loadBuf st p)
  ∧ (∀ items res st buf vals,
       res ∉ map ec_result items ->
       loadBuf st res = Some buf ->
       (length buf < length items)%nat ->
       Forall2 (λ item v, collect st item = Some v) items vals ->
       execute (collectParamNode items res) st = None)
  ∧ (∀ items res st item,
       res ∉ map ec_result items ->
       item ∈ items -> collect st item = None ->
       execute (collectParamNode items res) st = None).
Proof.
  split; [|split].
  - intros items res st buf vals Hres Hb Hlen HF. eexists. split; [|split].
    + simpl. by apply (collectParamNode_execute_from items res 0 st buf vals).
    + simpl. by eapply loadBuf_storeBuf_eq.
    + intros p Hp. by apply loadBuf_storeBuf_ne.
  - intros items res st buf vals Hres Hb Hlen HF. simpl.
    apply (collectParamNode_execute_short items res 0 st buf vals); try done. lia.
  - intros items res st item Hres Hin Hc. simpl.
    by apply (collectParamNode_execute_nil_source items res 0 st item).
Qed.

Lemma X8_collect_param_fills_buffer_witness :
  (∃ st',
     execute (collectParamNode [Collect 2 1; Collect 2 0] 1)
       [ExecutionParam [VInvalid; VInvalid; VAtom "z"];
        ExecutionParam [VAtom "a"; VAtom "b"]] = Some st'
     ∧ loadBuf st' 1
       = Some ([VAtom "b"; VAtom "a"] ++ drop 2 [VInvalid; VInvalid; VAtom "z"])
     ∧ ∀ p, p ≠ 1 ->
         loadBuf st' p
         = loadBuf [ExecutionParam [VInvalid; VInvalid; VAtom "z"];
                    ExecutionParam [VAtom "a"; VAtom "b"]] p)
  ∧ execute (collectParamNode [Collect 2 1; Collect 2 0] 1)
      [ExecutionParam [VInvalid]; ExecutionParam [VAtom "a"; VAtom "b"]] = None
  ∧ execute (collectParamNode [Collect 2 1; Collect 0 0] 1)
      [ExecutionParam [VInvalid; VInvalid]; ExecutionParam [VAtom "a"; VAtom "b"]]
    = None.
Proof.
  assert (1 ∉ map ec_result [Collect 2 1; Collect 2 0]) as Hne.
  { simpl. intros Hin. repeat (apply elem_of_cons in Hin as [Hin|Hin]); try done.
    by apply elem_of_nil in Hin. }
  destruct X8_collect_param_fills_buffer as (H1 & H2 & H3). split; [|split].
  - apply (H1 [Collect 2 1; Collect 2 0] 1 _ [VInvalid; VInvalid; VAtom "z"]
             [VAtom "b"; VAtom "a"]); [done|done|simpl; lia|].
    repeat constructor.
  - apply (H2 [Collect 2 1; Collect 2 0] 1 _ [VInvalid] [VAtom "b"; VAtom "a"]);
      [done|done|simpl; lia|]. repeat constructor.
  - apply (H3 [Collect 2 1; Collect 0 0] 1 _ (Collect 0 0)).
    + simpl. intros Hin. repeat (apply elem_of_cons in Hin as [Hin|Hin]); try done.
      by apply elem_of_nil in Hin.
    + right. by left.
    + done.
Defined.

(** ** Every consumer of a key is handed the same buffer slot *)

Lemma BaseCollect_Ok_baseOf fuel g key tp b tp1 :
  toposortGenerateBaseCollect (toposortGenerateGraphNodeID fuel g) g key tp
  = (Ok b, tp1) ->
  baseOf g tp1 key = Some b.
Proof.
  unfold toposortGenerateBaseCollect. intros (base & tp0 & Hb & H)%bind_Ok.
  assert (baseOf g tp0 key = Some base) as H0.
  { unfold baseOf. destruct (group key) eqn:Hg.
    - destruct (grouped tp !! key) as [r|] eqn:Hk.
      + unfold toposortGenerateGrouped in Hb. rewrite bind_get, Hk in Hb.
        injection Hb as <- <-. by rewrite Hk.
      + apply (Grouped_fresh_Ok _ _ _ _ _ _ Hk) in Hb
          as (items & tp' & _ & -> & ->).
        simpl. by rewrite lookup_insert_eq.
    - unfold toposortGenerateSingle in Hb.
      destruct (slotsOf (provide g) key) as [|slot [|??]]; try done.
      rewrite bind_get in Hb. case_decide as Hp.
      { by destruct (nodes g !! _). }
      apply bind_Ok in Hb as (p & tp' & Hn & [= <- <-]).
      pose proof (frames_NodeID fuel g (slot_id slot) tp) as E.
      rewrite Hn in E. simpl in E.
      rewrite decide_False
        by (intros Hin; apply Hp; by apply (ext_pending _ _ E)).
      by rewrite (NodeID_Ok_outputs _ _ _ _ _ _ Hn). }
  assert (∀ f, baseOf g (set_decorating f tp0) key = baseOf g tp0 key) as Hd
    by done.
  destruct (slotsOf (decorate g) key); [by injection H as <- <-|].
  rewrite bind_get in H. destruct (decorated tp0 !! key); [by injection H as <- <-|].
  rewrite bind_get in H. destruct (decorating tp0 !! key); [by injection H as <- <-|].
  rewrite bind_modify in H. by injection H as <- <-.
Qed.

Lemma BaseCollect_of_baseOf fuel g key s b :
  (group key = false -> fuel ≠ 0) ->
  baseOf g s key = Some b ->
  (toposortGenerateBaseCollect (toposortGenerateGraphNodeID fuel g) g key s).1
  = Ok b
  ∧ sameButDecorating s
      (toposortGenerateBaseCollect (toposortGenerateGraphNodeID fuel g) g key s).2.
Proof.
  unfold baseOf, toposortGenerateBaseCollect. intros Hf Hb.
  assert ((if group key
           then toposortGenerateGrouped (toposortGenerateGraphNodeID fuel g) g key
           else toposortGenerateSingle (toposortGenerateGraphNodeID fuel g) g key)
            s = (Ok b, s)) as Hbase.
  { destruct (group key).
    - destruct (grouped s !! key) as [p|] eqn:E; [|done]. simpl in Hb.
      unfold toposortGenerateGrouped. rewrite bind_get, E. by simplify_eq.
    - unfold toposortGenerateSingle.
      destruct (slotsOf (provide g) key) as [|slot [|]]; try done.
      rewrite bind_get.
      destruct (decide (slot_id slot ∈ pending s)); [done|].
      destruct (outputs s !! slot_id slot) as [p|] eqn:E; [|done]. simpl in Hb.
      destruct fuel as [|fuel]; [by destruct Hf|].
      rewrite (bind_step _ _ _ _ _ (NodeID_cached fuel g _ _ _ E)).
      by simplify_eq. }
  rewrite (bind_step _ _ _ _ _ Hbase).
  destruct (slotsOf (decorate g) key) as [|d ds]; [done|].
  rewrite bind_get. destruct (decorated s !! key) as [?|]; [done|].
  rewrite bind_get. destruct (decorating s !! key) as [?|]; done.
Qed.

(** X9. The base collect of a key is settled by its first success:
    asked again for that key in any later state of the planning run, the
    planner answers with the same buffer slot, schedules nothing and
    appends no step and no buffer (at most it records the slot in
    [tp.decorating]); so every consumer of a singleton is wired to the
    one output slot of its one provider, and every consumer of a group
    to the one buffer of the group. *)
Theorem X9_base_collect_is_shared
    (fuel : nat) (g : graph) (key : graphNodeKey)
    (tp tp1 tp2 : graphToposort) (b : executionCollect) :
  toposortGenerateBaseCollect (toposortGenerateGraphNodeID fuel g) g key tp
  = (Ok b, tp1) ->
  laterState tp1 tp2 ->
  (toposortGenerateBaseCollect (toposortGenerateGraphNodeID fuel g) g key tp2).1
  = Ok b
  ∧ sameButDecorating tp2
      (toposortGenerateBaseCollect (toposortGenerateGraphNodeID fuel g) g key tp2).2.
Proof.
  intros H1 (Ho & Hg & Hp).
  pose proof (BaseCollect_Ok_baseOf _ _ _ _ _ _ H1) as Hb.
  apply BaseCollect_of_baseOf.
  - intros Hk ->. revert H1. unfold toposortGenerateBaseCollect. rewrite Hk.
    intros (base & tp0 & H0 & _)%bind_Ok. revert H0.
    unfold toposortGenerateSingle.
    destruct (slotsOf (provide g) key) as [|slot [|??]]; try done.
    rewrite bind_get. case_decide; [by destruct (nodes g !! _)|done].
  - eapply baseOf_mono; [done|done|done|]. intros x Hx. right. by apply Hp.
Qed.

Lemma X9_base_collect_is_shared_witness :
  (toposortGenerateBaseCollect (toposortGenerateGraphNodeID 1 (buildGraph [supplyT "a"]))
     (buildGraph [supplyT "a"]) orphanKey
     (toposortGenerateBaseCollect
        (toposortGenerateGraphNodeID 1 (buildGraph [supplyT "a"]))
        (buildGraph [supplyT "a"]) orphanKey newGraphToposort).2).1
  = Ok {| ec_result := 2; ec_index := 0 |}
  ∧ sameButDecorating
      (toposortGenerateBaseCollect
         (toposortGenerateGraphNodeID 1 (buildGraph [supplyT "a"]))
         (buildGraph [supplyT "a"]) orphanKey newGraphToposort).2
      (toposortGenerateBaseCollect
         (toposortGenerateGraphNodeID 1 (buildGraph [supplyT "a"]))
         (buildGraph [supplyT "a"]) orphanKey
         (toposortGenerateBaseCollect
            (toposortGenerateGraphNodeID 1 (buildGraph [supplyT "a"]))
            (buildGraph [supplyT "a"]) orphanKey newGraphToposort).2).2.
Proof.
  set (tp1 := (toposortGenerateBaseCollect
                 (toposortGenerateGraphNodeID 1 (buildGraph [supplyT "a"]))
                 (buildGraph [supplyT "a"]) orphanKey newGraphToposort).2).
  apply (X9_base_collect_is_shared 1 (buildGraph [supplyT "a"]) orphanKey
           newGraphToposort tp1 tp1 {| ec_result := 2; ec_index := 0 |}).
  - vm_compute. reflexivity.
  - split; [done|]. split; [done|]. intros id Hid. vm_compute in Hid.
    discriminate.
Defined.

(** ** The ports of a function signature *)

Lemma foldl_alter_lookup {A} (f : A -> A) (js : list nat) : ∀ (l : list A) i,
  (∀ x, f (f x) = f x) ->
  foldl (λ l j, alter f j l) l js !! i
  = if decide (i ∈ js) then f <$> l !! i else l !! i.
Proof.
  induction js as [|j js IH]; intros l i Hf; simpl; [done|].
  rewrite IH by done.
  destruct (decide (i = j)) as [->|Hne].
  - rewrite list_lookup_alter_eq. rewrite (decide_True (P := j ∈ j :: js)) by by left.
    destruct (decide (j ∈ js)); [|done].
    destruct (l !! j); simpl; [|done]. by rewrite Hf.
  - rewrite list_lookup_alter_ne by done.
    destruct (decide (i ∈ js)) as [Hin|Hin].
    + rewrite decide_True; [done|by right].
    + rewrite decide_False; [done|]. by intros [?|?]%elem_of_cons.
Qed.

Section convert_facts.
Variable Kind_Slice : rtype -> bool.

Lemma convertSingle_inj a b :
  convertSingle Kind_Slice a = convertSingle Kind_Slice b -> a = b.
Proof. by intros [= ->]. Qed.

Lemma convertArgs_spec args :
  ∃ inMap,
    foldl (convertArg Kind_Slice) ([], ∅) (imap pair args)
    = (map (convertSingle Kind_Slice) args, inMap)
    ∧ ∀ r j, j ∈ default [] (inMap !! convertSingle Kind_Slice r)
             ↔ args !! j = Some r.
Proof.
  induction args as [|a args IH] using rev_ind.
  { exists ∅. split; [done|]. intros r j. rewrite lookup_empty. simpl.
    split; [by intros ?%elem_of_nil|done]. }
  destruct IH as (inMap & Hrun & Hmap).
  rewrite imap_app, foldl_app, Hrun. simpl. rewrite Nat.add_0_r.
  eexists. split.
  { unfold convertArg. simpl. by rewrite map_app. }
  intros r j. destruct (decide (a = r)) as [->|Hne].
  - rewrite lookup_insert_eq. simpl. rewrite elem_of_app, Hmap, list_elem_of_singleton.
    split.
    + intros [Hj| ->].
      * by apply lookup_app_l_Some.
      * by rewrite list_lookup_middle.
    + intros Hj. destruct (decide (j = length args)) as [->|Hjn]; [by right|left].
      apply lookup_app_Some in Hj as [Hj|[Hge Hj]]; [done|].
      destruct (j - length args) as [|k] eqn:Hk; [lia|]. by destruct k.
  - rewrite lookup_insert_ne
      by (intros Heq; by apply convertSingle_inj in Heq).
    rewrite Hmap. split.
    + intros Hj. by apply lookup_app_l_Some.
    + intros Hj. apply lookup_app_Some in Hj as [Hj|[Hge Hj]]; [done|].
      destruct (j - length args) as [|k]; simpl in Hj; [congruence|by destruct k].
Qed.

Lemma convertRets_spec args inMap rets :
  (∀ r j, j ∈ default [] (inMap !! convertSingle Kind_Slice r)
          ↔ args !! j = Some r) ->
  foldl (convertRet Kind_Slice inMap) (map (convertSingle Kind_Slice) args, [])
    (imap pair rets)
  = portsOf Kind_Slice args rets.
Proof.
  intros Hmap. induction rets as [|r rets IH] using rev_ind.
  { done. }
  rewrite imap_app, foldl_app, IH. simpl. rewrite Nat.add_0_r.
  unfold convertRet, portsOf. simpl fst. simpl snd.
  destruct (default [] (inMap !! convertSingle Kind_Slice r)) as [|j0 js] eqn:Hm.
  - assert (r ∉ args) as Hr.
    { intros (j & Hj)%list_elem_of_lookup_1. apply Hmap in Hj.
      rewrite Hm in Hj. by apply elem_of_nil in Hj. }
    f_equal.
    + apply map_ext_in. intros a Ha%list_elem_of_In. f_equal.
      apply bool_decide_ext. rewrite elem_of_app, list_elem_of_singleton.
      split; [by left|]. intros [?| ->]; done.
    + rewrite map_app. simpl. do 2 f_equal. unfold convertSingle. f_equal.
      symmetry. by apply bool_decide_eq_false.
  - assert (r ∈ args) as Hr.
    { apply (list_elem_of_lookup_2 _ j0), Hmap. rewrite Hm. by left. }
    f_equal.
    + apply list_eq. intros i.
      rewrite foldl_alter_lookup by done. rewrite <- Hm.
      rewrite !list_lookup_fmap.
      destruct (args !! i) as [a|] eqn:Ha; simpl; [|by case_decide].
      case_decide as Hin.
      * apply Hmap in Hin. rewrite Ha in Hin. injection Hin as ->.
        unfold setDecorate. simpl. do 2 f_equal. symmetry.
        apply bool_decide_eq_true. apply elem_of_app. right. by left.
      * do 2 f_equal. apply bool_decide_ext.
        rewrite elem_of_app, list_elem_of_singleton. split; [by left|].
        intros [?| ->]; [done|]. exfalso. apply Hin, Hmap. done.
    + rewrite map_app. simpl.
      replace (length rets) with
        (length (map (λ r0, {| Typ := r0; Name := ""; Group := Kind_Slice r0;
                               Decorate := bool_decide (r0 ∈ args) |}) rets) + 0)%nat
        by (rewrite length_map; lia).
      rewrite (alter_app_r setDecorate). simpl. do 2 f_equal.
      unfold setDecorate, convertSingle. simpl. f_equal. symmetry.
      by apply bool_decide_eq_true.
Qed.

Lemma convertFunc_portsOf args rets :
  convertFunc Kind_Slice args rets = portsOf Kind_Slice args rets.
Proof.
  unfold convertFunc. destruct (convertArgs_spec args) as (inMap & -> & Hmap).
  by apply convertRets_spec.
Qed.
End convert_facts.

(** X10. [convertFunc] turns the argument and result types of a
    function into ports without a name, a slice type into a group port,
    and marks as decorating exactly the ports whose type stands both
    among the arguments and among the results, on the input and on the
    output side; a function without results, as [Invoke] converts it,
    has no decorating port. *)
Theorem X10_convertFunc_marks_shared_types
    (Kind_Slice : rtype -> bool) (args rets : list rtype) :
  convertFunc Kind_Slice args rets = portsOf Kind_Slice args rets
  ∧ (convertFunc Kind_Slice args []).1 = map (convertSingle Kind_Slice) args
  ∧ length (convertFunc Kind_Slice args rets).1 = length args
  ∧ length (convertFunc Kind_Slice args rets).2 = length rets
  ∧ (∀ i spec, (convertFunc Kind_Slice args rets).2 !! i = Some spec ->
       (Decorate spec = true ↔ ∃ j, args !! j = rets !! i)).
Proof.
  rewrite !convertFunc_portsOf. unfold portsOf. simpl.
  split; [done|]. split.
  { apply map_ext_in. intros a _. unfold convertSingle. f_equal. }
  rewrite !length_map. split; [done|]. split; [done|].
  intros i spec. rewrite list_lookup_fmap.
  destruct (rets !! i) as [r|] eqn:Hr; [|done]. simpl. intros [= <-]. simpl.
  rewrite bool_decide_eq_true. split.
  - intros (j & Hj)%list_elem_of_lookup_1. by exists j.
  - intros (j & Hj). by eapply list_elem_of_lookup_2.
Qed.

(** ** A failing action stops the runner *)

Lemma runExec_plain rsrun e inp out rs :
  match e with stackExec _ => False | _ => True end ->
  rs_pending (runExec rsrun e inp out rs).2 = rs_pending rs
  ∧ rs_trace (runExec rsrun e inp out rs).2 = rs_trace rs.
Proof.
  destruct e as [f|values|f|f|ptrs]; simpl; intros He; try done.
  - destruct (f inp) as [evs [output [err|]]]; simpl; [done|].
    by rewrite copyOut_pending, copyOut_trace.
  - by rewrite copyOut_pending, copyOut_trace.
  - by destruct (f inp) as [evs err].
  - by destruct (populate _ _ _ _).
Qed.

Lemma run_Fail_stops fuel : ∀ rs e rs',
  stackFree (rs_pending rs) ->
  run fuel rs = (Fail e, rs') ->
  ∃ before p r action rest err,
    rs_pending rs = before ++ graphUserNode p r action :: rest
    ∧ e = ErrExecute (default "" (ra_format action)) err
    ∧ rs_pending rs' = rest
    ∧ rs_trace rs' = rs_trace rs ++ userActions before ++ [action].
Proof.
  induction fuel as [|fuel IH]; intros rs e rs' Hsf; simpl.
  { by destruct (rs_pending rs). }
  destruct (rs_pending rs) as [|node rest] eqn:E; [done|].
  apply Forall_cons in Hsf as [Hnode Hsf].
  destruct node as [uparams uresult action|items res|items res].
  - destruct (loadBuf _ uparams) as [inp|]; [|done].
    destruct (loadBuf _ uresult); [|done].
    pose proof (runExec_plain (run fuel) (exec action) inp uresult
                  (log_trace action (set_rs_pending rest rs)) Hnode) as [Hp Ht].
    destruct (runExec _ _ _ _ _) as [[[]| err | |] rs2]; simpl in Hp, Ht; try done.
    + intros H. apply IH in H as (before & p & r & a & rest' & err & Hb & -> & Hr & Htr);
        [|by rewrite Hp].
      exists (graphUserNode uparams uresult action :: before), p, r, a, rest', err.
      rewrite Hp in Hb. rewrite Hb, Htr, Ht. simpl.
      rewrite <- !app_assoc. done.
    + intros [= <- <-].
      exists [], uparams, uresult, action, rest, err. by rewrite Hp, Ht.
  - destruct (execute _ _) as [st|]; [|done]. intros H.
    apply IH in H as (before & p & r & a & rest' & err & Hb & -> & Hr & Htr);
      [|done].
    exists (collectParamNode items res :: before), p, r, a, rest', err.
    simpl in Hb. by rewrite Hb, Htr.
  - destruct (execute _ _) as [st|]; [|done]. intros H.
    apply IH in H as (before & p & r & a & rest' & err & Hb & -> & Hr & Htr);
      [|done].
    exists (collectGroupNode items res :: before), p, r, a, rest', err.
    simpl in Hb. by rewrite Hb, Htr.
Qed.

(** X11. In a plan without stack nodes the first failing action stops
    the runner: the error returned is that action's error wrapped in
    [ErrExecute] under its label, the steps planned after it stay in the
    queue and none of their actions is invoked; the actions invoked are
    those planned up to the failing one, once each and in plan order. *)
Theorem X11_failing_action_stops_runner
    (fuel : nat) (rs rs' : runState) (e : error) :
  stackFree (rs_pending rs) ->
  run fuel rs = (Fail e, rs') ->
  ∃ before p r action rest err,
    rs_pending rs = before ++ graphUserNode p r action :: rest
    ∧ e = ErrExecute (default "" (ra_format action)) err
    ∧ rs_pending rs' = rest
    ∧ rs_trace rs' = rs_trace rs ++ userActions before ++ [action].
Proof. apply run_Fail_stops. Qed.

Lemma X11_failing_action_stops_runner_witness :
  ∃ before p r action rest err,
    rs_pending anonymousFailStart = before ++ graphUserNode p r action :: rest
    ∧ ErrExecute "" (errorString "boom")
      = ErrExecute (default "" (ra_format action)) err
    ∧ rs_pending (run 4 anonymousFailStart).2 = rest
    ∧ rs_trace (run 4 anonymousFailStart).2
      = rs_trace anonymousFailStart ++ userActions before ++ [action].
Proof.
  apply (X11_failing_action_stops_runner 4 anonymousFailStart
           (run 4 anonymousFailStart).2 (ErrExecute "" (errorString "boom"))).
  - vm_compute. repeat constructor.
  - vm_compute. reflexivity.
Defined.

(** ** When planning panics *)

Lemma panicsOnly_bind {A B} P (m : planM A) (k : A -> planM B) :
  panicsOnly P m -> (∀ a, panicsOnly P (k a)) -> panicsOnly P (bind m k).
Proof.
  intros Hm Hk tp msg tp'. unfold bind.
  destruct (m tp) as [[a| | |] tp1] eqn:E; try done.
  - apply Hk.
  - intros [= <- <-]. by eapply Hm.
Qed.

Lemma panicsOnly_quiet {A} P (m : planM A) :
  (∀ tp, isOk (m tp).1 ∨ ∃ e, (m tp).1 = Fail e) -> panicsOnly P m.
Proof. intros H tp msg tp' E. destruct (H tp) as [Hx|[e Hx]]; by rewrite E in Hx. Qed.

Lemma panicsOnly_forEach {A} P (xs : list A) body :
  Forall (λ x, panicsOnly P (body x)) xs -> panicsOnly P (forEach xs body).
Proof.
  induction 1 as [|x xs Hx _ IH]; simpl.
  - apply panicsOnly_quiet. intros tp. by left.
  - apply panicsOnly_bind; [done|by intros _].
Qed.

Lemma panicsOnly_collectEach {A B} P (xs : list A) (body : A -> planM B) :
  Forall (λ x, panicsOnly P (body x)) xs -> panicsOnly P (collectEach xs body).
Proof.
  induction 1 as [|x xs Hx _ IH]; simpl.
  - apply panicsOnly_quiet. intros tp. by left.
  - apply panicsOnly_bind; [done|intros b].
    apply panicsOnly_bind; [done|intros bs].
    apply panicsOnly_quiet. intros tp. by left.
Qed.

Section planner_panics.
Variable nodeID : nat -> planM ptr.
Variable g : graph.
Variable P : string -> Prop.
Hypothesis slots_valid : slotsValid g.
Hypothesis nodeID_panics : ∀ id,
  (id < length (nodes g))%nat -> panicsOnly P (nodeID id).

Lemma panicsOnly_provider key :
  Forall (λ slot, panicsOnly P (nodeID (slot_id slot))) (slotsOf (provide g) key).
Proof.
  apply Forall_forall. intros slot Hin. apply nodeID_panics.
  apply (slots_valid key). by left.
Qed.

Lemma panicsOnly_decorator key :
  Forall (λ slot, panicsOnly P (nodeID (slot_id slot))) (slotsOf (decorate g) key).
Proof.
  apply Forall_forall. intros slot Hin. apply nodeID_panics.
  apply (slots_valid key). by right.
Qed.

Lemma panicsOnly_Single item : panicsOnly P (toposortGenerateSingle nodeID g item).
Proof.
  unfold toposortGenerateSingle.
  pose proof (panicsOnly_provider item) as Hv.
  destruct (slotsOf (provide g) item) as [|slot [|]] eqn:Hs;
    [by intros tp msg tp'| |by intros tp msg tp'].
  apply Forall_cons in Hv as [Hv _].
  intros tp msg tp'. rewrite bind_get. case_decide as Hp.
  - destruct (lookup_lt_is_Some_2 (nodes g) (slot_id slot)) as [n ->]; [|done].
    apply (slots_valid item). left. rewrite Hs. by left.
  - clear Hp. revert tp msg tp'. apply panicsOnly_bind; [done|].
    intros p. by intros tp msg tp'.
Qed.

Lemma panicsOnly_Grouped key : panicsOnly P (toposortGenerateGrouped nodeID g key).
Proof.
  unfold toposortGenerateGrouped. intros tp msg tp'. rewrite bind_get.
  destruct (grouped tp !! key); [done|]. revert tp msg tp'.
  apply panicsOnly_bind; [by intros tp msg tp'|intros r].
  apply panicsOnly_bind.
  { apply panicsOnly_collectEach.
    eapply Forall_impl; [apply panicsOnly_provider|].
    intros slot Hs. unfold groupedItem.
    apply panicsOnly_bind; [done|]. intros p. by intros tp msg tp'. }
  intros items. apply panicsOnly_bind; [by intros tp msg tp'|intros _].
  apply panicsOnly_bind; [by intros tp msg tp'|intros _]. by intros tp msg tp'.
Qed.

Lemma panicsOnly_BaseCollect key :
  panicsOnly P (toposortGenerateBaseCollect nodeID g key).
Proof.
  unfold toposortGenerateBaseCollect. apply panicsOnly_bind.
  { destruct (group key); [apply panicsOnly_Grouped|apply panicsOnly_Single]. }
  intros b. destruct (slotsOf (decorate g) key); [by intros tp msg tp'|].
  intros tp msg tp'. rewrite bind_get. destruct (decorated tp !! key); [done|].
  rewrite bind_get. by destruct (decorating tp !! key).
Qed.

Lemma panicsOnly_Collect spec :
  (Decorate spec = true -> P "invalid uninitialized decorate") ->
  panicsOnly P (toposortGenerateCollect nodeID g spec).
Proof.
  intros Hd tp msg tp'. unfold toposortGenerateCollect.
  pose proof (panicsOnly_BaseCollect (extractGraphKey spec) tp) as Hb.
  destruct (toposortGenerateBaseCollect _ _ _ _) as [[b| | |] tp1]; try done.
  - unfold collectAfterBase. destruct (Decorate spec).
    + rewrite bind_get. destruct (decorating tp1 !! _); [done|].
      intros [= <- _]. by apply Hd.
    + pose proof (panicsOnly_decorator (extractGraphKey spec)) as Hv.
      destruct (slotsOf (decorate g) (extractGraphKey spec)) as [|s l];
        [done|].
      rewrite bind_get. destruct (decorated tp1 !! _); [done|].
      revert tp1 msg tp' Hb. intros tp1 msg tp' _. revert tp1 msg tp'.
      apply panicsOnly_bind.
      { apply panicsOnly_forEach. eapply Forall_impl; [exact Hv|].
        intros slot Hs. unfold decorateStep.
        apply panicsOnly_bind; [done|]. intros p. by intros tp1 msg tp'. }
      intros _ tp1 msg tp'. rewrite bind_get. done.
  - intros [= <- <-]. by eapply Hb.
Qed.

Lemma panicsOnly_GraphNode current :
  Forall (λ spec, Decorate spec = true -> P "invalid uninitialized decorate")
    (input current) ->
  panicsOnly P (toposortGenerateGraphNode nodeID g current).
Proof.
  intros Hin. unfold toposortGenerateGraphNode.
  apply panicsOnly_bind; [by intros tp msg tp'|intros p].
  apply panicsOnly_bind.
  { apply panicsOnly_forEach. apply Forall_forall. intros spec _.
    unfold baseStep. apply panicsOnly_bind; [apply panicsOnly_BaseCollect|].
    intros b. by intros tp msg tp'. }
  intros _. apply panicsOnly_bind.
  { apply panicsOnly_collectEach. eapply Forall_impl; [exact Hin|].
    intros spec Hs. by apply panicsOnly_Collect. }
  intros items. apply panicsOnly_bind; [by intros tp msg tp'|intros _].
  apply panicsOnly_bind; [by intros tp msg tp'|intros r].
  apply panicsOnly_bind; [by intros tp msg tp'|intros _]. by intros tp msg tp'.
Qed.
End planner_panics.

Lemma panicsOnly_NodeID g P :
  slotsValid g ->
  (∀ n, n ∈ nodes g ->
     Forall (λ spec, Decorate spec = true -> P "invalid uninitialized decorate")
       (input n)) ->
  ∀ fuel id, (id < length (nodes g))%nat ->
    panicsOnly P (toposortGenerateGraphNodeID fuel g id).
Proof.
  intros Hv Hin. induction fuel as [|fuel IH]; intros id Hid tp msg tp'; simpl;
    [done|].
  destruct (outputs tp !! id); [done|].
  destruct (lookup_lt_is_Some_2 (nodes g) _ Hid) as [n Hn]. rewrite Hn.
  pose proof (panicsOnly_GraphNode _ g P Hv IH n
                (Hin n (list_elem_of_lookup_2 _ _ _ Hn))
                (set_pending (union {[id]}) tp)) as HG.
  destruct (toposortGenerateGraphNode _ _ _ _) as [[p| | |] tp2]; try done.
  intros [= <- _]. by eapply HG.
Qed.

Lemma slotsValid_buildGraph ns : slotsValid (buildGraph ns).
Proof.
  intros key slot. rewrite nodes_buildGraph.
  rewrite provide_buildGraph_slotOf, decorate_buildGraph_slotOf.
  intros [(n & _ & Hn & _)|(n & _ & Hn & _)]; by eapply lookup_lt_Some.
Qed.



(** ** The buckets are in insertion order *)

Lemma slots_sorted_from dec key ns : ∀ k,
  StronglySorted insertedBefore
    (concat (imap (λ i n, outputSlots dec key (k + i) 0 (output n)) ns))
  ∧ ∀ slot, slot ∈ concat (imap (λ i n, outputSlots dec key (k + i) 0 (output n)) ns)
      -> (k ≤ slot_id slot)%nat.
Proof.
  induction ns as [|n ns IH]; intros k; simpl.
  { split; [constructor|]. by intros ? ?%elem_of_nil. }
  rewrite (imap_ext _ (λ i n, outputSlots dec key (S k + i) 0 (output n)));
    [|intros; simpl; f_equal; lia].
  destruct (IH (S k)) as [IH1 IH2]. split.
  - apply StronglySorted_app_2; [|apply outputSlots_sorted|done].
    intros a b [Ha _]%outputSlots_elem Hb%IH2. left. lia.
  - intros slot [H|H]%elem_of_app.
    + apply outputSlots_elem in H as [Hs _]. lia.
    + apply IH2 in H. lia.
Qed.

Lemma bucket_buildGraph ns dec key :
  bucket (buildGraph ns) dec key
  = concat (imap (λ id n, outputSlots dec key id 0 (output n)) ns).
Proof.
  unfold bucket. destruct dec.
  - apply decorate_buildGraph.
  - apply provide_buildGraph.
Qed.

Lemma bucket_slotOf ns dec key slot :
  slot ∈ bucket (buildGraph ns) dec key ↔ slotOf ns dec key slot.
Proof.
  unfold bucket. destruct dec.
  - apply decorate_buildGraph_slotOf.
  - apply provide_buildGraph_slotOf.
Qed.

Lemma sorted_ids_NoDup (l : list graphNodeOutputSlot) :
  StronglySorted (λ a b, (slot_id a < slot_id b)%nat) l -> NoDup (map slot_id l).
Proof.
  induction 1 as [|a l Hs IH Hall]; simpl; [constructor|].
  apply NoDup_cons. split; [|done].
  intros (b & Hb & Hin)%list_elem_of_In%in_map_iff.
  apply list_elem_of_In in Hin.
  rewrite Forall_forall in Hall. specialize (Hall b Hin). lia.
Qed.

(** X13. In a built graph each bucket lists its slots in insertion
    order, by node and then by output position, none of them twice; and
    when no node has two outputs with the same key and decorate flag,
    the slots of the bucket belong to distinct nodes. *)
Theorem X13_buckets_in_insertion_order
    (ns : list graphNode) (dec : bool) (key : graphNodeKey) :
  StronglySorted insertedBefore (bucket (buildGraph ns) dec key)
  ∧ NoDup (bucket (buildGraph ns) dec key)
  ∧ (oneOutputEach ns dec key ->
     NoDup (map slot_id (bucket (buildGraph ns) dec key))).
Proof.
  assert (StronglySorted insertedBefore (bucket (buildGraph ns) dec key)) as Hs.
  { rewrite bucket_buildGraph. apply (slots_sorted_from dec key ns 0). }
  split; [done|]. split.
  - clear -Hs. induction Hs as [|a l Hs IH Hall]; [constructor|].
    apply NoDup_cons. split; [|done]. intros Hin.
    rewrite Forall_forall in Hall. specialize (Hall a Hin).
    unfold insertedBefore in Hall. lia.
  - intros Hone. apply sorted_ids_NoDup.
    assert (∀ s, s ∈ bucket (buildGraph ns) dec key -> slotOf ns dec key s) as Hin
      by (intros s; apply bucket_slotOf).
    clear -Hs Hone Hin.
    induction Hs as [|a l Hs IH Hall]; [constructor|].
    constructor.
    + apply IH. intros s Hs'. apply Hin. by right.
    + apply Forall_forall. intros b Hb.
      rewrite Forall_forall in Hall. destruct (Hall b Hb) as [Hlt|[Heq Hlt]];
        [done|exfalso].
      destruct (Hin a) as (n & s1 & Hn & Ho1 & Hk1 & Hd1); [by left|].
      destruct (Hin b) as (n' & s2 & Hn' & Ho2 & Hk2 & Hd2); [by right|].
      rewrite <- Heq, Hn in Hn'. injection Hn' as <-.
      assert (slot_index a = slot_index b); [|lia].
      eapply (Hone n); [by eapply list_elem_of_lookup_2|done..].
Qed.

Lemma X13_buckets_in_insertion_order_witness :
  NoDup (map slot_id (bucket (buildGraph [loneDecorator]) true
                        (GraphNodeKey "*X" "" false))).
Proof.
  apply (proj2 (proj2 (X13_buckets_in_insertion_order [loneDecorator] true
                         (GraphNodeKey "*X" "" false)))).
  intros n i j s1 s2 ->%list_elem_of_singleton Ho1 Ho2 Hk1 Hk2 _ _.
  destruct i as [|[|i]], j as [|[|j]]; simpl in *; simplify_eq; done.
Defined.

(** ** Consumers are planned one after the other *)

Lemma bind_assoc {A B C} (m : planM A) (k : A -> planM B) (h : B -> planM C) tp :
  bind (bind m k) h tp = bind m (λ a, bind (k a) h) tp.
Proof. unfold bind. by destruct (m tp) as [[a| | |] tp1]. Qed.

Lemma forEach_app {A} (xs ys : list A) body tp :
  forEach (xs ++ ys) body tp = bind (forEach xs body) (λ _, forEach ys body) tp.
Proof.
  revert tp. induction xs as [|x xs IH]; intros tp; simpl; [done|].
  rewrite bind_assoc. apply bind_cong. intros [] tp1 _. apply IH.
Qed.

(** X14. [toposort] plans the consumer roots in order and what it
    planned for the first ones is not touched by the later ones: when it
    returns a plan for [roots1 ++ roots2], it returns one for [roots1]
    alone, and that plan and its buffers are the beginning of the plan
    and of the buffers of the whole; when it fails on [roots1] it fails
    with the same error on [roots1 ++ roots2]. *)
Theorem X14_later_consumers_extend_the_plan
    (fuel : nat) (g : graph) (roots1 roots2 : list graphNode) :
  (∀ plan st,
     toposort fuel g (roots1 ++ roots2) = Ok (plan, st) ->
     ∃ plan1 st1,
       toposort fuel g roots1 = Ok (plan1, st1)
       ∧ plan1 `prefix_of` plan ∧ st1 `prefix_of` st)
  ∧ (∀ e, toposort fuel g roots1 = Fail e ->
          toposort fuel g (roots1 ++ roots2) = Fail e).
Proof.
  unfold toposort, toposortState. rewrite forEach_app. unfold bind.
  destruct (forEach roots1 (rootStep fuel g) newGraphToposort)
    as [[[]|e| |] tp1] eqn:E1; split; try done.
  - intros plan st H. exists (result tp1), (store tp1). split; [done|].
    assert (frames (forEach roots2 (rootStep fuel g))) as Hf.
    { apply frames_forEach. intros root. unfold rootStep.
      apply frames_bind; [|intros; apply frames_ret].
      apply frames_GraphNode. intros id. apply frames_NodeID. }
    specialize (Hf tp1).
    destruct (forEach roots2 (rootStep fuel g) tp1) as [[[]| | |] tp2];
      try done.
    injection H as <- <-. simpl in Hf. split; apply Hf.
Qed.

Lemma X14_later_consumers_extend_the_plan_witness :
  toposort 1 newGraph ([orphanRoot] ++ [cycleRoot]) = Fail (missingDependency orphanKey).
Proof.
  apply (proj2 (X14_later_consumers_extend_the_plan 1 newGraph [orphanRoot]
                  [cycleRoot])).
  reflexivity.
Defined.

(** ** A failure inside stacks is handed outwards *)

Lemma run_Fail_shapes fuel : ∀ rs shapes e rs',
  Forall2 stepShape (rs_pending rs) shapes ->
  run fuel rs = (Fail e, rs') ->
  ∃ before p r action rest err shapesB evs shapesR,
    rs_pending rs = before ++ graphUserNode p r action :: rest
    ∧ shapes = shapesB ++ Plain evs :: shapesR
    ∧ Forall2 stepShape before shapesB
    ∧ e = wrapError before (ErrExecute (default "" (ra_format action)) err)
    ∧ rs_events rs' = rs_events rs ++ failEvents shapesB evs
    ∧ rs_pending rs' = rest
    ∧ rs_trace rs' = rs_trace rs ++ userActions before ++ [action].
Proof.
  induction fuel as [|fuel IH]; intros rs shapes e rs' HF; simpl.
  { by destruct (rs_pending rs). }
  destruct (rs_pending rs) as [|node rest] eqn:E; [done|].
  apply Forall2_cons_inv_l in HF as (s & shapes' & Hs & HF & ->).
  destruct node as [uparams uresult action|items res|items res].
  - assert (stepShape (graphUserNode uparams uresult action) s) as Hnode by done.
    simpl in Hs.
    destruct (loadBuf _ uparams) as [inp|]; [|done].
    destruct (loadBuf _ uresult) as [buf|]; [|done].
    destruct (exec action) as [f|values|f|f|ptrs] eqn:Ea; simpl.
    + destruct s as [| evs |]; try done. specialize (Hs inp).
      destruct (f inp) as [evs' [output [err|]]]; simpl in Hs; subst evs'.
      * intros [= <- <-].
        by exists [], uparams, uresult, action, rest, err, [], evs, shapes'.
      * intros H. eapply IH in H; [|by rewrite copyOut_pending].
        destruct H as (before & p & r & a & rest' & err & sB & evs' & sR
                       & Hp & -> & HB & -> & Hev & Hr & Htr).
        rewrite copyOut_pending in Hp. simpl in Hp.
        rewrite copyOut_events in Hev. rewrite copyOut_trace in Htr.
        simpl in Hev, Htr.
        exists (graphUserNode uparams uresult action :: before), p, r, a, rest',
          err, (Plain evs :: sB), evs', sR.
        rewrite Hp, Hev, Htr. simpl. rewrite Ea, <- !app_assoc.
        split; [done|]. split; [done|]. split; [|done]. by constructor.
    + destruct s as [| evs |]; try done. simpl in Hs. subst evs.
      intros H. eapply IH in H; [|by rewrite copyOut_pending].
      destruct H as (before & p & r & a & rest' & err & sB & evs' & sR
                     & Hp & -> & HB & -> & Hev & Hr & Htr).
      rewrite copyOut_pending in Hp. simpl in Hp.
      rewrite copyOut_events in Hev. rewrite copyOut_trace in Htr.
      simpl in Hev, Htr.
      exists (graphUserNode uparams uresult action :: before), p, r, a, rest',
        err, (Plain [] :: sB), evs', sR.
      rewrite Hp, Hev, Htr. simpl. rewrite Ea, <- !app_assoc.
      split; [done|]. split; [done|]. split; [|done]. by constructor.
    + destruct s as [enter exit| |]; try done. destruct (Hs inp) as [output ->].
      simpl.
      destruct (run fuel _) as [[[]| e1 | |] rs2] eqn:Er; simpl; try done.
      { pose proof (run_Ok_drains _ _ _ Er) as Hd.
        rewrite run_nil by done. done. }
      intros [= <- <-]. eapply IH in Er; [|by rewrite copyOut_pending].
      destruct Er as (before & p & r & a & rest' & err & sB & evs' & sR
                      & Hp & -> & HB & -> & Hev & Hr & Htr).
      rewrite copyOut_pending in Hp. simpl in Hp.
      rewrite copyOut_events in Hev. rewrite copyOut_trace in Htr.
      simpl in Hev, Htr.
      exists (graphUserNode uparams uresult action :: before), p, r, a, rest',
        err, (Bracket enter exit :: sB), evs', sR.
      rewrite Hp. simpl. rewrite Ea, Hev, Htr, <- !app_assoc. simpl.
      split; [done|]. split; [done|]. split; [|done]. by constructor.
    + destruct s as [| evs |]; try done. specialize (Hs inp).
      destruct (f inp) as [evs' [err|]]; simpl in Hs; subst evs'; simpl.
      * intros [= <- <-].
        by exists [], uparams, uresult, action, rest, err, [], evs, shapes'.
      * intros H. eapply IH in H; [|done].
        destruct H as (before & p & r & a & rest' & err & sB & evs' & sR
                       & Hp & -> & HB & -> & Hev & Hr & Htr).
        simpl in Hp, Hev, Htr.
        exists (graphUserNode uparams uresult action :: before), p, r, a, rest',
          err, (Plain evs :: sB), evs', sR.
        rewrite Hp, Hev, Htr. simpl. rewrite Ea, <- !app_assoc.
        split; [done|]. split; [done|]. split; [|done]. by constructor.
    + destruct s as [| evs |]; try done. simpl in Hs. subst evs.
      destruct (populate _ _ _ _); [|done].
      intros H. eapply IH in H; [|done].
      destruct H as (before & p & r & a & rest' & err & sB & evs' & sR
                     & Hp & -> & HB & -> & Hev & Hr & Htr).
      simpl in Hp, Hev, Htr.
      exists (graphUserNode uparams uresult action :: before), p, r, a, rest',
        err, (Plain [] :: sB), evs', sR.
      rewrite Hp, Hev, Htr. simpl. rewrite Ea, <- !app_assoc.
      split; [done|]. split; [done|]. split; [|done]. by constructor.
  - simpl in Hs. subst s. destruct (execute _ _); [|done]. intros H.
    eapply IH in H; [|done].
    destruct H as (before & p & r & a & rest' & err & sB & evs' & sR
                   & Hp & -> & HB & -> & Hev & Hr & Htr).
    simpl in Hp, Hev, Htr.
    exists (collectParamNode items res :: before), p, r, a, rest',
      err, (Plumb :: sB), evs', sR.
    rewrite Hp, Hev, Htr. simpl.
    split; [done|]. split; [done|]. split; [|done]. by constructor.
  - simpl in Hs. subst s. destruct (execute _ _); [|done]. intros H.
    eapply IH in H; [|done].
    destruct H as (before & p & r & a & rest' & err & sB & evs' & sR
                   & Hp & -> & HB & -> & Hev & Hr & Htr).
    simpl in Hp, Hev, Htr.
    exists (collectGroupNode items res :: before), p, r, a, rest',
      err, (Plumb :: sB), evs', sR.
    rewrite Hp, Hev, Htr. simpl.
    split; [done|]. split; [done|]. split; [|done]. by constructor.
Qed.

(** X15. When every step of the queue logs what its shape says, stack
    functions being brackets that log, call the continuation, log again
    and return what the continuation returned, a failing run fails in a
    provider or consumer step: the steps after it stay in the queue, the
    actions invoked are those up to it, every bracket entered before it
    is closed, in reverse order of entry, and the error returned is the
    failing action's [ErrExecute] wrapped once more by every stack
    entered before it, the first one outermost. *)
Theorem X15_failure_unwinds_the_stacks
    (fuel : nat) (rs rs' : runState) (shapes : list shape) (e : error) :
  Forall2 stepShape (rs_pending rs) shapes ->
  run fuel rs = (Fail e, rs') ->
  ∃ before p r action rest err shapesB evs shapesR,
    rs_pending rs = before ++ graphUserNode p r action :: rest
    ∧ shapes = shapesB ++ Plain evs :: shapesR
    ∧ Forall2 stepShape before shapesB
    ∧ e = wrapError before (ErrExecute (default "" (ra_format action)) err)
    ∧ rs_events rs' = rs_events rs ++ failEvents shapesB evs
    ∧ rs_pending rs' = rest
    ∧ rs_trace rs' = rs_trace rs ++ userActions before ++ [action].
Proof. apply run_Fail_shapes. Qed.

Lemma X15_failure_unwinds_the_stacks_witness :
  (run 6 nestedFailStart).1
  = Fail (ErrExecute "Stack(a)"
            (ErrExecute "Stack(b)"
               (ErrExecute "Invoke(main)" (errorString "boom"))))
  ∧ rs_events (run 6 nestedFailStart).2
    = ["enter a"; "enter b"; "main"; "exit b"; "exit a"]
  ∧ ∃ before p r action rest err shapesB evs shapesR,
      rs_pending nestedFailStart = before ++ graphUserNode p r action :: rest
      ∧ [Plumb; Bracket "enter a" "exit a"; Plumb; Bracket "enter b" "exit b";
         Plumb; Plain ["main"]] = shapesB ++ Plain evs :: shapesR
      ∧ Forall2 stepShape before shapesB
      ∧ ErrExecute "Stack(a)"
          (ErrExecute "Stack(b)" (ErrExecute "Invoke(main)" (errorString "boom")))
        = wrapError before (ErrExecute (default "" (ra_format action)) err)
      ∧ rs_events (run 6 nestedFailStart).2
        = rs_events nestedFailStart ++ failEvents shapesB evs
      ∧ rs_pending (run 6 nestedFailStart).2 = rest
      ∧ rs_trace (run 6 nestedFailStart).2
        = rs_trace nestedFailStart ++ userActions before ++ [action].
Proof.
  split; [vm_compute; reflexivity|]. split; [vm_compute; reflexivity|].
  apply (X15_failure_unwinds_the_stacks 6 nestedFailStart (run 6 nestedFailStart).2).
  - vm_compute. repeat constructor; intros inp; eexists; reflexivity.
  - vm_compute. reflexivity.
Defined.

(** ** The planner produces well-formed plans *)

Lemma loadBuf_app st k p buf :
  loadBuf st p = Some buf -> loadBuf (st ++ k) p = Some buf.
Proof.
  destruct p as [|i]; simpl; [done|].
  destruct (st !! i) as [b|] eqn:E; [|done].
  by rewrite (lookup_app_l_Some _ _ _ _ E).
Qed.

Lemma loadBuf_prefix st st' p buf :
  st `prefix_of` st' -> loadBuf st p = Some buf -> loadBuf st' p = Some buf.
Proof. intros [k ->]. apply loadBuf_app. Qed.

Lemma loadBuf_fresh st b : loadBuf (st ++ [b]) (S (length st)) = Some (params b).
Proof. simpl. by rewrite list_lookup_middle. Qed.

Lemma validCollect_prefix st st' c :
  st `prefix_of` st' -> validCollect st c -> validCollect st' c.
Proof.
  intros Hp (buf & Hb & Hi). exists buf. split; [|done].
  by eapply loadBuf_prefix.
Qed.

Lemma wfNode_prefix st st' node :
  st `prefix_of` st' -> wfNode st node -> wfNode st' node.
Proof.
  intros Hp. destruct node as [p r a|items res|items res]; simpl.
  - intros [[b1 H1] [b2 H2]].
    split; eexists; by eapply loadBuf_prefix.
  - intros [(buf & Hb & Hl) Hi]. split.
    + exists buf. split; [by eapply loadBuf_prefix|done].
    + eapply Forall_impl; [exact Hi|]. intros c. by apply validCollect_prefix.
  - intros [(buf & Hb & Hl) Hi]. split.
    + exists buf. split; [by eapply loadBuf_prefix|done].
    + eapply Forall_impl; [exact Hi|]. intros c. by apply validCollect_prefix.
Qed.

Lemma wfState_store g tp st' :
  store tp `prefix_of` st' ->
  wfState g tp ->
  wfState g {| outputs := outputs tp; grouped := grouped tp;
               decorated := decorated tp; decorating := decorating tp;
               pending := pending tp; result := result tp; store := st' |}.
Proof.
  intros Hp (W1 & W2 & W3 & W4 & W5). split; [|split; [|split; [|split]]]; simpl.
  - intros id p Ho. destruct (W1 id p Ho) as (n & buf & Hn & Hb & Hl).
    exists n, buf. split; [done|]. split; [by eapply loadBuf_prefix|done].
  - intros key p Hk. destruct (W2 key p Hk) as (buf & Hb & Hl).
    exists buf. split; [by eapply loadBuf_prefix|done].
  - intros key c Hk. eapply validCollect_prefix; [done|]. by eapply W3.
  - intros key c Hk. eapply validCollect_prefix; [done|]. by eapply W4.
  - eapply Forall_impl; [exact W5|]. intros node. by apply wfNode_prefix.
Qed.

Lemma wfState_alloc g tp b : wfState g tp -> wfState g (push_store b tp).
Proof. apply wfState_store. by apply prefix_app_r. Qed.

Lemma wfState_emit g tp node :
  wfNode (store tp) node -> wfState g tp -> wfState g (push_result node tp).
Proof.
  intros Hn (W1 & W2 & W3 & W4 & W5). split; [|split; [|split; [|split]]];
    try done.
  simpl. unfold wfPlan. apply Forall_app. split; [done|]. by constructor.
Qed.

Lemma wfState_set_pending g tp f : wfState g tp -> wfState g (set_pending f tp).
Proof. done. Qed.

Lemma wfState_set_grouped g tp key p buf :
  loadBuf (store tp) p = Some buf -> length buf = 1 ->
  wfState g tp -> wfState g (set_grouped <[key := p]> tp).
Proof.
  intros Hb Hl (W1 & W2 & W3 & W4 & W5). split; [|split; [|split; [|split]]];
    try done.
  simpl. intros key' p' Hk. destruct (decide (key = key')) as [->|Hne].
  - rewrite lookup_insert_eq in Hk. injection Hk as <-. eauto.
  - rewrite lookup_insert_ne in Hk by done. eauto.
Qed.

Lemma wfState_set_decorated g tp key c :
  validCollect (store tp) c ->
  wfState g tp -> wfState g (set_decorated <[key := c]> tp).
Proof.
  intros Hc (W1 & W2 & W3 & W4 & W5). split; [|split; [|split; [|split]]];
    try done.
  simpl. intros key' c' Hk. destruct (decide (key = key')) as [->|Hne].
  - rewrite lookup_insert_eq in Hk. by injection Hk as <-.
  - rewrite lookup_insert_ne in Hk by done. eauto.
Qed.

Lemma wfState_set_decorating g tp key c :
  validCollect (store tp) c ->
  wfState g tp -> wfState g (set_decorating <[key := c]> tp).
Proof.
  intros Hc (W1 & W2 & W3 & W4 & W5). split; [|split; [|split; [|split]]];
    try done.
  simpl. intros key' c' Hk. destruct (decide (key = key')) as [->|Hne].
  - rewrite lookup_insert_eq in Hk. by injection Hk as <-.
  - rewrite lookup_insert_ne in Hk by done. eauto.
Qed.

Lemma wfState_delete_decorating g tp key :
  wfState g tp -> wfState g (set_decorating (delete key) tp).
Proof.
  intros (W1 & W2 & W3 & W4 & W5). split; [|split; [|split; [|split]]];
    try done.
  simpl. intros key' c' Hk. apply lookup_delete_Some in Hk as [_ Hk]. eauto.
Qed.

Lemma wfState_set_outputs g tp id p n buf :
  nodes g !! id = Some n -> loadBuf (store tp) p = Some buf ->
  length buf = length (output n) ->
  wfState g tp -> wfState g (set_outputs <[id := p]> tp).
Proof.
  intros Hn Hb Hl (W1 & W2 & W3 & W4 & W5). split; [|split; [|split; [|split]]];
    try done.
  simpl. intros id' p' Ho. destruct (decide (id = id')) as [->|Hne].
  - rewrite lookup_insert_eq in Ho. injection Ho as <-. eauto.
  - rewrite lookup_insert_ne in Ho by done. eauto.
Qed.

Lemma wfState_new g : wfState g newGraphToposort.
Proof.
  split; [|split; [|split; [|split]]]; simpl; try done; by constructor.
Qed.

Lemma keepsWf_collectEach {A} g (xs : list A) (body : A -> planM executionCollect) :
  Forall (λ x, keepsWf g (body x) (λ c tp', validCollect (store tp') c)) xs ->
  keepsWf g (collectEach xs body)
    (λ cs tp', Forall (validCollect (store tp')) cs ∧ length cs = length xs).
Proof.
  induction 1 as [|x xs Hx _ IH]; intros tp cs tp' Hw; simpl.
  { intros [= <- <-]. split; [done|]. split; [done|]. split; [constructor|done]. }
  intros (c & tp1 & H1 & H)%bind_Ok.
  apply bind_Ok in H as (cs' & tp2 & H2 & [= <- <-]).
  destruct (Hx _ _ _ Hw H1) as (Hw1 & Hp1 & Hc).
  destruct (IH _ _ _ Hw1 H2) as (Hw2 & Hp2 & Hcs & Hl).
  split; [done|]. split; [by etrans|]. split; [|simpl; by rewrite Hl].
  constructor; [|done]. by eapply validCollect_prefix.
Qed.

Lemma keepsWf_forEach {A} g (xs : list A) (body : A -> planM unit) :
  Forall (λ x, keepsWf g (body x) (λ _ _, True)) xs ->
  keepsWf g (forEach xs body) (λ _ _, True).
Proof.
  induction 1 as [|x xs Hx _ IH]; intros tp [] tp' Hw; simpl.
  { by intros [= <-]. }
  intros ([] & tp1 & H1 & H)%bind_Ok.
  destruct (Hx _ _ _ Hw H1) as (Hw1 & Hp1 & _).
  destruct (IH _ _ _ Hw1 H) as (Hw2 & Hp2 & _).
  split; [done|]. split; [by etrans|done].
Qed.

Section planner_wf.
Variable nodeID : nat -> planM ptr.
Variable g : graph.
Hypothesis slots_in_range : slotsInRange g.
Hypothesis nodeID_wf : ∀ id,
  keepsWf g (nodeID id) (λ p tp', outputs tp' !! id = Some p).

Lemma slot_collect_valid key slot tp p :
  slot ∈ slotsOf (provide g) key ∨ slot ∈ slotsOf (decorate g) key ->
  wfState g tp -> outputs tp !! slot_id slot = Some p ->
  validCollect (store tp) {| ec_result := p; ec_index := slot_index slot |}.
Proof.
  intros Hin (W1 & _) Ho.
  destruct (slots_in_range key slot Hin) as (n & Hn & Hi).
  destruct (W1 _ _ Ho) as (n' & buf & Hn' & Hb & Hl).
  rewrite Hn in Hn'. injection Hn' as <-.
  exists buf. split; [done|]. simpl. lia.
Qed.

Lemma keepsWf_Single item :
  keepsWf g (toposortGenerateSingle nodeID g item)
    (λ c tp', validCollect (store tp') c).
Proof.
  intros tp c tp' Hw. unfold toposortGenerateSingle.
  destruct (slotsOf (provide g) item) as [|slot [|??]] eqn:Hs; try done.
  rewrite bind_get. case_decide; [by destruct (nodes g !! _)|].
  intros (p & tp1 & Hn & [= <- <-])%bind_Ok.
  destruct (nodeID_wf _ _ _ _ Hw Hn) as (Hw1 & Hp1 & Ho).
  split; [done|]. split; [done|].
  apply (slot_collect_valid item); [|done|done]. left. rewrite Hs. by left.
Qed.

Lemma keepsWf_groupedItem key slot :
  slot ∈ slotsOf (provide g) key ->
  keepsWf g (groupedItem nodeID slot) (λ c tp', validCollect (store tp') c).
Proof.
  intros Hin tp c tp' Hw. unfold groupedItem.
  intros (p & tp1 & Hn & [= <- <-])%bind_Ok.
  destruct (nodeID_wf _ _ _ _ Hw Hn) as (Hw1 & Hp1 & Ho).
  split; [done|]. split; [done|].
  apply (slot_collect_valid key); [by left|done|done].
Qed.

Lemma keepsWf_Grouped key :
  keepsWf g (toposortGenerateGrouped nodeID g key)
    (λ c tp', validCollect (store tp') c).
Proof.
  intros tp c tp' Hw. unfold toposortGenerateGrouped. rewrite bind_get.
  destruct (grouped tp !! key) as [r|] eqn:Hk.
  { intros [= <- <-]. split; [done|]. split; [done|].
    destruct Hw as (_ & W2 & _). destruct (W2 _ _ Hk) as (buf & Hb & Hl).
    exists buf. split; [done|]. simpl. lia. }
  rewrite bind_alloc. intros (items & tp1 & Hc & H)%bind_Ok.
  rewrite bind_emit, bind_modify in H. injection H as <- <-.
  set (tp0 := push_store (ExecutionParam [MakeSlice (typ key)]) tp) in *.
  assert (wfState g tp0) as Hw0 by by apply wfState_alloc.
  destruct (keepsWf_collectEach g (slotsOf (provide g) key) (groupedItem nodeID))
    with (tp := tp0) (a := items) (tp' := tp1) as (Hw1 & Hp1 & Hi & _);
    [|done|done|].
  { apply Forall_forall. intros slot Hin. by apply (keepsWf_groupedItem key). }
  assert (loadBuf (store tp1) (S (length (store tp))) = Some [MakeSlice (typ key)])
    as Hb.
  { eapply loadBuf_prefix; [done|]. apply (loadBuf_fresh (store tp)). }
  split; [|split].
  - eapply wfState_set_grouped; [exact Hb|done|].
    apply wfState_emit; [|done]. simpl. split; [|done]. eauto.
  - simpl. etrans; [|exact Hp1]. by apply prefix_app_r.
  - exists [MakeSlice (typ key)]. simpl. split; [done|lia].
Qed.

Lemma keepsWf_BaseCollect key :
  keepsWf g (toposortGenerateBaseCollect nodeID g key)
    (λ c tp', validCollect (store tp') c).
Proof.
  intros tp c tp' Hw. unfold toposortGenerateBaseCollect.
  intros (b & tp1 & Hb & H)%bind_Ok.
  assert (wfState g tp1 ∧ store tp `prefix_of` store tp1
          ∧ validCollect (store tp1) b) as (Hw1 & Hp1 & Hv).
  { destruct (group key); [by eapply keepsWf_Grouped|by eapply keepsWf_Single]. }
  destruct (slotsOf (decorate g) key); [by injection H as <- <-|].
  rewrite bind_get in H. destruct (decorated tp1 !! key); [by injection H as <- <-|].
  rewrite bind_get in H. destruct (decorating tp1 !! key); [by injection H as <- <-|].
  rewrite bind_modify in H. injection H as <- <-.
  split; [by apply wfState_set_decorating|done].
Qed.

Lemma keepsWf_decorateStep key slot :
  slot ∈ slotsOf (decorate g) key ->
  keepsWf g (decorateStep nodeID key slot)
    (λ _ tp', is_Some (decorating tp' !! key)).
Proof.
  intros Hin tp [] tp' Hw. unfold decorateStep.
  intros (p & tp1 & Hn & [= <-])%bind_Ok.
  destruct (nodeID_wf _ _ _ _ Hw Hn) as (Hw1 & Hp1 & Ho).
  split; [|split; [done|]].
  - apply wfState_set_decorating; [|done].
    apply (slot_collect_valid key); [by right|done|done].
  - simpl. rewrite lookup_insert_eq. eauto.
Qed.

Lemma keepsWf_decorateLoop key slots :
  (∀ slot, slot ∈ slots -> slot ∈ slotsOf (decorate g) key) ->
  keepsWf g (forEach slots (decorateStep nodeID key))
    (λ _ tp', slots ≠ [] -> is_Some (decorating tp' !! key)).
Proof.
  induction slots as [|slot slots IH]; intros Hin tp [] tp' Hw; simpl.
  { by intros [= <-]. }
  intros ([] & tp1 & H1 & H)%bind_Ok.
  destruct (keepsWf_decorateStep key slot (Hin slot ltac:(by left)) _ _ _ Hw H1)
    as (Hw1 & Hp1 & Hd1).
  destruct (IH (λ s Hs, Hin s ltac:(by right)) _ _ _ Hw1 H) as (Hw2 & Hp2 & Hd2).
  split; [done|]. split; [by etrans|]. intros _.
  destruct slots as [|s l]; [|by apply Hd2].
  simpl in H. by injection H as <-.
Qed.

Lemma keepsWf_collectAfterBase spec b tp c tp' :
  wfState g tp -> validCollect (store tp) b ->
  collectAfterBase nodeID g spec b tp = (Ok c, tp') ->
  wfState g tp' ∧ store tp `prefix_of` store tp' ∧ validCollect (store tp') c.
Proof.
  intros Hw Hb. unfold collectAfterBase. destruct (Decorate spec).
  { rewrite bind_get. destruct (decorating tp !! _) as [c'|] eqn:Hd; [|done].
    intros [= <- <-]. split; [done|]. split; [done|].
    destruct Hw as (_ & _ & _ & W4 & _). by eapply W4. }
  destruct (slotsOf (decorate g) (extractGraphKey spec)) as [|s l] eqn:Hs.
  { by intros [= <- <-]. }
  rewrite bind_get. destruct (decorated tp !! _) as [d|] eqn:Hd.
  { intros [= <- <-]. split; [done|]. split; [done|].
    destruct Hw as (_ & _ & W3 & _). by eapply W3. }
  intros ([] & tp1 & Hl & H)%bind_Ok.
  rewrite bind_get, bind_modify, bind_modify in H. injection H as <- <-.
  destruct (keepsWf_decorateLoop (extractGraphKey spec) (s :: l)) with
    (tp := tp) (a := ()) (tp' := tp1) as (Hw1 & Hp1 & Hsome); [|done|done|].
  { intros slot Hin. by rewrite Hs. }
  destruct Hsome as [c Hc]; [done|]. rewrite Hc. simpl.
  assert (validCollect (store tp1) c) as Hv.
  { destruct Hw1 as (_ & _ & _ & W4 & _). by eapply W4. }
  split; [|done]. apply wfState_delete_decorating.
  by apply wfState_set_decorated.
Qed.

Lemma keepsWf_Collect_strict spec :
  keepsWf g (toposortGenerateCollect_strict nodeID g spec)
    (λ c tp', validCollect (store tp') c).
Proof.
  intros tp c tp' Hw. unfold toposortGenerateCollect_strict.
  intros (b & tp1 & Hb & H)%bind_Ok.
  destruct (keepsWf_BaseCollect _ _ _ _ Hw Hb) as (Hw1 & Hp1 & Hv).
  destruct (keepsWf_collectAfterBase _ _ _ _ _ Hw1 Hv H) as (Hw2 & Hp2 & Hc).
  split; [done|]. split; [by etrans|done].
Qed.

Lemma keepsWf_GraphNode_strict current :
  keepsWf g (toposortGenerateGraphNode_strict nodeID g current)
    (λ p tp', ∃ buf, loadBuf (store tp') p = Some buf
                     ∧ length buf = length (output current)).
Proof.
  intros tp p tp' Hw. unfold toposortGenerateGraphNode_strict.
  rewrite bind_alloc. intros ([] & tp1 & H1 & H)%bind_Ok.
  apply bind_Ok in H as (items & tp2 & H2 & H).
  rewrite bind_emit, bind_alloc, bind_emit in H. injection H as <- <-.
  set (tp0 := push_store _ tp) in *.
  assert (wfState g tp0) as Hw0 by by apply wfState_alloc.
  destruct (keepsWf_forEach g (input current) (baseStep nodeID g)) with
    (tp := tp0) (a := ()) (tp' := tp1) as (Hw1 & Hp1 & _); [|done|done|].
  { apply Forall_forall. intros spec _ s [] s' Hs. unfold baseStep.
    intros (b & s1 & Hb & [= <-])%bind_Ok.
    destruct (keepsWf_BaseCollect _ _ _ _ Hs Hb) as (? & ? & _). done. }
  destruct (keepsWf_collectEach g (input current)
              (toposortGenerateCollect_strict nodeID g)) with
    (tp := tp1) (a := items) (tp' := tp2) as (Hw2 & Hp2 & Hi & Hlen); [|done|done|].
  { apply Forall_forall. intros spec _. apply keepsWf_Collect_strict. }
  assert (loadBuf (store tp2) (S (length (store tp)))
          = Some (replicate (length (input current)) VInvalid)) as Hb.
  { apply (loadBuf_prefix (store tp0)); [by etrans|].
    apply (loadBuf_fresh (store tp)). }
  set (tp3 := push_result (collectParamNode items (S (length (store tp)))) tp2).
  assert (wfState g tp3) as Hw3.
  { apply wfState_emit; [|done]. simpl. split; [|done].
    eexists. split; [exact Hb|]. by rewrite length_replicate. }
  set (tp4 := push_store (ExecutionParam (replicate (length (output current)) VInvalid))
                tp3).
  assert (loadBuf (store tp4) (S (length (store tp2)))
          = Some (replicate (length (output current)) VInvalid)) as Hr.
  { apply (loadBuf_fresh (store tp2)). }
  split; [|split].
  - apply wfState_emit; [|by apply wfState_alloc]. split.
    + eexists. apply (loadBuf_app (store tp2)). exact Hb.
    + eexists. exact Hr.
  - simpl. trans (store tp2); [|by apply prefix_app_r].
    trans (store tp1); [|done]. trans (store tp0); [|done].
    by apply prefix_app_r.
  - eexists. split; [exact Hr|]. by rewrite length_replicate.
Qed.
End planner_wf.

Lemma keepsWf_NodeID g :
  slotsInRange g ->
  ∀ fuel id,
    keepsWf g (toposortGenerateGraphNodeID fuel g id)
      (λ p tp', outputs tp' !! id = Some p).
Proof.
  intros Hg. induction fuel as [|fuel IH]; intros id tp p tp' Hw; simpl; [done|].
  destruct (outputs tp !! id) as [q|] eqn:Ho.
  { intros [= <- <-]. done. }
  destruct (nodes g !! id) as [current|] eqn:Hn; [|done].
  rewrite (GraphNode_strict_eq _ g (frames_NodeID fuel g)
             (NodeID_cached_not_Fail fuel g) (NodeID_Ok_outputs fuel g)).
  destruct (toposortGenerateGraphNode_strict _ _ _ _) as [[q| | |] tp2] eqn:HG;
    try done.
  intros [= <- <-].
  destruct (keepsWf_GraphNode_strict _ g Hg IH current _ _ _
              (wfState_set_pending g tp _ Hw) HG) as (Hw2 & Hp2 & buf & Hb & Hl).
  split; [|split].
  - apply wfState_set_pending. by eapply wfState_set_outputs.
  - done.
  - simpl. by rewrite lookup_insert_eq.
Qed.

Lemma slotsInRange_buildGraph ns : slotsInRange (buildGraph ns).
Proof.
  intros key slot. rewrite nodes_buildGraph.
  rewrite provide_buildGraph_slotOf, decorate_buildGraph_slotOf.
  intros [(n & spec & Hn & Ho & _)|(n & spec & Hn & Ho & _)];
    exists n; (split; [done|]); by eapply lookup_lt_Some.
Qed.

Lemma toposort_wfPlan fuel g roots plan st :
  slotsInRange g ->
  toposort fuel g roots = Ok (plan, st) -> wfPlan plan st.
Proof.
  intros Hg. rewrite toposort_strict_eq. unfold toposort_strict.
  destruct (forEach roots (rootStep_strict fuel g) newGraphToposort)
    as [[[]| | |] tp] eqn:E; try done.
  intros [= <- <-].
  destruct (keepsWf_forEach g roots (rootStep_strict fuel g)) with
    (tp := newGraphToposort) (a := ()) (tp' := tp) as ((_ & _ & _ & _ & W5) & _);
    [|apply wfState_new|done|done].
  apply Forall_forall. intros root _ s [] s' Hs. unfold rootStep_strict.
  intros (p & s1 & HG & [= <-])%bind_Ok. rewrite <- NodeID_strict_eq in HG.
  destruct (keepsWf_GraphNode_strict _ g Hg (keepsWf_NodeID g Hg fuel) root
              _ _ _ Hs HG) as (? & ? & _).
  done.
Qed.

(** X16. A plan that [toposort] returns for a graph whose slots name
    existing outputs, as every built graph is, is well formed with
    respect to the buffers it comes with: every user step has its
    parameter and its result buffer, every collect-param step a result
    buffer with exactly one position per source, every collect-group
    step a result buffer of one position, and every source names an
    allocated buffer and a position of it; none is the nil collect. *)
Theorem X16_plans_are_well_formed :
  (∀ fuel g roots plan st,
     slotsInRange g ->
     toposort fuel g roots = Ok (plan, st) -> wfPlan plan st)
  ∧ (∀ ns, slotsInRange (buildGraph ns)).
Proof. split; [exact toposort_wfPlan|exact slotsInRange_buildGraph]. Qed.

Lemma X16_plans_are_well_formed_witness :
  wfPlan nestedPlan.1 nestedPlan.2.
Proof.
  apply (proj1 X16_plans_are_well_formed 9 (opt_g (buildOptions nestedStacks))
           (consumers (buildOptions nestedStacks)) nestedPlan.1 nestedPlan.2).
  - rewrite buildOptions_lists. apply (proj2 X16_plans_are_well_formed).
  - vm_compute. reflexivity.
Defined.

(** ** The runner on a well-formed plan *)

Lemma length_copy {A} (dst src : list A) : length (copy dst src) = length dst.
Proof. unfold copy. rewrite length_app, length_take, length_drop. lia. Qed.

Lemma shapeOf_storeBuf st p vs buf :
  loadBuf st p = Some buf -> length vs = length buf ->
  shapeOf (storeBuf st p vs) = shapeOf st.
Proof.
  destruct p as [|i]; simpl; [done|].
  destruct (st !! i) as [b|] eqn:E; [|done]. simpl. intros [= <-] Hl.
  unfold shapeOf. rewrite list_fmap_insert. apply list_insert_id.
  rewrite list_lookup_fmap, E. simpl. by rewrite Hl.
Qed.

Lemma loadBuf_shape st st' p buf :
  shapeOf st = shapeOf st' -> loadBuf st p = Some buf ->
  ∃ buf', loadBuf st' p = Some buf' ∧ length buf' = length buf.
Proof.
  intros Hs. destruct p as [|i]; simpl; [done|].
  destruct (st !! i) as [b|] eqn:E; [|done]. simpl. intros [= <-].
  assert (shapeOf st' !! i = Some (length (params b))) as H.
  { rewrite <- Hs. unfold shapeOf. by rewrite list_lookup_fmap, E. }
  unfold shapeOf in H. rewrite list_lookup_fmap in H.
  destruct (st' !! i) as [b'|]; [|done]. simpl in *. injection H as H. eauto.
Qed.

Lemma validCollect_shape st st' c :
  shapeOf st = shapeOf st' -> validCollect st c -> validCollect st' c.
Proof.
  intros Hs (buf & Hb & Hi).
  destruct (loadBuf_shape _ _ _ _ Hs Hb) as (buf' & Hb' & Hl).
  exists buf'. split; [done|lia].
Qed.

Lemma wfNode_shape st st' node :
  shapeOf st = shapeOf st' -> wfNode st node -> wfNode st' node.
Proof.
  intros Hs. destruct node as [p r a|items res|items res]; simpl.
  - intros [[b1 H1] [b2 H2]].
    destruct (loadBuf_shape _ _ _ _ Hs H1) as (? & -> & _).
    destruct (loadBuf_shape _ _ _ _ Hs H2) as (? & -> & _). eauto.
  - intros [(buf & Hb & Hl) Hi].
    destruct (loadBuf_shape _ _ _ _ Hs Hb) as (buf' & Hb' & Hl'). split.
    + exists buf'. split; [done|lia].
    + eapply Forall_impl; [exact Hi|]. intros c. by apply validCollect_shape.
  - intros [(buf & Hb & Hl) Hi].
    destruct (loadBuf_shape _ _ _ _ Hs Hb) as (buf' & Hb' & Hl'). split.
    + exists buf'. split; [done|lia].
    + eapply Forall_impl; [exact Hi|]. intros c. by apply validCollect_shape.
Qed.

Lemma wfPlan_later plan st plan' st' :
  shapeOf st' = shapeOf st -> plan' `suffix_of` plan ->
  wfPlan plan st -> wfPlan plan' st'.
Proof.
  intros Hs [k ->] Hw. apply Forall_app in Hw as [_ Hw].
  eapply Forall_impl; [exact Hw|]. intros node. by apply wfNode_shape.
Qed.

Lemma collectParamNode_execute_shape items res : ∀ i st st',
  collectParamNode_execute items res i st = Some st' -> shapeOf st' = shapeOf st.
Proof.
  induction items as [|item items IH]; intros i st st'; simpl.
  { by intros [= <-]. }
  destruct (collect st item) as [v|]; [|done]. simpl.
  destruct (loadBuf st res) as [buf|] eqn:Hb; [|done]. simpl.
  case_decide; [|done]. intros Hx%IH. rewrite Hx.
  eapply shapeOf_storeBuf; [done|]. by rewrite length_insert.
Qed.

Lemma collectGroupNode_execute_shape items res : ∀ st st',
  collectGroupNode_execute items res st = Some st' -> shapeOf st' = shapeOf st.
Proof.
  induction items as [|item items IH]; intros st st'; simpl.
  { by intros [= <-]. }
  destruct (collect st item) as [v|]; [|done]. simpl.
  destruct (loadBuf st res) as [buf|] eqn:Hb; [|done]. simpl.
  destruct (buf !! 0) as [acc|]; [|done]. simpl.
  destruct (AppendSlice acc v) as [new|]; [|done]. simpl.
  intros H%IH. rewrite H.
  eapply shapeOf_storeBuf; [done|]. by rewrite length_insert.
Qed.

Lemma execute_shape node st st' :
  execute node st = Some st' -> shapeOf st' = shapeOf st.
Proof.
  destruct node; simpl; [done| |].
  - apply collectParamNode_execute_shape.
  - apply collectGroupNode_execute_shape.
Qed.

Lemma copyOut_shape out output rs :
  shapeOf (rs_store (copyOut out output rs)) = shapeOf (rs_store rs).
Proof.
  unfold copyOut. destruct (loadBuf _ _) eqn:E; [|done]. simpl.
  eapply shapeOf_storeBuf; [done|]. apply length_copy.
Qed.

Lemma collectParamNode_execute_total items res : ∀ i st buf,
  loadBuf st res = Some buf -> (i + length items ≤ length buf)%nat ->
  Forall (validCollect st) items ->
  is_Some (collectParamNode_execute items res i st).
Proof.
  induction items as [|item items IH]; intros i st buf Hb Hl Hv; simpl; [eauto|].
  apply Forall_cons in Hv as [(b & Hload & Hi) Hv]. simpl in Hl.
  destruct (lookup_lt_is_Some_2 b (ec_index item) Hi) as [v Hvv].
  unfold collect at 1. rewrite Hload. simpl. rewrite Hvv, Hb. simpl.
  rewrite decide_True by lia.
  assert (shapeOf st = shapeOf (storeBuf st res (<[i:=v]> buf))) as Hs.
  { symmetry. eapply shapeOf_storeBuf; [done|]. by rewrite length_insert. }
  apply (IH (S i) _ (<[i:=v]> buf)).
  - by eapply loadBuf_storeBuf_eq.
  - rewrite length_insert. lia.
  - eapply Forall_impl; [exact Hv|]. intros c. by apply validCollect_shape.
Qed.

Lemma runsSafely_refl rs r :
  (∀ msg, r = Panic msg ->
     msg ≠ "nil pointer dereference"
     ∧ (groupFree (rs_pending rs) -> msg = "index out of range")) ->
  runsSafely rs r rs.
Proof. intros H. split; [done|]. split; [done|exact H]. Qed.

Lemma runsSafely_step rs rs1 r rs' :
  shapeOf (rs_store rs1) = shapeOf (rs_store rs) ->
  rs_pending rs1 `suffix_of` rs_pending rs ->
  runsSafely rs1 r rs' -> runsSafely rs r rs'.
Proof.
  intros Hs Hp (Hs' & Hp' & Hm). split; [by rewrite Hs'|]. split; [by etrans|].
  intros msg Hr. destruct (Hm msg Hr) as [H1 H2]. split; [done|].
  intros Hg. apply H2. destruct Hp as [k Hk]. rewrite Hk in Hg.
  by apply Forall_app in Hg as [_ Hg].
Qed.

Section runner_safety.
Variable rsrun : runState -> outcome unit * runState.
Hypothesis rsrun_safe : ∀ rs,
  wfPlan (rs_pending rs) (rs_store rs) ->
  runsSafely rs (rsrun rs).1 (rsrun rs).2.

Lemma runStack_safe out prog : ∀ rs,
  wfPlan (rs_pending rs) (rs_store rs) ->
  runsSafely rs (runStack rsrun out prog rs).1 (runStack rsrun out prog rs).2.
Proof.
  induction prog as [err|ev k IH|output k IH]; intros rs Hw; simpl.
  - apply runsSafely_refl. by destruct err.
  - apply (runsSafely_step rs (log_events [ev] rs)); [done|done|].
    by apply IH.
  - assert (wfPlan (rs_pending (copyOut out output rs))
              (rs_store (copyOut out output rs))) as Hw0.
    { eapply wfPlan_later; [apply copyOut_shape| |exact Hw].
      by rewrite copyOut_pending. }
    pose proof (rsrun_safe _ Hw0) as Hsafe.
    apply (runsSafely_step rs (copyOut out output rs));
      [apply copyOut_shape|by rewrite copyOut_pending|].
    destruct (rsrun (copyOut out output rs)) as [[[]| e | msg |] rs1];
      simpl in Hsafe; try done.
    + destruct Hsafe as (Hs & Hp & _).
      apply (runsSafely_step _ rs1); [done|done|].
      apply IH. by eapply wfPlan_later.
    + destruct Hsafe as (Hs & Hp & _).
      apply (runsSafely_step _ rs1); [done|done|].
      apply IH. by eapply wfPlan_later.
Qed.

Lemma runExec_safe e inp out rs :
  wfPlan (rs_pending rs) (rs_store rs) ->
  runsSafely rs (runExec rsrun e inp out rs).1 (runExec rsrun e inp out rs).2.
Proof.
  intros Hw. destruct e as [f|values|f|f|ptrs]; simpl.
  - destruct (f inp) as [evs [output [err|]]]; simpl.
    + by apply (runsSafely_step rs (log_events evs rs)), runsSafely_refl.
    + split; [by rewrite copyOut_shape|]. split; [by rewrite copyOut_pending|done].
  - split; [by rewrite copyOut_shape|]. split; [by rewrite copyOut_pending|done].
  - by apply runStack_safe.
  - destruct (f inp) as [evs err]. simpl.
    apply (runsSafely_step rs (log_events evs rs)); [done|done|].
    apply runsSafely_refl. by destruct err.
  - destruct (populate _ _ _ _); simpl.
    + by apply (runsSafely_step rs (set_rs_host g rs)), runsSafely_refl.
    + apply runsSafely_refl. by intros msg [= <-].
Qed.
End runner_safety.

Lemma run_safe fuel : ∀ rs,
  wfPlan (rs_pending rs) (rs_store rs) ->
  runsSafely rs (run fuel rs).1 (run fuel rs).2.
Proof.
  induction fuel as [|fuel IH]; intros rs Hw; simpl.
  { destruct (rs_pending rs); by apply runsSafely_refl. }
  destruct (rs_pending rs) as [|node rest] eqn:E; [by apply runsSafely_refl|].
  apply Forall_cons in Hw as [Hnode Hw].
  set (rs1 := set_rs_pending rest rs).
  assert (rs_pending rs1 `suffix_of` rs_pending rs) as Hsuf.
  { rewrite E. simpl. by apply suffix_cons_r. }
  destruct node as [uparams uresult action|items res|items res].
  - destruct Hnode as [[inp Hi] [buf Hb]]. rewrite Hi, Hb.
    pose proof (runExec_safe (run fuel) IH (exec action) inp uresult
                  (log_trace action rs1) Hw) as Hx.
    apply (runsSafely_step rs (log_trace action rs1)); [done|done|].
    destruct (runExec _ _ _ _ _) as [[[]| e | msg |] rs2]; simpl in Hx;
      try done.
    + destruct Hx as (Hs & Hp & _).
      apply (runsSafely_step _ rs2); [done|done|].
      apply IH. by eapply wfPlan_later.
    + destruct Hx as (Hs & Hp & _). by split.
  - destruct Hnode as [(buf & Hb & Hl) Hv].
    destruct (collectParamNode_execute_total items res 0 _ buf Hb) as [st Hst];
      [simpl; lia|done|].
    simpl. rewrite Hst.
    pose proof (collectParamNode_execute_shape _ _ _ _ _ Hst) as Hs.
    apply (runsSafely_step rs (set_rs_store st rs1)); [done|done|].
    apply IH. by apply (wfPlan_later rest (rs_store rs)).
  - destruct (execute _ _) as [st|] eqn:Hst.
    + pose proof (execute_shape _ _ _ Hst) as Hs.
      apply (runsSafely_step rs (set_rs_store st rs1)); [done|done|].
      apply IH. by apply (wfPlan_later rest (rs_store rs)).
    + simpl. split; [done|]. split; [done|]. intros msg [= <-]. split; [done|].
      rewrite E. by intros [? _]%Forall_cons.
Qed.

Lemma toposort_Panic_not_nil fuel ns roots msg :
  toposort fuel (buildGraph ns) roots = Panic msg ->
  msg ≠ "nil pointer dereference".
Proof.
  set (P := λ m : string, m ≠ "nil pointer dereference").
  assert (∀ n : graphNode,
            Forall (λ spec, Decorate spec = true
                            -> P "invalid uninitialized decorate") (input n))
    as Hin.
  { intros n. apply Forall_forall. by intros spec _ _. }
  assert (panicsOnly P (forEach roots (rootStep fuel (buildGraph ns)))) as H.
  { apply panicsOnly_forEach. apply Forall_forall. intros root Hroot.
    unfold rootStep. apply panicsOnly_bind; [|intros p; by intros tp m tp'].
    apply panicsOnly_GraphNode; [apply slotsValid_buildGraph| |done].
    intros id Hid. by apply panicsOnly_NodeID; [apply slotsValid_buildGraph| |]. }
  unfold toposort, toposortState.
  destruct (forEach roots _ _) as [[[]| | m |] tp] eqn:E; try done.
  intros [= <-]. by eapply H.
Qed.



(** ** What is supplied is what is populated *)

Lemma outputSlots_plain key id out : ∀ i0 i spec,
  Forall (λ spec, Group spec = false ∧ Decorate spec = false) out ->
  NoDup (map extractGraphKey out) ->
  out !! i = Some spec -> extractGraphKey spec = key ->
  outputSlots false key id i0 out = [Slot id (i0 + i)].
Proof.
  induction out as [|s out IH]; intros i0 i spec Hp Hnd Hi Hk; [done|].
  apply Forall_cons in Hp as [[_ Hd] Hp]. simpl in Hnd.
  apply NoDup_cons in Hnd as [Hfresh Hnd]. simpl.
  destruct i as [|i]; simpl in Hi.
  - injection Hi as ->. rewrite decide_True by done. rewrite Nat.add_0_r.
    simpl. f_equal.
    assert (∀ j, outputSlots false key id j out = []) as Hnone; [|apply Hnone].
    clear -Hfresh Hk. subst key. induction out as [|s out IH]; intros j; [done|].
    simpl in *. apply not_elem_of_cons in Hfresh as [Hne Hfresh].
    rewrite decide_False by (intros [? _]; congruence). simpl. by apply IH.
  - rewrite decide_False.
    + simpl. rewrite (IH (S i0) i spec) by done. do 2 f_equal. lia.
    + intros [Heq _]. apply Hfresh. rewrite Heq, <- Hk.
      apply list_elem_of_In, in_map, list_elem_of_In.
      by eapply list_elem_of_lookup_2.
Qed.

Lemma outputSlots_no_decorator key id out : ∀ i0,
  Forall (λ spec, Group spec = false ∧ Decorate spec = false) out ->
  outputSlots true key id i0 out = [].
Proof.
  induction out as [|s out IH]; intros i0 Hp; [done|].
  apply Forall_cons in Hp as [[_ Hd] Hp]. simpl.
  rewrite decide_False by (intros [_ ?]; congruence). simpl. by apply IH.
Qed.

Lemma resolved_passes fuel g (l : list Spec) s :
  Forall (λ spec, Decorate spec = false
                  ∧ slotsOf (decorate g) (extractGraphKey spec) = []
                  ∧ is_Some (baseOf g s (extractGraphKey spec))) l ->
  forEach l (baseStep (toposortGenerateGraphNodeID (S fuel) g) g) s = (Ok (), s)
  ∧ collectEach l (toposortGenerateCollect (toposortGenerateGraphNodeID (S fuel) g) g) s
    = (Ok (map (λ spec, default nilCollect (baseOf g s (extractGraphKey spec))) l), s).
Proof.
  induction 1 as [|spec l (Hd & Hdec & b & Hb) _ [IH1 IH2]]; [done|].
  pose proof (BaseCollect_quiet _ g (NodeID_cached fuel g) _ s b Hb
                (or_introl Hdec)) as HB.
  split; cbn [forEach collectEach map].
  - unfold baseStep at 1. rewrite (bind_step _ _ _ () s); [done|].
    by rewrite (bind_step _ _ _ _ _ HB).
  - rewrite (bind_step _ _ _ b s).
    + rewrite (bind_step _ _ _ _ _ IH2). by rewrite Hb.
    + unfold toposortGenerateCollect. cbv beta. rewrite HB.
      unfold collectAfterBase. by rewrite Hd, Hdec.
Qed.

Lemma supplyPopulate_graph values specs f1 :
  plainPorts specs ->
  nodes (buildGraph [supplyNode values specs f1]) = [supplyNode values specs f1]
  ∧ (∀ i spec, specs !! i = Some spec ->
       slotsOf (provide (buildGraph [supplyNode values specs f1]))
         (extractGraphKey spec) = [Slot 0 i])
  ∧ (∀ key, slotsOf (decorate (buildGraph [supplyNode values specs f1])) key = []).
Proof.
  intros [Hp Hnd]. split; [apply nodes_buildGraph|]. split.
  - intros i spec Hi. rewrite provide_buildGraph. unfold providersInOrder. simpl.
    rewrite app_nil_r. by apply (outputSlots_plain _ 0 specs 0 i spec).
  - intros key. rewrite decorate_buildGraph. unfold decoratorsInOrder. simpl.
    rewrite app_nil_r. by apply outputSlots_no_decorator.
Qed.

Lemma supply_scheduled fuel g values specs f1 :
  nodes g = [supplyNode values specs f1] ->
  toposortGenerateGraphNodeID (S fuel) g 0
    (push_store (ExecutionParam (replicate (length specs) VInvalid)) newGraphToposort)
  = (Ok 3,
     {| outputs := <[0 := 3]> ∅; grouped := ∅; decorated := ∅; decorating := ∅;
        pending := ({[0]} ∪ ∅) ∖ {[0]};
        result := [collectParamNode [] 2;
                   graphUserNode 2 3 (value (supplyNode values specs f1))];
        store := [ExecutionParam (replicate (length specs) VInvalid);
                  ExecutionParam [];
                  ExecutionParam (replicate (length specs) VInvalid)] |}).
Proof.
  intros Hn. simpl. rewrite Hn. simpl. done.
Qed.

Section supply_populate.
Variable fuel : nat.
Variable g : graph.
Variables (values : list Value) (ptrs : list nat) (specs : list Spec).
Variables (f1 f2 : option string).
Hypothesis g_nodes : nodes g = [supplyNode values specs f1].
Hypothesis g_provide : ∀ i spec, specs !! i = Some spec ->
  slotsOf (provide g) (extractGraphKey spec) = [Slot 0 i].
Hypothesis g_decorate : ∀ key, slotsOf (decorate g) key = [].
Hypothesis specs_plain :
  Forall (λ spec, Group spec = false ∧ Decorate spec = false) specs.

Let scheduled : graphToposort :=
  {| outputs := <[0 := 3]> ∅; grouped := ∅; decorated := ∅; decorating := ∅;
     pending := ({[0]} ∪ ∅) ∖ {[0]};
     result := [collectParamNode [] 2;
                graphUserNode 2 3 (value (supplyNode values specs f1))];
     store := [ExecutionParam (replicate (length specs) VInvalid);
               ExecutionParam [];
               ExecutionParam (replicate (length specs) VInvalid)] |}.

Lemma scheduled_baseOf i spec :
  specs !! i = Some spec ->
  baseOf g scheduled (extractGraphKey spec) = Some {| ec_result := 3; ec_index := i |}.
Proof.
  intros Hi. unfold baseOf.
  destruct (Forall_lookup_1 _ _ _ _ specs_plain Hi) as [Hg _].
  change (group (extractGraphKey spec)) with (Group spec).
  rewrite Hg, (g_provide i spec Hi). simpl slot_id.
  rewrite decide_False.
  - simpl. by rewrite lookup_insert_eq.
  - simpl. rewrite elem_of_difference, elem_of_singleton. by intros [_ ?].
Qed.

Lemma scheduled_resolved :
  Forall (λ spec, Decorate spec = false
                  ∧ slotsOf (decorate g) (extractGraphKey spec) = []
                  ∧ is_Some (baseOf g scheduled (extractGraphKey spec))) specs.
Proof.
  apply Forall_lookup. intros i spec Hi.
  destruct (Forall_lookup_1 _ _ _ _ specs_plain Hi) as [_ Hd].
  split; [done|]. split; [done|]. rewrite (scheduled_baseOf i spec Hi). eauto.
Qed.

Lemma supplyPopulate_plan spec0 rest :
  specs = spec0 :: rest ->
  toposort (S fuel) g [populateRoot ptrs specs f2]
  = Ok ([collectParamNode [] 2;
         graphUserNode 2 3 (value (supplyNode values specs f1));
         collectParamNode (imap (λ i _, {| ec_result := 3; ec_index := i |}) specs) 1;
         graphUserNode 1 4 (value (populateRoot ptrs specs f2))],
        [ExecutionParam (replicate (length specs) VInvalid);
         ExecutionParam [];
         ExecutionParam (replicate (length specs) VInvalid);
         ExecutionParam []]).
Proof.
  intros Hspecs.
  assert (forEach specs (baseStep (toposortGenerateGraphNodeID (S fuel) g) g)
            (push_store (ExecutionParam (replicate (length specs) VInvalid))
               newGraphToposort) = (Ok (), scheduled)) as Hpass1.
  { pose proof scheduled_resolved as Hres. rewrite Hspecs in Hres.
    apply Forall_cons in Hres as [_ Hres].
    destruct (resolved_passes fuel g rest scheduled Hres) as [Hrest _].
    rewrite Hspecs at 1. cbn [forEach].
    rewrite (bind_step _ _ _ () scheduled); [exact Hrest|].
    unfold baseStep. rewrite (bind_step _ _ _ {| ec_result := 3; ec_index := 0 |}
                                scheduled); [done|].
    unfold toposortGenerateBaseCollect.
    destruct (Forall_lookup_1 _ _ 0 spec0 specs_plain) as [Hg _];
      [by rewrite Hspecs|].
    change (group (extractGraphKey spec0)) with (Group spec0).
    rewrite Hg, g_decorate.
    rewrite (bind_step _ _ _ {| ec_result := 3; ec_index := 0 |} scheduled);
      [done|].
    unfold toposortGenerateSingle.
    rewrite (g_provide 0 spec0) by (by rewrite Hspecs).
    rewrite bind_get. simpl pending.
    rewrite decide_False by (by intros ?%elem_of_empty).
    by rewrite (bind_step _ _ _ _ _ (supply_scheduled fuel g values specs f1 g_nodes)). }
  destruct (resolved_passes fuel g specs scheduled scheduled_resolved)
    as [_ Hpass2].
  assert (map (λ spec, default nilCollect (baseOf g scheduled (extractGraphKey spec)))
            specs
          = imap (λ i _, {| ec_result := 3; ec_index := i |}) specs) as Hitems.
  { apply list_eq. intros i. rewrite list_lookup_fmap, list_lookup_imap.
    destruct (specs !! i) as [spec|] eqn:Hi; [|done]. simpl.
    by rewrite (scheduled_baseOf i spec Hi). }
  rewrite Hitems in Hpass2.
  assert (toposortGenerateGraphNode (toposortGenerateGraphNodeID (S fuel) g) g
            (populateRoot ptrs specs f2) newGraphToposort
          = (Ok 4,
             {| outputs := <[0 := 3]> ∅; grouped := ∅; decorated := ∅;
                decorating := ∅; pending := ({[0]} ∪ ∅) ∖ {[0]};
                result :=
                  [collectParamNode [] 2;
                   graphUserNode 2 3 (value (supplyNode values specs f1));
                   collectParamNode
                     (imap (λ i _, {| ec_result := 3; ec_index := i |}) specs) 1;
                   graphUserNode 1 4 (value (populateRoot ptrs specs f2))];
                store :=
                  [ExecutionParam (replicate (length specs) VInvalid);
                   ExecutionParam [];
                   ExecutionParam (replicate (length specs) VInvalid);
                   ExecutionParam []] |})) as HG.
  { unfold toposortGenerateGraphNode. rewrite bind_alloc.
    cbn [input output populateRoot].
    rewrite (bind_step _ _ _ _ _ Hpass1), (bind_step _ _ _ _ _ Hpass2).
    rewrite bind_emit, bind_alloc, bind_emit. done. }
  unfold toposort, toposortState. cbn [forEach]. unfold rootStep.
  rewrite (bind_step _ _ _ () _ (bind_step _ _ _ _ _ HG)). done.
Qed.
End supply_populate.

Lemma run_plumb fuel rs node rest st' :
  rs_pending rs = node :: rest ->
  execute node (rs_store rs) = Some st' ->
  run (S fuel) rs = run fuel (set_rs_store st' (set_rs_pending rest rs)).
Proof.
  intros Hp He. simpl. rewrite Hp.
  destruct node as [p r a|items res|items res]; [done| |]; by rewrite He.
Qed.

Lemma run_user_Ok fuel rs p r a rest inp buf rs2 :
  rs_pending rs = graphUserNode p r a :: rest ->
  loadBuf (rs_store rs) p = Some inp ->
  loadBuf (rs_store rs) r = Some buf ->
  runExec (run fuel) (exec a) inp r (log_trace a (set_rs_pending rest rs))
  = (Ok (), rs2) ->
  run (S fuel) rs = run fuel rs2.
Proof. intros Hp Hi Hb He. simpl. rewrite Hp. simpl. by rewrite Hi, Hb, He. Qed.

Lemma copy_full {A} (dst src : list A) :
  length src = length dst -> copy dst src = src.
Proof.
  intros Hl. unfold copy. rewrite <- Hl, firstn_all.
  rewrite drop_ge by lia. by rewrite app_nil_r.
Qed.

Lemma supplyPopulate_run (values : list Value) (ptrs : list nat)
    (specs : list Spec) (a1 a2 : runAction) h' :
  exec a1 = supplyExec values -> exec a2 = populateExec ptrs ->
  length values = length specs ->
  populate ptrs 0 values ∅ = Some h' ->
  ∃ rs',
    run 4 {| rs_pending :=
               [collectParamNode [] 2;
                graphUserNode 2 3 a1;
                collectParamNode
                  (imap (λ i _, {| ec_result := 3; ec_index := i |}) specs) 1;
                graphUserNode 1 4 a2];
             rs_store :=
               [ExecutionParam (replicate (length specs) VInvalid);
                ExecutionParam [];
                ExecutionParam (replicate (length specs) VInvalid);
                ExecutionParam []];
             rs_events := []; rs_host := ∅; rs_trace := [] |} = (Ok (), rs')
    ∧ rs_host rs' = h' ∧ rs_events rs' = [].
Proof.
  intros E1 E2 Hlv Hpop.
  erewrite run_plumb; [|reflexivity|reflexivity].
  erewrite run_user_Ok; [|reflexivity|reflexivity|reflexivity|].
  2:{ rewrite E1. simpl. reflexivity. }
  cbn [copyOut set_rs_pending set_rs_store log_trace rs_store rs_pending loadBuf
       storeBuf].
  simpl. rewrite (copy_full (replicate _ _) values) by (by rewrite length_replicate).
  rewrite (collectParamNode_execute_from _ 1 0 _
             (replicate (length specs) VInvalid) values).
  - simpl. rewrite length_imap, drop_ge by (by rewrite length_replicate).
    rewrite app_nil_r, E2. simpl. rewrite Hpop. simpl. eauto.
  - intros Hin. apply list_elem_of_fmap in Hin as (item & Hr & Hin).
    apply list_elem_of_lookup in Hin as (i & Hi).
    rewrite list_lookup_imap in Hi.
    destruct (specs !! i); simplify_eq/=.
  - reflexivity.
  - by rewrite length_imap, length_replicate.
  - apply Forall2_same_length_lookup_2.
    + by rewrite length_imap.
    + intros i item v Hi Hv. rewrite list_lookup_imap in Hi.
      destruct (specs !! i); simplify_eq/=. exact Hv.
Qed.


